(** * PATH Inspector (paths.py): a shallow embedding and its properties

    The development follows [src/paths.py]: the classifier, the snapshot
    builder with its duplicate and shadow passes, the suggestion engine and
    the interactive fix session.  Strings are Rocq strings (bytes), the
    [seen] dictionary is a [gmap], ordered dictionaries are association
    lists, and everything the program asks of the operating system
    (expansion, [stat], [resolve], [iterdir], [mkdir]) is an interface
    ([OS]) that every theorem quantifies over. *)

From Stdlib Require Import Ascii String DecimalString DecimalNat DecimalFacts
  Sorted.
From stdpp Require Import gmap strings list.

Local Open Scope string_scope.
Local Open Scope list_scope.
Local Open Scope nat_scope.

(** ** Python string primitives used by the program

    Strings are sequences of bytes and the case, white-space and digit
    classes are the ASCII ones.  Python's [str] methods know more
    characters: [lower] also lower-cases letters outside ASCII (the Kelvin
    sign becomes [k]), [strip] also removes white space outside ASCII (the
    no-break space), and [isdigit] also accepts digits outside ASCII, some
    of which [int] then refuses with a [ValueError].  The model is the
    program on ASCII text: paths and typed lines written in ASCII. *)

Module Py.

(** [os.sep] and [os.pathsep] on the platforms the script targets
    (macOS and Linux). *)
Definition os_sep : ascii := "/"%char.
Definition os_pathsep : ascii := ":"%char.

Definition str1 (c : ascii) : string := String c EmptyString.

(** [s.split(sep)] for a one-character separator: never returns the empty
    list, [''.split(sep) == ['']]. *)
Fixpoint split (sep : ascii) (s : string) : list string :=
  match s with
  | EmptyString => [EmptyString]
  | String c s' =>
      if Ascii.eqb c sep then EmptyString :: split sep s'
      else match split sep s' with
           | [] => [str1 c]
           | x :: xs => String c x :: xs
           end
  end.

(** [sep.join(l)]. *)
Definition join (sep : ascii) (l : list string) : string :=
  String.concat (str1 sep) l.

(** [s[len(p):]] when [s.startswith(p)]. *)
Fixpoint strip_prefix (p s : string) : option string :=
  match p with
  | EmptyString => Some s
  | String a p' =>
      match s with
      | EmptyString => None
      | String b s' => if Ascii.eqb a b then strip_prefix p' s' else None
      end
  end.

(** [s.startswith(p)]. *)
Definition startswith (s p : string) : bool :=
  match strip_prefix p s with Some _ => true | None => false end.

(** [s.startswith(tuple)]. *)
Definition startswith_any (s : string) (ps : list string) : bool :=
  existsb (startswith s) ps.

(** [needle in hay]. *)
Fixpoint contains (needle hay : string) : bool :=
  startswith hay needle ||
  match hay with
  | EmptyString => false
  | String _ hay' => contains needle hay'
  end.

(** [s.lower()], on the ASCII letters; other bytes are left as they are
    (Python lower-cases letters outside ASCII too). *)
Definition lower_ascii (c : ascii) : ascii :=
  let n := nat_of_ascii c in
  if ((65 <=? n) && (n <=? 90))%nat then ascii_of_nat (n + 32) else c.

Fixpoint lower (s : string) : string :=
  match s with
  | EmptyString => EmptyString
  | String c s' => String (lower_ascii c) (lower s')
  end.

(** [s.rstrip(ch)] for a one-character set. *)
Fixpoint rstrip (ch : ascii) (s : string) : string :=
  match s with
  | EmptyString => EmptyString
  | String c s' =>
      match rstrip ch s' with
      | EmptyString => if Ascii.eqb c ch then EmptyString else str1 c
      | r => String c r
      end
  end.

(** ASCII white space as [str.isspace] sees it. *)
Definition is_space (c : ascii) : bool :=
  let n := nat_of_ascii c in
  (((9 <=? n) && (n <=? 13)) || ((28 <=? n) && (n <=? 32)))%nat.

Fixpoint lstrip_space (s : string) : string :=
  match s with
  | EmptyString => EmptyString
  | String c s' => if is_space c then lstrip_space s' else s
  end.

Fixpoint rstrip_space (s : string) : string :=
  match s with
  | EmptyString => EmptyString
  | String c s' =>
      match rstrip_space s' with
      | EmptyString => if is_space c then EmptyString else str1 c
      | r => String c r
      end
  end.

(** [s.strip()], of ASCII white space (Python strips white space outside
    ASCII too). *)
Definition strip (s : string) : string := rstrip_space (lstrip_space s).

Definition is_digit (c : ascii) : bool :=
  let n := nat_of_ascii c in ((48 <=? n) && (n <=? 57))%nat.

(** [s.isdigit()]: non-empty and all decimal digits, the ASCII ones
    (Python accepts digits outside ASCII too, and [int] raises
    [ValueError] on some of those). *)
Fixpoint all_digits (s : string) : bool :=
  match s with
  | EmptyString => true
  | String c s' => is_digit c && all_digits s'
  end.

Definition isdigit (s : string) : bool :=
  match s with EmptyString => false | _ => all_digits s end.

(** [int(s)] for a string of decimal digits. *)
Fixpoint int_acc (acc : nat) (s : string) : nat :=
  match s with
  | EmptyString => acc
  | String c s' => int_acc (10 * acc + (nat_of_ascii c - 48)) s'
  end.

Definition int (s : string) : nat := int_acc 0 s.

(** [str(n)] for a natural number. *)
Definition str_of_nat (n : nat) : string :=
  NilEmpty.string_of_uint (Nat.to_uint n).

(** Truthiness of a string: [if s:]. *)
Definition truthy (s : string) : bool :=
  match s with EmptyString => false | _ => true end.

(** [re.search(pattern, s)] where [here] decides a match anchored at the
    first character. *)
Fixpoint re_search (here : string -> bool) (s : string) : bool :=
  here s ||
  match s with
  | EmptyString => false
  | String _ s' => re_search here s'
  end.

(** [s.replace(old, new)] for one-character [old] and [new]. *)
Fixpoint replace (old new : ascii) (s : string) : string :=
  match s with
  | EmptyString => EmptyString
  | String c s' =>
      String (if Ascii.eqb c old then new else c) (replace old new s')
  end.

Fixpoint drop_digits (s : string) : string :=
  match s with
  | EmptyString => EmptyString
  | String c s' => if is_digit c then drop_digits s' else s
  end.

End Py.

(** ** Exceptions, results and the operating-system interface *)

(** A raised Python exception: its class and [str(ex)]. *)
Record exn := Exn { exn_class : string; exn_msg : string }.

(** The outcome of a call that may raise. *)
Definition result (A : Type) : Type := (exn + A)%type.

Definition raise {A : Type} (ex : exn) : result A := inl ex.

#[global] Instance result_ret : MRet result := λ A x, inr x.
#[global] Instance result_bind : MBind result :=
  λ A B f m, match m with inl ex => inl ex | inr x => f x end.

(** [try: body  except Exception as ex: handler(ex)]. *)
Definition try_except {A : Type} (body : result A) (handler : exn → result A)
  : result A :=
  match body with inl ex => handler ex | inr x => inr x end.

(** What the program asks of the platform.  The file system is a state
    [FS] (only [mkdir] changes it); every query may raise, as the
    [pathlib] calls can ([PermissionError], [RuntimeError] of
    [expanduser], ...). *)
Class OS := {
  FS : Type;
  (** [str(Path.home())], read once when the module is loaded *)
  HOME : string;
  (** [str(Path(os.path.expandvars(p)).expanduser())] under an environment *)
  expanduser_vars : gmap string string → string → result string;
  (** [os.path.normpath] *)
  normpath : string → string;
  (** [Path(p).exists()], [Path(p).is_dir()], [str(Path(p).resolve())] *)
  path_exists : FS → string → result bool;
  path_is_dir : FS → string → result bool;
  path_resolve : FS → string → result string;
  (** names of the children of a directory, in the order the platform
      lists them *)
  path_iterdir : FS → string → result (list string);
  (** [Path(p).mkdir(parents=True, exist_ok=True)] *)
  path_mkdir : FS → string → result unit * FS;
}.

(** ** The program *)

Module Paths.

Import Py.

(** *** Classification rules *)

Definition SYSTEM_PREFIXES : list string :=
  ["/System"; "/bin"; "/sbin"; "/usr/bin"; "/usr/sbin"; "/usr/libexec"].

Definition BREW_PREFIXES : list string := ["/opt/homebrew"; "/usr/local"].

Definition DEV_PREFIXES : list string :=
  ["/Applications/Xcode.app"; "/Library/Developer"; "/Developer"].

(** The dictionary literal, in insertion order (the order in which
    [KEYWORD_BUCKETS.items()] yields it). *)
Definition KEYWORD_BUCKETS (home : string) : list (string * list string) :=
  [ ("Python", ["pyenv"; "conda"; "anaconda"; "miniconda"; "venv";
                "virtualenv"; "pipx"; "python"]);
    ("Node.js", ["nvm"; "node"; "npm"; "yarn"; "pnpm"]);
    ("Java", ["java"; "jdk"; "jre"; "maven"; "gradle"]);
    ("Go", ["/go"; "gobin"; "golang"]);
    ("Rust", ["cargo"; ".cargo"; "rustup"]);
    ("Ruby", ["rbenv"; "rvm"; "ruby"; "bundler"]);
    ("Android", ["android"; "sdk"]);
    ("Dotfiles / User Local", [home; "~"; ".local"; ".dotfiles"]);
    ("Cloud / DevOps", ["aws"; "gcloud"; "google-cloud-sdk"; "azure"; "az";
                        "kubectl"; "helm"; "terraform"]);
    ("Databricks", ["databricks"]);
    ("Databases", ["postgres"; "mysql"; "mariadb"; "mongo"; "redis"]) ].

Fixpoint _contains_any (haystack_lower : string) (needles : list string)
  : option string :=
  match needles with
  | [] => None
  | n :: needles' =>
      if contains (lower n) haystack_lower then Some n
      else _contains_any haystack_lower needles'
  end.

(** The loop [for cat, needles in KEYWORD_BUCKETS.items()] of [classify];
    [None] when it runs to its end. *)
Fixpoint classify_buckets (pl : string) (buckets : list (string * list string))
  : option (string * string) :=
  match buckets with
  | [] => None
  | (cat, needles) :: buckets' =>
      match _contains_any pl needles with
      | Some hit =>
          if truthy hit then Some (cat, "matched '" +:+ hit +:+ "'")
          else classify_buckets pl buckets'
      | None => classify_buckets pl buckets'
      end
  end.

(** [/versions/node/v\d+], anchored. *)
Definition re_node_here (s : string) : bool :=
  match strip_prefix "/versions/node/v" s with
  | Some (String c _) => is_digit c
  | _ => false
  end.

(** [/python\d+(\.\d+)?/], anchored. *)
Definition re_python_here (s : string) : bool :=
  match strip_prefix "/python" s with
  | Some (String c r) =>
      is_digit c &&
      match drop_digits r with
      | String "/" _ => true
      | String "." (String d r') =>
          is_digit d &&
          match drop_digits r' with String "/" _ => true | _ => false end
      | _ => false
      end
  | _ => false
  end.

Definition classify (home : string) (path : string) : string * string :=
  let p := path in
  let pl := lower p in
  if startswith_any p SYSTEM_PREFIXES then ("System", "system prefix")
  else if startswith_any p DEV_PREFIXES then
    ("Apple / Xcode / Developer", "developer tools prefix")
  else if startswith_any p BREW_PREFIXES then
    if contains "/Cellar/" p || contains "/cellar/" pl
    then ("Homebrew", "brew cellar")
    else ("Homebrew", "brew prefix")
  else
    match classify_buckets pl (KEYWORD_BUCKETS home) with
    | Some r => r
    | None =>
        if re_search re_node_here pl then ("Node.js", "node versioned path")
        else if re_search re_python_here pl
        then ("Python", "python versioned path")
        else ("Other / Unknown", "no match")
    end.

(** *** Analysis *)

Record Entry := {
  index : nat;
  raw : string;
  expanded : string;
  normalized : string;
  exists_ : bool;
  is_dir : bool;
  category : string;
  reason : string;
  duplicate_of : option nat;
  shadowed_by : option nat;
}.

Definition set_shadowed_by (e : Entry) (k : option nat) : Entry :=
  {| index := index e; raw := raw e; expanded := expanded e;
     normalized := normalized e; exists_ := exists_ e; is_dir := is_dir e;
     category := category e; reason := reason e;
     duplicate_of := duplicate_of e; shadowed_by := k |}.

(** [not e.exists or not e.is_dir], the test every caller uses for a
    broken entry. *)
Definition is_broken (e : Entry) : bool := negb (exists_ e) || negb (is_dir e).

(** [f"{n:02d}"]: decimal, padded with zeros to two characters. *)
Definition fmt_02d (n : nat) : string :=
  let s := str_of_nat n in
  if (String.length s <? 2)%nat then "0" +:+ s else s.

Definition status_badges (e : Entry) : list string :=
  let badges := [] in
  let badges :=
    if negb (exists_ e) || negb (is_dir e) then badges ++ ["BROKEN"]
    else badges in
  let badges :=
    match duplicate_of e with
    | Some k => badges ++ ["DUP(" +:+ fmt_02d k +:+ ")"]
    | None => badges
    end in
  let badges :=
    match shadowed_by e with
    | Some k => badges ++ ["SHADOW(" +:+ fmt_02d k +:+ ")"]
    | None => badges
    end in
  badges.

(** The object that [main] prints for [--json]: the entries with their
    flags, and the summary with its three lists of indices. *)
Record json_summary := {
  total_entries : nat;
  summary_broken : list nat;
  summary_duplicates : list nat;
  summary_shadowed : list nat;
  log_file : string;
}.

Record json_data := {
  json_raw_path : string;
  json_entries : list (Entry * list string);
  summary : json_summary;
}.

Definition is_duplicate (e : Entry) : bool :=
  match duplicate_of e with Some _ => true | None => false end.

Definition is_shadowed (e : Entry) : bool :=
  match shadowed_by e with Some _ => true | None => false end.

Definition make_json (raw_path : string) (entries : list Entry)
    (path_log_file : string) : json_data :=
  {| json_raw_path := raw_path;
     json_entries := (λ e, (e, status_badges e)) <$> entries;
     summary :=
       {| total_entries := length entries;
          summary_broken := index <$> List.filter is_broken entries;
          summary_duplicates := index <$> List.filter is_duplicate entries;
          summary_shadowed := index <$> List.filter is_shadowed entries;
          log_file := path_log_file |} |}.

(** A call [logger.info(fmt, *args)] or [logger.error(fmt, *args)]: the
    format and its arguments, as the logging module receives them. *)
Inductive log_level := INFO | ERROR.

Inductive log_arg :=
  | ArgInt (n : nat)
  | ArgStr (s : string)
  | ArgExn (ex : exn).

Record log_record := {
  levelname : log_level;
  msg : string;
  args : list log_arg;
}.

Section WithOS.
Context `{os : OS}.

Definition normalize_dir (environ : gmap string string) (fs : FS) (p : string)
  : result string :=
  expanded ← expanduser_vars environ p;
  found ← try_except
            (b ← path_exists fs expanded;
             if b : bool then r ← path_resolve fs expanded; mret (Some r)
             else mret None)
            (λ _, mret None);
  mret (match found with Some r => r | None => normpath expanded end).

(** The test of the inner loop of [compute_shadowing]:
    [b != a and b.startswith(a.rstrip(os.sep) + os.sep)]. *)
Definition shadow_test (a b : string) : bool :=
  negb (String.eqb b a) && startswith b (rstrip os_sep a +:+ str1 os_sep).

(** The inner loop [for j in range(i)] for one entry [e]: the value it
    assigns to [e.shadowed_by], if it assigns one. *)
Fixpoint shadow_scan (js : list nat) (normalized_list : list string)
    (entries : list Entry) (e : Entry) : option nat :=
  match js with
  | [] => None
  | j :: js' =>
      match normalized_list !! j, entries !! j with
      | Some a, Some ej =>
          if shadow_test a (normalized e) then Some (index ej)
          else shadow_scan js' normalized_list entries e
      | _, _ => None
      end
  end.

(** The entries are updated in place; the scan reads only [normalized]
    and [index], which the updates leave alone, so every entry is scanned
    against the list as it was on entry. *)
Definition compute_shadowing (entries : list Entry) : list Entry :=
  let normalized_list := normalized <$> entries in
  imap (λ i e,
          match shadow_scan (seq 0 i) normalized_list entries e with
          | Some k => set_shadowed_by e (Some k)
          | None => e
          end) entries.

(** [raw_path.split(os.pathsep) if raw_path else []]. *)
Definition split_path (raw_path : string) : list string :=
  if truthy raw_path then split os_pathsep raw_path else [].

(** The loop [for idx, raw in enumerate(parts, start=1)] of
    [analyze_path], with its two accumulators. *)
Fixpoint analyze_entries (environ : gmap string string) (fs : FS)
    (parts : list string) (idx : nat) (seen : gmap string nat)
    (entries : list Entry) : result (list Entry) :=
  match parts with
  | [] => mret entries
  | raw :: parts' =>
      expanded ← expanduser_vars environ raw;
      normalized ← normalize_dir environ fs raw;
      exists_ ← path_exists fs expanded;
      is_dir ← (if exists_ : bool then path_is_dir fs expanded else mret false);
      let '(category, reason) := classify HOME normalized in
      let '(duplicate_of, seen') :=
        match seen !! normalized with
        | Some k => (Some k, seen)
        | None => (None, <[normalized := idx]> seen)
        end in
      analyze_entries environ fs parts' (S idx) seen'
        (entries ++ [ {| index := idx; raw := raw; expanded := expanded;
                         normalized := normalized; exists_ := exists_;
                         is_dir := is_dir; category := category;
                         reason := reason; duplicate_of := duplicate_of;
                         shadowed_by := None |} ])
  end.

(** [grouped.setdefault(e.category, []).append(e)] on an insertion-ordered
    dictionary. *)
Fixpoint group_append (grouped : list (string * list Entry)) (e : Entry)
  : list (string * list Entry) :=
  match grouped with
  | [] => [(category e, [e])]
  | (c, es) :: grouped' =>
      if String.eqb c (category e) then (c, (es ++ [e])%list) :: grouped'
      else (c, es) :: group_append grouped' e
  end.

(** [os.environ.get("PATH", "")]. *)
Definition environ_get_PATH (environ : gmap string string) : string :=
  default "" (environ !! "PATH").

Definition analyze_path (environ : gmap string string) (fs : FS)
  : result (string * list Entry * list (string * list Entry)) :=
  let raw_path := environ_get_PATH environ in
  let parts := split_path raw_path in
  entries ← analyze_entries environ fs parts 1 ∅ [];
  let entries := compute_shadowing entries in
  let grouped := foldl group_append [] entries in
  mret (raw_path, entries, grouped).

(** *** Pure paths ([pathlib.PurePosixPath])

    A path is its root and its components, innermost first, so that
    [parent] is the tail and the walks towards the root are structural.
    The root is [""] for a relative path, ["/"] for an absolute one, and
    ["//"] for a path that starts with exactly two slashes, which
    [pathlib] keeps apart.  Empty and [.] components are dropped by the
    constructor as [pathlib] drops them. *)

Record PurePath := { root : string; rparts : list string }.

#[global] Instance PurePath_eq_dec : EqDecision PurePath.
Proof. solve_decision. Defined.

Definition keep_component (c : string) : bool :=
  negb (String.eqb c "") && negb (String.eqb c ".").

Definition Path (s : string) : PurePath :=
  {| root := if startswith s "//" && negb (startswith s "///") then "//"
             else if startswith s "/" then "/"
             else "";
     rparts := rev (List.filter keep_component (split os_sep s)) |}.

Definition path_str (p : PurePath) : string :=
  match root p, rparts p with
  | "", [] => "."
  | r, rp => r +:+ join os_sep (rev rp)
  end.

Definition path_name (p : PurePath) : string :=
  match rparts p with [] => "" | n :: _ => n end.

Definition path_parent (p : PurePath) : PurePath :=
  {| root := root p; rparts := tail (rparts p) |}.

(** [p / name] for a single component. *)
Definition path_child (p : PurePath) (name : string) : PurePath :=
  {| root := root p; rparts := name :: rparts p |}.

(** [sorted] on the children of one directory: ordered by name. *)
Fixpoint sorted_insert (x : string) (l : list string) : list string :=
  match l with
  | [] => [x]
  | y :: l' => if String.leb x y then x :: l else y :: sorted_insert x l'
  end.

Definition sorted (l : list string) : list string :=
  foldr sorted_insert [] l.

(** [l[:n]] for a Python integer [n]. *)
Definition slice_to {A : Type} (l : list A) (n : Z) : list A :=
  if (0 <=? n)%Z then take (Z.to_nat n) l
  else take (length l - Z.to_nat (- n)) l.

(** [len(l) >= n] for a Python integer [n]. *)
Definition len_ge {A : Type} (l : list A) (n : Z) : bool :=
  (n <=? Z.of_nat (length l))%Z.

(** *** Suggestions *)

(** How a loop of [suggest_alternatives] ends: by [return suggestions], or
    by reaching its end (or the [except] clause) with the list built so
    far. *)
Inductive loop_end :=
  | Returned (suggestions : list string)
  | Fell (suggestions : list string).

Definition exists_and_is_dir (fs : FS) (p : string) : result bool :=
  b ← path_exists fs p;
  if b : bool then path_is_dir fs p else mret false.

Definition _safe_expand_and_normalize := normalize_dir.

(** The walk [while True] up to the closest existing ancestor. *)
Fixpoint closest_existing (fs : FS) (anchor : string) (rp : list string)
  : result (option PurePath) :=
  let cursor := {| root := anchor; rparts := rp |} in
  ok ← exists_and_is_dir fs (path_str cursor);
  if ok : bool then mret (Some cursor)
  else match rp with
       | [] => mret None
       | _ :: up => closest_existing fs anchor up
       end.

(** The loop over [sorted(existing_ancestor.iterdir())]; an exception
    inside it ends the [try] block with what was appended so far. *)
Fixpoint suggest_children (fs : FS) (target_name : string) (limit : Z)
    (ancestor : PurePath) (names : list string) (suggestions : list string)
  : loop_end :=
  match names with
  | [] => Fell suggestions
  | name :: names' =>
      let child := path_child ancestor name in
      match path_is_dir fs (path_str child) with
      | inl _ => Fell suggestions
      | inr false =>
          suggest_children fs target_name limit ancestor names' suggestions
      | inr true =>
          if truthy target_name &&
             (String.eqb name target_name || startswith name target_name
              || startswith target_name name)
          then
            match path_resolve fs (path_str child) with
            | inl _ => Fell suggestions
            | inr s =>
                let suggestions := suggestions ++ [s] in
                if len_ge suggestions limit then Returned suggestions
                else suggest_children fs target_name limit ancestor names'
                       suggestions
            end
          else suggest_children fs target_name limit ancestor names'
                 suggestions
      end
  end.

(** The loop [for candidate in [cur / "bin", cur / "sbin"]]. *)
Fixpoint suggest_candidates (fs : FS) (limit : Z)
    (candidates : list PurePath) (suggestions : list string)
  : result loop_end :=
  match candidates with
  | [] => mret (Fell suggestions)
  | candidate :: candidates' =>
      ok ← exists_and_is_dir fs (path_str candidate);
      if ok : bool then
        s ← path_resolve fs (path_str candidate);
        if bool_decide (s ∈ suggestions)
        then suggest_candidates fs limit candidates' suggestions
        else
          let suggestions := suggestions ++ [s] in
          if len_ge suggestions limit then mret (Returned suggestions)
          else suggest_candidates fs limit candidates' suggestions
      else suggest_candidates fs limit candidates' suggestions
  end.

(** The loop [for _ in range(4)] over the parents of the missing path. *)
Fixpoint suggest_nearby (rounds : nat) (fs : FS) (limit : Z)
    (cur : PurePath) (suggestions : list string) : result loop_end :=
  match rounds with
  | 0 => mret (Fell suggestions)
  | S rounds' =>
      ok ← exists_and_is_dir fs (path_str cur);
      r ← (if ok : bool
           then suggest_candidates fs limit
                  [path_child cur "bin"; path_child cur "sbin"] suggestions
           else mret (Fell suggestions));
      match r with
      | Returned l => mret (Returned l)
      | Fell suggestions =>
          if bool_decide (path_parent cur = cur) then mret (Fell suggestions)
          else suggest_nearby rounds' fs limit (path_parent cur) suggestions
      end
  end.

Definition suggest_alternatives (environ : gmap string string) (fs : FS)
    (broken_path : string) (limit : Z) : result (list string) :=
  let suggestions : list string := [] in
  norm ← _safe_expand_and_normalize environ fs broken_path;
  let p := Path norm in
  if negb (truthy (strip (path_str p))) then mret suggestions
  else
    let target_name := path_name p in
    let parent := path_parent p in
    existing_ancestor ← closest_existing fs (root p) (rparts p);
    let r :=
      match existing_ancestor with
      | Some ancestor =>
          match path_iterdir fs (path_str ancestor) with
          | inl _ => Fell suggestions
          | inr names =>
              suggest_children fs target_name limit ancestor (sorted names)
                suggestions
          end
      | None => Fell suggestions
      end in
    match r with
    | Returned l => mret l
    | Fell suggestions =>
        r ← (if bool_decide (target_name ∈ ["bin"; "sbin"])
             then suggest_nearby 4 fs limit parent suggestions
             else mret (Fell suggestions));
        match r with
        | Returned l => mret l
        | Fell suggestions => mret (slice_to suggestions limit)
        end
    end.

(** *** The fix session: state and effects

    The session runs in a state made of the process environment, the file
    system, the lines still to be read from standard input, the records
    handed to the logger, and the list object [current_parts], which
    [interactive_fix_broken_paths] creates and [_apply_fix_for_entry]
    updates in place.  Console output is not modelled. *)

Record state := {
  st_environ : gmap string string;
  st_fs : FS;
  st_stdin : list string;
  st_log : list log_record;
  st_parts : list string;
}.

Definition set_environ (st : state) (v : gmap string string) : state :=
  {| st_environ := v; st_fs := st_fs st; st_stdin := st_stdin st;
     st_log := st_log st; st_parts := st_parts st |}.
Definition set_fs (st : state) (v : FS) : state :=
  {| st_environ := st_environ st; st_fs := v; st_stdin := st_stdin st;
     st_log := st_log st; st_parts := st_parts st |}.
Definition set_stdin (st : state) (v : list string) : state :=
  {| st_environ := st_environ st; st_fs := st_fs st; st_stdin := v;
     st_log := st_log st; st_parts := st_parts st |}.
Definition set_log (st : state) (v : list log_record) : state :=
  {| st_environ := st_environ st; st_fs := st_fs st; st_stdin := st_stdin st;
     st_log := v; st_parts := st_parts st |}.
Definition set_parts (st : state) (v : list string) : state :=
  {| st_environ := st_environ st; st_fs := st_fs st; st_stdin := st_stdin st;
     st_log := st_log st; st_parts := v |}.

(** A statement sequence: it returns or raises, and keeps the state it
    reached either way. *)
Definition M (A : Type) : Type := state → result A * state.

#[global] Instance M_ret : MRet M := λ A x st, (inr x, st).
#[global] Instance M_bind : MBind M :=
  λ A B f m st,
    match m st with
    | (inl ex, st') => (inl ex, st')
    | (inr x, st') => f x st'
    end.

(** [try: body  finally: final]. *)
Definition try_finally {A : Type} (body : M A) (final : M unit) : M A :=
  λ st,
    let '(r, st1) := body st in
    match final st1 with
    | (inl ex, st2) => (inl ex, st2)
    | (inr _, st2) => (r, st2)
    end.

(** [try: body  except Exception as ex: handler(ex)]; what [body] did
    to the state before it raised stays done. *)
Definition try_except_M {A : Type} (body : M A) (handler : exn → M A) : M A :=
  λ st,
    match body st with
    | (inl ex, st1) => handler ex st1
    | (inr x, st1) => (inr x, st1)
    end.

(** A computation that only reads the environment and the file system. *)
Definition query {A : Type} (f : gmap string string → FS → result A) : M A :=
  λ st, (f (st_environ st) (st_fs st), st).

Definition EOFError : exn := Exn "EOFError" "EOF when reading a line".

(** [input(prompt)]. *)
Definition input : M string :=
  λ st,
    match st_stdin st with
    | [] => (raise EOFError, st)
    | line :: rest => (inr line, set_stdin st rest)
    end.

Definition logger_log (lv : log_level) (fmt : string) (a : list log_arg)
  : M unit :=
  λ st, (inr (),
         set_log st (st_log st ++
                     [ {| levelname := lv; msg := fmt; args := a |} ])).

Definition logger_info := logger_log INFO.
Definition logger_error := logger_log ERROR.

(** [os.environ["PATH"] = value]. *)
Definition environ_set_PATH (value : string) : M unit :=
  λ st, (inr (), set_environ st (<["PATH" := value]> (st_environ st))).

Definition get_parts : M (list string) := λ st, (inr (st_parts st), st).
Definition put_parts (v : list string) : M unit :=
  λ st, (inr (), set_parts st v).

(** [p.mkdir(parents=True, exist_ok=True)]. *)
Definition mkdir (p : PurePath) : M unit :=
  λ st,
    let '(r, fs') := path_mkdir (st_fs st) (path_str p) in
    (r, set_fs st fs').

(** *** The fix session: the nested helpers *)

Definition rebuild_path (parts : list string) : string :=
  let cleaned := List.filter truthy parts in
  join os_pathsep cleaned.

Definition reanalyze_with (path_value : string) : M (string * list Entry) :=
  old ← query (λ environ _, mret (environ_get_PATH environ));
  try_finally
    (environ_set_PATH path_value;;
     r ← query analyze_path;
     let '(new_raw, new_entries, _) := r in
     mret (new_raw, new_entries))
    (environ_set_PATH old).

(** The block of [main] that recomputes the grouping for the final report
    (the [try]/[finally] after the call to
    [interactive_fix_broken_paths]). *)
Definition main_regroup (raw_path : string)
  : M (list (string * list Entry)) :=
  old ← query (λ environ _, mret (environ_get_PATH environ));
  try_finally
    (environ_set_PATH raw_path;;
     r ← query analyze_path;
     let '(_, _, grouped) := r in
     mret grouped)
    (environ_set_PATH old).

(** *** Applying one fix *)

(** The prompt loop of action 3, by recursion on the lines still to be
    read; every turn reads at least one. *)
Fixpoint replace_manual (e : Entry) (i0 : nat) (lines : list string)
    (st : state) : result unit * state :=
  match lines with
  | [] => (raise EOFError, st)
  | line :: lines1 =>
      let st := set_stdin st lines1 in
      let typed := strip line in
      if String.eqb (lower typed) "b" then (inr (), st)
      else if negb (truthy typed) then replace_manual e i0 lines1 st
      else
        match _safe_expand_and_normalize (st_environ st) (st_fs st) typed with
        | inl ex => (inl ex, st)
        | inr norm =>
            let p := Path norm in
            match exists_and_is_dir (st_fs st) (path_str p) with
            | inl ex => (inl ex, st)
            | inr true =>
                (logger_info "#%02d REPLACE(manual) | from=%s | to=%s"
                   [ArgInt (index e); ArgStr (normalized e); ArgStr norm];;
                 parts ← get_parts;
                 put_parts (<[i0 := typed]> parts)) st
            | inr false =>
                match lines1 with
                | [] => (raise EOFError, st)
                | answer :: lines2 =>
                    let st := set_stdin st lines2 in
                    let yn := lower (strip answer) in
                    if String.eqb yn "y" then
                      (* the [try] block ends in [return]; the handler
                         falls through to the next turn of the loop *)
                      match try_except_M
                              (mkdir p;;
                               logger_info
                                 "#%02d REPLACE+MKDIR(manual) | from=%s | to=%s"
                                 [ArgInt (index e); ArgStr (normalized e);
                                  ArgStr norm];;
                               parts ← get_parts;
                               put_parts (<[i0 := typed]> parts);;
                               mret true)
                              (λ ex,
                                 logger_error
                                   "#%02d MKDIR FAILED | target=%s | error=%s"
                                   [ArgInt (index e); ArgStr norm; ArgExn ex];;
                                 mret false) st with
                      | (inl ex, st) => (inl ex, st)
                      | (inr true, st) => (inr (), st)
                      | (inr false, st) => replace_manual e i0 lines2 st
                      end
                    else replace_manual e i0 lines2 st
                end
            end
        end
  end.

Definition replace_from_suggestions (e : Entry) (i0 : nat)
    (alts : list string) : M unit :=
  match alts with
  | [] => logger_info "#%02d SUGGESTION_NONE | %s"
            [ArgInt (index e); ArgStr (normalized e)]
  | _ =>
      line ← input;
      let pick := lower (strip line) in
      if String.eqb pick "b" then mret ()
      else if isdigit pick && (1 <=? int pick)%nat
              && (int pick <=? length alts)%nat
      then
        match alts !! (int pick - 1)%nat with
        | None => mret ()
        | Some chosen =>
            ok ← query (λ _ fs, exists_and_is_dir fs (path_str (Path chosen)));
            if ok : bool then
              logger_info "#%02d REPLACE(suggested) | from=%s | to=%s"
                [ArgInt (index e); ArgStr (normalized e); ArgStr chosen];;
              parts ← get_parts;
              put_parts (<[i0 := chosen]> parts)
            else
              logger_info "#%02d SUGGESTED_INVALID | chosen=%s"
                [ArgInt (index e); ArgStr chosen]
        end
      else mret ()
  end.

Definition create_directory (e : Entry) (i0 : nat) : M unit :=
  target ← query (λ environ fs, _safe_expand_and_normalize environ fs (raw e));
  let p := Path target in
  try_except_M
    (mkdir p;;
     logger_info "#%02d MKDIR | created=%s" [ArgInt (index e); ArgStr target];;
     parts ← get_parts;
     put_parts (<[i0 := raw e]> parts))
    (λ ex,
       logger_error "#%02d MKDIR FAILED | target=%s | error=%s"
         [ArgInt (index e); ArgStr target; ArgExn ex]).

Definition _apply_fix_for_entry (e : Entry) : M unit :=
  parts ← get_parts;
  (* [i0 = e.index - 1]; [i0 < 0] exactly when the index is 0 *)
  let i0 := (index e - 1)%nat in
  if (index e =? 0)%nat || (length parts <=? i0)%nat then
    logger_error "Index mismatch for entry #%02d" [ArgInt (index e)]
  else
    alts ← query (λ environ fs, suggest_alternatives environ fs (raw e) 8);
    line ← input;
    let action := lower (strip line) in
    if String.eqb action "b" then mret ()
    else if negb (bool_decide (action ∈ ["1"; "2"; "3"; "4"; "5"])) then
      mret ()
    else if String.eqb action "1" then
      logger_info "#%02d KEEP | %s" [ArgInt (index e); ArgStr (normalized e)]
    else if String.eqb action "2" then
      logger_info "#%02d REMOVE | %s"
        [ArgInt (index e); ArgStr (normalized e)];;
      parts ← get_parts;
      put_parts (delete i0 parts)
    else if String.eqb action "3" then
      λ st, replace_manual e i0 (st_stdin st) st
    else if String.eqb action "4" then replace_from_suggestions e i0 alts
    else create_directory e i0.

(** *** The session loop

    The two [while True] loops run on fuel: a turn that reads no line
    (an entry whose index falls outside [parts] in guided mode) can repeat
    for ever.  [None] is a loop still running when the fuel is spent. *)

(** [[e for e in entries if (not e.exists or not e.is_dir)]]. *)
Definition broken_entries (entries : list Entry) : list Entry :=
  List.filter is_broken entries.

(** [next((x for x in entries if x.index == target_idx), None)]. *)
Definition entry_with_index (entries : list Entry) (target_idx : nat)
  : option Entry :=
  List.find (λ x, (index x =? target_idx)%nat) entries.

(** The guided loop of command [a]; it returns the last value assigned to
    [cmd]. *)
Fixpoint guided_fix_all (fuel : nat) (cmd : string) : M (option string) :=
  match fuel with
  | 0 => mret None
  | S fuel' =>
      parts ← get_parts;
      r ← reanalyze_with (rebuild_path parts);
      let '(current_raw, current_entries) := r in
      match broken_entries current_entries with
      | [] => mret (Some cmd)
      | target_entry :: _ =>
          let cmd := str_of_nat (index target_entry) in
          if negb (isdigit cmd) then mret (Some cmd)
          else
            let target_idx := int cmd in
            match entry_with_index current_entries target_idx with
            | None => mret (Some cmd)
            | Some e => _apply_fix_for_entry e;; guided_fix_all fuel' cmd
            end
      end
  end.

Fixpoint fix_loop (fuel : nat) : M (option unit) :=
  match fuel with
  | 0 => mret None
  | S fuel' =>
      line ← input;
      let cmd := lower (strip line) in
      if String.eqb cmd "q" then
        logger_info "Fix session quit by user" [];;
        mret (Some ())
      else if String.eqb cmd "p" then
        parts ← get_parts;
        let proposed := rebuild_path parts in
        _ ← reanalyze_with proposed;
        logger_info "Preview requested" [];;
        fix_loop fuel'
      else
        r ← (if String.eqb cmd "a" then guided_fix_all fuel' cmd
             else mret (Some cmd));
        match r with
        | None => mret None
        | Some cmd =>
            if negb (isdigit cmd) then fix_loop fuel'
            else
              let target_idx := int cmd in
              parts ← get_parts;
              r ← reanalyze_with (rebuild_path parts);
              let '(current_raw, current_entries) := r in
              match entry_with_index current_entries target_idx with
              | None => fix_loop fuel'
              | Some e =>
                  if exists_ e && is_dir e then fix_loop fuel'
                  else
                    _apply_fix_for_entry e;;
                    parts ← get_parts;
                    _ ← reanalyze_with (rebuild_path parts);
                    fix_loop fuel'
              end
        end
  end.

(** The parts the session starts from:
    [[p for p in (raw_path.split(os.pathsep) if raw_path else []) if p]]. *)
Definition initial_parts (raw_path : string) : list string :=
  List.filter truthy (split_path raw_path).

Definition interactive_fix_broken_paths (fuel : nat) (raw_path : string)
    (entries : list Entry) : M (option (string * list Entry)) :=
  put_parts (initial_parts raw_path);;
  match broken_entries entries with
  | [] => mret (Some (raw_path, entries))
  | _ =>
      logger_info "Starting interactive fix session" [];;
      logger_info "Original PATH: %s" [ArgStr raw_path];;
      parts ← get_parts;
      _ ← reanalyze_with (rebuild_path parts);
      r ← fix_loop fuel;
      match r with
      | None => mret None
      | Some _ =>
          parts ← get_parts;
          let proposed := rebuild_path parts in
          logger_info "Interactive fix session complete" [];;
          logger_info "Proposed PATH: %s" [ArgStr proposed];;
          r ← reanalyze_with proposed;
          mret (Some r)
      end
  end.

(** *** The entry point

    [main] with what it reads from the process: [sys.argv], the resolved
    path of the script, [sys.version] and the name of the log file that
    [setup_logger] chose.  It returns the last [raw_path], [entries] and
    [grouped] it reported, and the object printed for [--json]. *)

Definition main (fuel : nat) (argv : list string)
    (script_file sys_version path_log_file : string)
  : M (option (string * list Entry * list (string * list Entry)
               * option json_data)) :=
  let want_json := bool_decide ("--json" ∈ argv) in
  let force_fix := bool_decide ("--fix" ∈ argv) in
  r ← query analyze_path;
  let '(raw_path, entries, grouped) := r in
  logger_info "PATH Inspector run started" [];;
  logger_info "Script: %s" [ArgStr script_file];;
  logger_info "Python: %s" [ArgStr (replace (ascii_of_nat 10) " " sys_version)];;
  logger_info "Entries=%d" [ArgInt (length entries)];;
  let broken := List.filter is_broken entries in
  let dups := List.filter is_duplicate entries in
  let shadowed := List.filter is_shadowed entries in
  logger_info "Broken=%d Duplicates=%d Shadowed=%d"
    [ArgInt (length broken); ArgInt (length dups); ArgInt (length shadowed)];;
  want_fix ← match broken with
             | [] => mret false
             | _ =>
                 if force_fix then mret true
                 else
                   line ← input;
                   let resp := lower (strip line) in
                   mret (String.eqb resp "y")
             end;
  r ← (if want_fix : bool then
         r ← interactive_fix_broken_paths fuel raw_path entries;
         match r with
         | None => mret None
         | Some (raw_path, entries) =>
             grouped ← main_regroup raw_path;
             mret (Some (raw_path, entries, grouped))
         end
       else mret (Some (raw_path, entries, grouped)));
  match r with
  | None => mret None
  | Some (raw_path, entries, grouped) =>
      let data :=
        if want_json then Some (make_json raw_path entries path_log_file)
        else None in
      logger_info "PATH Inspector run finished" [];;
      mret (Some (raw_path, entries, grouped, data))
  end.

End WithOS.

End Paths.

(** ** A small concrete platform

    Directories are a list of absolute paths; [mkdir] fails below the
    [locked] prefixes and [stat] fails on the [unreadable] paths.  There
    are no symbolic links and no environment variables, and [~user] has no
    home. *)

Module Posix.

Import Py.

Record fs := { dirs : list string; locked : list string;
               unreadable : list string }.

Definition mem (x : string) (l : list string) : bool := bool_decide (x ∈ l).

(** [posixpath.normpath]. *)
Definition normpath_step (initial_slashes : nat) (new_comps : list string)
    (comp : string) : list string :=
  if String.eqb comp "" || String.eqb comp "." then new_comps
  else if negb (String.eqb comp "..")
          || ((initial_slashes =? 0)%nat && bool_decide (new_comps = []))
          || (match last new_comps with
              | Some c => String.eqb c ".."
              | None => false
              end)
  then new_comps ++ [comp]
  else removelast new_comps.

Definition posix_normpath (path : string) : string :=
  if negb (truthy path) then "."
  else
    let initial_slashes :=
      if startswith path "/" then
        if startswith path "//" && negb (startswith path "///") then 2 else 1
      else 0 in
    let comps := foldl (normpath_step initial_slashes) [] (split "/" path) in
    let path := join "/" comps in
    let path := String.concat "" (replicate initial_slashes "/") +:+ path in
    if truthy path then path else ".".

Definition expand (environ : gmap string string) (p : string)
  : result string :=
  if startswith p "~" then
    raise (Exn "RuntimeError" "Could not determine home directory.")
  else mret (Paths.path_str (Paths.Path p)).

Definition stat (f : fs) (p : string) : result bool :=
  if mem p (unreadable f) then
    raise (Exn "PermissionError" ("[Errno 13] Permission denied: '" +:+ p +:+ "'"))
  else mret (mem p (dirs f)).

(** The names [n] with [p/n] a directory. *)
Definition listdir (f : fs) (p : string) : result (list string) :=
  if mem p (dirs f) then
    mret (omap (λ d, match strip_prefix (rstrip "/" p +:+ "/") d with
                     | Some n => if truthy n && negb (contains "/" n)
                                 then Some n else None
                     | None => None
                     end) (dirs f))
  else raise (Exn "FileNotFoundError" ("[Errno 2] No such file or directory: '" +:+ p +:+ "'")).

(** [p] and the directories above it. *)
Fixpoint upwards (anchor : string) (rp : list string) : list string :=
  Paths.path_str {| Paths.root := anchor; Paths.rparts := rp |} ::
  match rp with
  | [] => []
  | _ :: up => upwards anchor up
  end.

Definition mkdir_p (f : fs) (p : string) : result unit * fs :=
  if existsb (λ l, startswith p l) (locked f) then
    (raise (Exn "PermissionError" ("[Errno 13] Permission denied: '" +:+ p +:+ "'")), f)
  else
    (mret (), {| dirs := dirs f ++
                         List.filter (λ d, negb (mem d (dirs f)))
                           (rev (upwards (Paths.root (Paths.Path p))
                                         (Paths.rparts (Paths.Path p))));
                 locked := locked f; unreadable := unreadable f |}).

#[global] Instance os : OS := {|
  FS := fs;
  HOME := "/Users/dave";
  expanduser_vars := expand;
  normpath := posix_normpath;
  path_exists := stat;
  path_is_dir := stat;
  path_resolve := λ _ p, mret p;
  path_iterdir := listdir;
  path_mkdir := mkdir_p;
|}.

End Posix.

(** ** Ancestor directories

    The segments of a path are what lies between its separators.  A
    directory [a] is a strict ancestor of [b] when the two differ and the
    segments of [a], its trailing separators aside, are a proper prefix of
    the segments of [b]: the match ends on a segment boundary of [b]. *)

Definition segments (s : string) : list string := Py.split Py.os_sep s.

Definition strict_ancestor_dir (a b : string) : Prop :=
  a ≠ b ∧
  ∃ rest, rest ≠ [] ∧ segments b = segments (Py.rstrip Py.os_sep a) ++ rest.

(** Among the entries before [e] that are strict ancestors of it, the one
    closest to [e] in snapshot order, and the one farthest from it. *)
Definition prior_ancestor (entries : list Paths.Entry) (e ea : Paths.Entry)
  : Prop :=
  ea ∈ entries ∧ Paths.index ea < Paths.index e ∧
  strict_ancestor_dir (Paths.normalized ea) (Paths.normalized e).

Definition nearest_prior_ancestor (entries : list Paths.Entry)
    (e : Paths.Entry) (k : nat) : Prop :=
  ∃ ek, prior_ancestor entries e ek ∧ Paths.index ek = k ∧
        ∀ ea, prior_ancestor entries e ea → Paths.index ea ≤ k.

Definition first_prior_ancestor (entries : list Paths.Entry)
    (e : Paths.Entry) (k : nat) : Prop :=
  ∃ ek, prior_ancestor entries e ek ∧ Paths.index ek = k ∧
        ∀ ea, prior_ancestor entries e ea → k ≤ Paths.index ea.

(** ** The classifier as an ordered rule table

    The reading of [classify] that the specification gives: a list of
    rules tried in order, the first that applies giving the result.  The
    Homebrew rule is written twice: as the specification words it (the
    path has a [Cellar] component), and as the code tests it (the text
    [/Cellar/] occurs in the path, or [/cellar/] in its lower-cased
    form). *)

Module Rules.

Import Py Paths.

Definition rule : Type := string → option (string * string).

(** A path that starts with one of the prefixes. *)
Definition rule_prefix (prefixes : list string) (r : string * string) : rule :=
  λ p, if startswith_any p prefixes then Some r else None.

(** The path has a component of that name: one of the pieces between
    its separators. *)
Definition has_component (name p : string) : bool :=
  bool_decide (name ∈ split os_sep p).

(** A package-manager prefix, with the reason chosen by [cellar]. *)
Definition rule_brew_by (cellar : string → bool) : rule :=
  λ p,
    if startswith_any p BREW_PREFIXES then
      Some ("Homebrew", if cellar p then "brew cellar" else "brew prefix")
    else None.

(** The rule in the words of the specification: the reason is
    ['brew cellar'] when the path contains a [Cellar] component. *)
Definition rule_brew : rule := rule_brew_by (has_component "Cellar").

(** The text [/Cellar/] occurs in the path, or [/cellar/] in its
    lower-cased form: a [Cellar] directory that the path goes through,
    in any spelling of its letters. *)
Definition through_cellar (p : string) : bool :=
  contains "/Cellar/" p || contains "/cellar/" (lower p).

(** The rule with that test. *)
Definition rule_brew_through : rule := rule_brew_by through_cellar.

(** One keyword bucket: the first keyword of the bucket found in the
    lower-cased path; a bucket whose first hit is the empty string is
    passed over. *)
Definition rule_bucket (bucket : string * list string) : rule :=
  λ p,
    match List.find (λ n, contains (lower n) (lower p)) bucket.2 with
    | Some hit =>
        if truthy hit then Some (bucket.1, "matched '" +:+ hit +:+ "'")
        else None
    | None => None
    end.

(** A regular expression searched in the lower-cased path. *)
Definition rule_regex (here : string → bool) (r : string * string) : rule :=
  λ p, if re_search here (lower p) then Some r else None.

(** The rule table, for a given Homebrew rule. *)
Definition classify_rules_with (brew : rule) (home : string) : list rule :=
  [ rule_prefix SYSTEM_PREFIXES ("System", "system prefix");
    rule_prefix DEV_PREFIXES
      ("Apple / Xcode / Developer", "developer tools prefix");
    brew ]
  ++ (rule_bucket <$> KEYWORD_BUCKETS home)
  ++ [ rule_regex re_node_here ("Node.js", "node versioned path");
       rule_regex re_python_here ("Python", "python versioned path") ].

Fixpoint first_match (rules : list rule) (p : string)
  : option (string * string) :=
  match rules with
  | [] => None
  | r :: rules' =>
      match r p with
      | Some x => Some x
      | None => first_match rules' p
      end
  end.

Definition classify_with (brew : rule) (home : string) (p : string)
  : string * string :=
  default ("Other / Unknown", "no match")
    (first_match (classify_rules_with brew home) p).

(** The classifier of the specification, and the one with the Homebrew
    reason tested as the code tests it. *)
Definition classify_spec : string → string → string * string :=
  classify_with rule_brew.

Definition classify_through : string → string → string * string :=
  classify_with rule_brew_through.

End Rules.

(** ** Concrete runs *)

Module Scenario.

Import Paths.

Definition environ_of (path : string) : gmap string string :=
  {[ "PATH" := path; "HOME" := "/Users/dave" ]}.

(** A small machine: a few system directories and one tool tree. *)
Definition disk : Posix.fs :=
  {| Posix.dirs := ["/"; "/usr"; "/usr/bin"; "/usr/local"; "/usr/local/bin";
                    "/opt"; "/opt/toolX"; "/opt/toolX/1.2.1";
                    "/opt/toolX/1.3"; "/opt/toolX/1.3/bin"];
     Posix.locked := ["/proc"];
     Posix.unreadable := ["/root/bin"] |}.

(** The entries of a successful analysis, [[]] when it raises. *)
Definition entries_of (path : string) : list Entry :=
  match analyze_path (environ_of path) disk with
  | inr (_, entries, _) => entries
  | inl _ => []
  end.

Definition state_of (path : string) (parts lines : list string) : state :=
  {| st_environ := environ_of path; st_fs := disk; st_stdin := lines;
     st_log := []; st_parts := parts |}.

(** A whole fix session on [disk], started as [main] starts it: from the
    PATH of the environment and its analysis, with the given lines on
    standard input. *)
Definition session (path : string) (lines : list string)
  : result (option (string * list Entry)) * state :=
  interactive_fix_broken_paths (S (length lines)) path (entries_of path)
    (state_of path [] lines).

End Scenario.

(** ** Plain segments

    A segment that is not empty and does not itself contain the path
    separator: what splitting a PATH string on the separator gives,
    empty pieces aside. *)

Definition plain_segment (s : string) : Prop :=
  s ≠ "" ∧ Py.contains (Py.str1 Py.os_pathsep) s = false.

(** * Properties *)

(** ** Facts about the string primitives *)

Section PyFacts.
Import Py.

Lemma strip_prefix_Some p s r : strip_prefix p s = Some r ↔ s = p +:+ r.
Proof.
  revert s. induction p as [|a p IH]; intros s; simpl.
  - split; [by intros [= ->] | by intros ->].
  - destruct s as [|b s]; [split; [done | by intros [=]] |].
    destruct (Ascii.eqb_spec a b) as [->|Hne].
    + rewrite IH. split; [by intros -> | by intros [= ->]].
    + split; [done | intros [= ? ?]; congruence].
Qed.

Lemma startswith_true s p : startswith s p = true ↔ ∃ r, s = p +:+ r.
Proof.
  unfold startswith. destruct (strip_prefix p s) as [r|] eqn:E.
  - apply strip_prefix_Some in E. split; eauto.
  - split; [done | intros [r Hr]]. apply strip_prefix_Some in Hr. congruence.
Qed.

Lemma split_nonempty sep s : split sep s ≠ [].
Proof.
  destruct s as [|c s]; simpl; [done |].
  destruct (Ascii.eqb c sep); [done |]. by destruct (split sep s).
Qed.

Lemma app_cons_str x (a b : string) : String x a +:+ b = String x (a +:+ b).
Proof. reflexivity. Qed.

Lemma app_assoc_str (a b c : string) : (a +:+ b) +:+ c = a +:+ (b +:+ c).
Proof.
  induction a as [|x a IH]; [done |]. rewrite !app_cons_str. by f_equal.
Qed.

Lemma app_nil_r_str (a : string) : a +:+ "" = a.
Proof. induction a as [|x a IH]; [done |]. rewrite app_cons_str. by f_equal. Qed.

(** Splitting distributes over a separator between two strings. *)
Lemma split_app_sep sep x t :
  split sep (x +:+ String sep t) = split sep x ++ split sep t.
Proof.
  induction x as [|c x IH]; simpl.
  - by rewrite Ascii.eqb_refl.
  - rewrite IH. destruct (Ascii.eqb c sep); [done |].
    pose proof (split_nonempty sep x). by destruct (split sep x).
Qed.

Lemma join_cons sep x l :
  l ≠ [] → join sep (x :: l) = x +:+ String sep (join sep l).
Proof. unfold join. destruct l; [done | intros _; reflexivity]. Qed.

Lemma join_split sep s : join sep (split sep s) = s.
Proof.
  induction s as [|c s IH]; simpl; [done |].
  destruct (Ascii.eqb_spec c sep) as [->|Hne].
  - rewrite join_cons by apply split_nonempty. by rewrite IH.
  - pose proof (split_nonempty sep s) as Hn.
    destruct (split sep s) as [|x xs] eqn:E; [done |].
    destruct xs as [|y ys]; simpl in *.
    + by rewrite <- IH.
    + rewrite <- IH. reflexivity.
Qed.

Lemma join_app sep l1 l2 :
  l1 ≠ [] → l2 ≠ [] →
  join sep (l1 ++ l2) = join sep l1 +:+ String sep (join sep l2).
Proof.
  intros H1 H2. induction l1 as [|x l1 IH]; [done |].
  destruct l1 as [|y l1].
  - simpl. by rewrite join_cons.
  - change ((x :: y :: l1) ++ l2) with (x :: ((y :: l1) ++ l2)).
    rewrite join_cons by done. rewrite IH by done.
    rewrite (join_cons sep x (y :: l1)) by done.
    by rewrite app_assoc_str.
Qed.

(** A string without the separator is one segment. *)
Definition sep_free (sep : ascii) (s : string) : Prop :=
  contains (str1 sep) s = false.

Lemma contains_str1_cons sep c s :
  contains (str1 sep) (String c s) = Ascii.eqb sep c || contains (str1 sep) s.
Proof.
  simpl. unfold startswith at 1. simpl.
  destruct (Ascii.eqb sep c); [done |]. reflexivity.
Qed.

Lemma contains_str1_nil sep : contains (str1 sep) "" = false.
Proof. reflexivity. Qed.

Lemma split_sep_free sep s : sep_free sep s → split sep s = [s].
Proof.
  unfold sep_free. induction s as [|c s IH]; [done |].
  rewrite contains_str1_cons. intros [Hc Hs]%orb_false_iff.
  simpl. rewrite Ascii.eqb_sym, Hc. by rewrite IH.
Qed.

Lemma split_sep_free_app sep x t :
  sep_free sep x → split sep (x +:+ String sep t) = x :: split sep t.
Proof. intros Hx. by rewrite split_app_sep, split_sep_free. Qed.

Lemma truthy_true s : truthy s = true ↔ s ≠ "".
Proof. by destruct s. Qed.

Lemma truthy_app_l a b : truthy a = true → truthy (a +:+ b) = true.
Proof. by destruct a. Qed.

End PyFacts.

(** ** The snapshot builder: duplicates *)

Section Snapshot.
Context `{os : OS}.
Import Py Paths.

(** What the loop of [analyze_path] keeps true of [seen] and [entries]. *)
Record analyze_inv (seen : gmap string nat) (entries : list Entry) : Prop := {
  inv_index : ∀ i e, entries !! i = Some e → index e = S i;
  inv_shadow : ∀ i e, entries !! i = Some e → shadowed_by e = None;
  inv_seen : ∀ s k, seen !! s = Some k →
    ∃ ek, entries !! (k - 1) = Some ek ∧ 1 ≤ k ∧ normalized ek = s ∧
          duplicate_of ek = None ∧
          ∀ i e, entries !! i = Some e → normalized e = s → k ≤ S i;
  inv_dup : ∀ i e, entries !! i = Some e →
    ∃ k, seen !! normalized e = Some k ∧
         match duplicate_of e with
         | None => k = S i
         | Some k' => k' = k ∧ k < S i
         end;
}.

Lemma analyze_inv_empty : analyze_inv ∅ [].
Proof. split; intros *; by rewrite ?lookup_nil, ?lookup_empty. Qed.

Lemma analyze_inv_fresh seen entries e :
  analyze_inv seen entries →
  index e = S (length entries) → shadowed_by e = None →
  duplicate_of e = None → seen !! normalized e = None →
  analyze_inv (<[normalized e := index e]> seen) (entries ++ [e]).
Proof.
  intros [Hi Hs Hseen Hdup] Hidx Hsh Hd Hnone. split.
  - intros i e' [[_ H]|[-> <-]]%lookup_snoc_Some; [by eapply Hi | lia].
  - intros i e' [[_ H]|[-> <-]]%lookup_snoc_Some; [by eapply Hs | done].
  - intros s k. destruct (decide (s = normalized e)) as [->|Hne].
    + rewrite lookup_insert_eq. intros [= <-]. exists e.
      rewrite Hidx. replace (S (length entries) - 1) with (length entries) by lia.
      split; [by apply list_lookup_middle |]. repeat split; [lia | done |].
      intros i e' [[_ H]|[-> <-]]%lookup_snoc_Some; [| lia].
      intros Hn. destruct (Hdup _ _ H) as (k & Hk & _). congruence.
    + rewrite lookup_insert_ne by done. intros Hk.
      destruct (Hseen _ _ Hk) as (ek & Hek & H1 & Hn & Hdk & Hfirst).
      exists ek. split; [by apply lookup_app_l_Some |]. repeat split; try done.
      intros i e' [[_ H]|[-> <-]]%lookup_snoc_Some; [by eauto | congruence].
  - intros i e' [[_ H]|[-> <-]]%lookup_snoc_Some.
    + destruct (Hdup _ _ H) as (k & Hk & Hm). exists k. split; [| done].
      rewrite lookup_insert_ne; [done |]. intros Heq. congruence.
    + exists (index e). rewrite lookup_insert_eq, Hd. split; [done | lia].
Qed.

Lemma analyze_inv_dup seen entries e k :
  analyze_inv seen entries →
  index e = S (length entries) → shadowed_by e = None →
  duplicate_of e = Some k → seen !! normalized e = Some k →
  analyze_inv seen (entries ++ [e]).
Proof.
  intros [Hi Hs Hseen Hdup] Hidx Hsh Hd Hk. split.
  - intros i e' [[_ H]|[-> <-]]%lookup_snoc_Some; [by eapply Hi | lia].
  - intros i e' [[_ H]|[-> <-]]%lookup_snoc_Some; [by eapply Hs | done].
  - intros s k' Hk'.
    destruct (Hseen _ _ Hk') as (ek & Hek & H1 & Hn & Hdk & Hfirst).
    exists ek. split; [by apply lookup_app_l_Some |]. repeat split; try done.
    intros i e' [[_ H]|[-> <-]]%lookup_snoc_Some; [by eauto |].
    intros _. apply lookup_lt_Some in Hek. lia.
  - intros i e' [[_ H]|[-> <-]]%lookup_snoc_Some; [by eauto |].
    exists k. rewrite Hd. repeat split; [done |].
    destruct (Hseen _ _ Hk) as (ek & Hek & ? & _). apply lookup_lt_Some in Hek. lia.
Qed.

Lemma analyze_entries_inv environ fs parts idx seen entries out :
  analyze_inv seen entries → idx = S (length entries) →
  analyze_entries environ fs parts idx seen entries = inr out →
  ∃ seen', analyze_inv seen' out.
Proof.
  revert idx seen entries.
  induction parts as [|raw parts IH]; intros idx seen entries Hinv Hidx; simpl.
  - intros [= <-]. eauto.
  - destruct (expanduser_vars environ raw) as [?|expanded]; simpl; [done |].
    destruct (normalize_dir environ fs raw) as [?|norm]; simpl; [done |].
    destruct (path_exists fs expanded) as [?|ex]; simpl; [done |].
    destruct (if ex then path_is_dir fs expanded else mret false)
      as [?|isd]; simpl; [done |].
    destruct (classify HOME norm) as [cat rsn].
    destruct (seen !! norm) as [k|] eqn:Hk.
    + apply IH; [| rewrite length_app; simpl; lia].
      by apply (analyze_inv_dup _ _ _ k).
    + apply IH; [| rewrite length_app; simpl; lia].
      set (e := {| index := idx; normalized := norm |}).
      by apply (analyze_inv_fresh seen entries e).
Qed.


(** [compute_shadowing] rewrites [shadowed_by] only. *)
Lemma compute_shadowing_lookup entries i e' :
  compute_shadowing entries !! i = Some e' →
  ∃ e, entries !! i = Some e ∧ index e' = index e ∧
       raw e' = raw e ∧ expanded e' = expanded e ∧
       normalized e' = normalized e ∧ exists_ e' = exists_ e ∧
       is_dir e' = is_dir e ∧ duplicate_of e' = duplicate_of e ∧
       shadowed_by e' =
         match shadow_scan (seq 0 i) (normalized <$> entries) entries e with
         | Some k => Some k
         | None => shadowed_by e
         end.
Proof.
  unfold compute_shadowing. rewrite list_lookup_imap.
  destruct (entries !! i) as [e|]; simpl; [| done].
  intros [= <-]. exists e. split; [done |].
  by destruct (shadow_scan _ _ _ _).
Qed.

Lemma compute_shadowing_lookup_inv entries i e :
  entries !! i = Some e →
  ∃ e', compute_shadowing entries !! i = Some e' ∧
        index e' = index e ∧ normalized e' = normalized e ∧
        duplicate_of e' = duplicate_of e.
Proof.
  intros H. unfold compute_shadowing. rewrite list_lookup_imap, H. simpl.
  eexists. split; [done |]. by destruct (shadow_scan _ _ _ _).
Qed.

(** A snapshot is the shadow pass run on entries that satisfy the
    invariant of the duplicate pass. *)
Lemma analyze_path_inv environ fs raw_path entries grouped :
  analyze_path environ fs = inr (raw_path, entries, grouped) →
  ∃ seen ents, analyze_inv seen ents ∧ entries = compute_shadowing ents.
Proof.
  unfold analyze_path.
  destruct (analyze_entries _ _ _ _ _ _) as [?|ents] eqn:E; simpl; [done |].
  intros [= _ <- _].
  destruct (analyze_entries_inv _ _ _ _ _ _ _ analyze_inv_empty eq_refl E)
    as [seen Hinv].
  eauto.
Qed.

(** Indices are the positions, counted from 1. *)
Lemma analyze_path_index environ fs raw_path entries grouped i e :
  analyze_path environ fs = inr (raw_path, entries, grouped) →
  entries !! i = Some e → index e = S i.
Proof.
  intros (seen & ents & Hinv & ->)%analyze_path_inv
    (e0 & He0 & Hi & _)%compute_shadowing_lookup.
  rewrite Hi. by eapply inv_index.
Qed.

End Snapshot.

(** C1: in every snapshot built by analyze_path, an entry with
    duplicate_of = k has k below its own index, the entry at index k has
    the same normalized value and no duplicate_of of its own, and k is the
    smallest index carrying that normalized value; and the first entry
    with a given normalized value has no duplicate_of. *)
Theorem snapshot_duplicate_of `{os : OS} environ fs raw_path entries grouped :
  Paths.analyze_path environ fs = inr (raw_path, entries, grouped) →
  (∀ e k, e ∈ entries → Paths.duplicate_of e = Some k →
     k < Paths.index e ∧
     ∃ ek, entries !! (k - 1) = Some ek ∧ Paths.index ek = k ∧
           Paths.normalized ek = Paths.normalized e ∧
           Paths.duplicate_of ek = None ∧
           ∀ e', e' ∈ entries →
                 Paths.normalized e' = Paths.normalized e →
                 k ≤ Paths.index e') ∧
  (∀ e, e ∈ entries →
     (∀ e', e' ∈ entries → Paths.normalized e' = Paths.normalized e →
            Paths.index e ≤ Paths.index e') →
     Paths.duplicate_of e = None).
Proof.
  intros (seen & ents & Hinv & ->)%analyze_path_inv.
  assert (Hpos : ∀ e, e ∈ Paths.compute_shadowing ents →
    ∃ i e0, ents !! i = Some e0 ∧ Paths.index e = S i ∧
            Paths.normalized e = Paths.normalized e0 ∧
            Paths.duplicate_of e = Paths.duplicate_of e0).
  { intros e [i Hi]%list_elem_of_lookup.
    destruct (compute_shadowing_lookup _ _ _ Hi)
      as (e0 & He0 & Hx & _ & _ & Hn & _ & _ & Hd & _).
    exists i, e0. rewrite Hx, (inv_index _ _ Hinv _ _ He0). eauto. }
  split.
  - intros e k (i & e0 & He0 & Hidx & Hn & Hd)%Hpos Hk.
    rewrite Hd in Hk.
    destruct (inv_dup _ _ Hinv _ _ He0) as (k0 & Hseen & Hm).
    rewrite Hk in Hm. destruct Hm as [<- Hlt].
    destruct (inv_seen _ _ Hinv _ _ Hseen)
      as (ek & Hek & H1 & Hnk & Hdk & Hfirst).
    split; [lia |].
    destruct (compute_shadowing_lookup_inv _ _ _ Hek)
      as (ek' & Hek' & Hx' & Hn' & Hd').
    exists ek'. split; [done |].
    rewrite Hx', (inv_index _ _ Hinv _ _ Hek), Hn', Hd', Hn.
    repeat split; [lia | done | done |].
    intros e' (j & e1 & He1 & Hidx1 & Hn1 & _)%Hpos Heq.
    rewrite Hidx1. eapply Hfirst; [done |]. congruence.
  - intros e He Hmin. pose proof He as (i & e0 & He0 & Hidx & Hn & Hd)%Hpos.
    rewrite Hd. destruct (Paths.duplicate_of e0) as [k|] eqn:Hk; [| done].
    exfalso.
    destruct (inv_dup _ _ Hinv _ _ He0) as (k0 & Hseen & Hm).
    rewrite Hk in Hm. destruct Hm as [<- Hlt].
    destruct (inv_seen _ _ Hinv _ _ Hseen) as (ek & Hek & H1 & Hnk & _).
    destruct (compute_shadowing_lookup_inv _ _ _ Hek)
      as (ek' & Hek' & Hx' & Hn' & _).
    assert (Paths.index e ≤ Paths.index ek') as Hle.
    { apply Hmin; [by eapply list_elem_of_lookup_2 | congruence]. }
    rewrite Hx', (inv_index _ _ Hinv _ _ Hek) in Hle. lia.
Qed.

Lemma snapshot_duplicate_of_witness :
  let path := "/usr/bin:/usr/bin:/nonexistent/toolbin" in
  let entries := Scenario.entries_of path in
  ∃ grouped e1 e2,
    Paths.analyze_path (Scenario.environ_of path) Scenario.disk
    = inr (path, entries, grouped) ∧
    entries !! 0 = Some e1 ∧ entries !! 1 = Some e2 ∧
    Paths.duplicate_of e2 = Some 1 ∧ 1 < Paths.index e2 ∧
    Paths.normalized e1 = Paths.normalized e2 ∧
    Paths.duplicate_of e1 = None.
Proof.
  intros path entries.
  assert (∃ grouped,
    Paths.analyze_path (Scenario.environ_of path) Scenario.disk
    = inr (path, entries, grouped)) as [grouped E]
    by (eexists; vm_compute; reflexivity).
  pose proof (snapshot_duplicate_of _ _ _ _ _ E) as [Hdup _].
  assert (∃ e2, entries !! 1 = Some e2 ∧ Paths.duplicate_of e2 = Some 1)
    as (e2 & H2 & Hd2) by (eexists; split; vm_compute; reflexivity).
  destruct (Hdup e2 1) as (Hlt & e1 & H1 & _ & Hn & Hd1 & _);
    [by eapply list_elem_of_lookup_2 | done |].
  exists grouped, e1, e2. repeat split; done.
Defined.

(** ** The snapshot builder: shadowing *)

Section Shadowing.
Context `{os : OS}.
Import Py Paths.

Lemma app_str1 a c r : (a +:+ str1 c) +:+ r = a +:+ String c r.
Proof. by rewrite app_assoc_str. Qed.

(** The test of [compute_shadowing] is the ancestor relation on
    segments. *)
Lemma shadow_test_spec a b :
  shadow_test a b = true ↔ strict_ancestor_dir a b.
Proof.
  unfold shadow_test, strict_ancestor_dir, segments.
  rewrite andb_true_iff, negb_true_iff, String.eqb_neq, startswith_true.
  split.
  - intros [Hne [r Hr]]. split; [congruence |].
    exists (split os_sep r). split; [apply split_nonempty |].
    by rewrite Hr, app_str1, split_app_sep.
  - intros [Hne (rest & Hrest & Hseg)]. split; [congruence |].
    exists (join os_sep rest). rewrite app_str1.
    rewrite <- (join_split os_sep b), Hseg.
    rewrite join_app by (done || apply split_nonempty).
    by rewrite join_split.
Qed.

Lemma shadow_test_irrefl a : shadow_test a a = false.
Proof. unfold shadow_test. by rewrite String.eqb_refl. Qed.

(** The scan stops at the first earlier entry that passes the test. *)
Lemma shadow_scan_spec entries e a n :
  a + n ≤ length entries →
  match shadow_scan (seq a n) (normalized <$> entries) entries e with
  | Some k =>
      ∃ j ej, a ≤ j < a + n ∧ entries !! j = Some ej ∧ k = index ej ∧
              shadow_test (normalized ej) (normalized e) = true ∧
              ∀ j' ej', a ≤ j' < j → entries !! j' = Some ej' →
                shadow_test (normalized ej') (normalized e) = false
  | None =>
      ∀ j ej, a ≤ j < a + n → entries !! j = Some ej →
        shadow_test (normalized ej) (normalized e) = false
  end.
Proof.
  revert a. induction n as [|n IH]; intros a Hlen; simpl.
  - intros; lia.
  - destruct (lookup_lt_is_Some_2 entries a) as [ea Hea]; [lia |].
    rewrite list_lookup_fmap, Hea. simpl.
    destruct (shadow_test (normalized ea) (normalized e)) eqn:Ht.
    + exists a, ea. repeat split; try done; try lia.
    + specialize (IH (S a) ltac:(lia)).
      destruct (shadow_scan _ _ _ _) as [k|].
      * destruct IH as (j & ej & Hj & Hej & -> & Htj & Hbefore).
        exists j, ej. repeat split; try done; try lia.
        intros j' ej' Hj' Hej'. destruct (decide (j' = a)) as [->|].
        -- congruence.
        -- apply (Hbefore j'); [lia | done].
      * intros j ej Hj Hej. destruct (decide (j = a)) as [->|].
        -- congruence.
        -- apply (IH j); [lia | done].
Qed.

(** What the shadow pass leaves in a snapshot, position by position. *)
Lemma snapshot_shadowed_by environ fs raw_path entries grouped i e :
  analyze_path environ fs = inr (raw_path, entries, grouped) →
  entries !! i = Some e →
  match shadowed_by e with
  | Some k =>
      ∃ j ej, j < i ∧ entries !! j = Some ej ∧ k = S j ∧ index ej = S j ∧
              shadow_test (normalized ej) (normalized e) = true ∧
              ∀ j' ej', j' < j → entries !! j' = Some ej' →
                shadow_test (normalized ej') (normalized e) = false
  | None =>
      ∀ j ej, j < i → entries !! j = Some ej →
        shadow_test (normalized ej) (normalized e) = false
  end.
Proof.
  intros (seen & ents & Hinv & ->)%analyze_path_inv Hi.
  destruct (compute_shadowing_lookup _ _ _ Hi)
    as (e0 & He0 & _ & _ & _ & Hn & _ & _ & _ & Hs).
  rewrite (inv_shadow _ _ Hinv _ _ He0) in Hs.
  pose proof (shadow_scan_spec ents e0 0 i
                ltac:(apply lookup_lt_Some in He0; lia)) as Hscan.
  rewrite Hn.
  assert (Hback : ∀ j ej', compute_shadowing ents !! j = Some ej' →
    ∃ ej, ents !! j = Some ej ∧ normalized ej' = normalized ej).
  { intros j ej' (ej & ? & _ & _ & _ & ? & _)%compute_shadowing_lookup.
    eauto. }
  destruct (shadow_scan _ _ _ _) as [k|]; rewrite Hs.
  - destruct Hscan as (j & ej & Hj & Hej & -> & Ht & Hbefore).
    destruct (compute_shadowing_lookup_inv _ _ _ Hej)
      as (ej' & Hej' & Hx & Hnj & _).
    exists j, ej'. rewrite Hx, Hnj, (inv_index _ _ Hinv _ _ Hej).
    repeat split; try done; try lia.
    intros j' ej2 Hj' (ej3 & Hej3 & ->)%Hback.
    apply (Hbefore j'); [lia | done].
  - intros j ej' Hj (ej & Hej & ->)%Hback. apply (Hscan j); [lia | done].
Qed.

End Shadowing.

(** C2: in every snapshot, an entry with shadowed_by = k has k below its
    own index and the entry at index k is a strict ancestor directory of
    it on segment boundaries, hence never equal to it; and an entry is
    never marked as shadowed by an entry with the same normalized value. *)
Theorem snapshot_shadowed_by_ancestor `{os : OS}
    environ fs raw_path entries grouped :
  Paths.analyze_path environ fs = inr (raw_path, entries, grouped) →
  (∀ e k, e ∈ entries → Paths.shadowed_by e = Some k →
     k < Paths.index e ∧
     ∃ ek, entries !! (k - 1) = Some ek ∧ Paths.index ek = k ∧
           strict_ancestor_dir (Paths.normalized ek) (Paths.normalized e) ∧
           Paths.normalized ek ≠ Paths.normalized e) ∧
  (∀ e ek, e ∈ entries → ek ∈ entries →
     Paths.normalized ek = Paths.normalized e →
     Paths.shadowed_by e ≠ Some (Paths.index ek)).
Proof.
  intros Hrun.
  assert (Hfirst : ∀ e k, e ∈ entries → Paths.shadowed_by e = Some k →
     k < Paths.index e ∧
     ∃ ek, entries !! (k - 1) = Some ek ∧ Paths.index ek = k ∧
           strict_ancestor_dir (Paths.normalized ek) (Paths.normalized e) ∧
           Paths.normalized ek ≠ Paths.normalized e).
  { intros e k [i Hi]%list_elem_of_lookup Hk.
    pose proof (snapshot_shadowed_by _ _ _ _ _ _ _ Hrun Hi) as H.
    rewrite Hk in H. destruct H as (j & ej & Hj & Hej & -> & Hx & Ht & _).
    rewrite (analyze_path_index _ _ _ _ _ _ _ Hrun Hi).
    split; [lia |]. exists ej.
    replace (S j - 1) with j by lia.
    apply shadow_test_spec in Ht. pose proof Ht as [Hne _].
    split; [done |]. split; [done |]. by split. }
  split; [done |].
  intros e ek He [j Hj]%list_elem_of_lookup Heq Hk.
  destruct (Hfirst _ _ He Hk) as (_ & ek' & Hek' & _ & _ & Hne).
  rewrite (analyze_path_index _ _ _ _ _ _ _ Hrun Hj) in Hek'.
  replace (S j - 1) with j in Hek' by lia. congruence.
Qed.

Lemma snapshot_shadowed_by_ancestor_witness :
  let path := "/usr:/usr/bin:/usr2" in
  let entries := Scenario.entries_of path in
  ∃ grouped e1 e2,
    Paths.analyze_path (Scenario.environ_of path) Scenario.disk
    = inr (path, entries, grouped) ∧
    entries !! 0 = Some e1 ∧ entries !! 1 = Some e2 ∧
    Paths.shadowed_by e2 = Some 1 ∧ 1 < Paths.index e2 ∧
    strict_ancestor_dir (Paths.normalized e1) (Paths.normalized e2).
Proof.
  intros path entries.
  assert (∃ grouped,
    Paths.analyze_path (Scenario.environ_of path) Scenario.disk
    = inr (path, entries, grouped)) as [grouped E]
    by (eexists; vm_compute; reflexivity).
  pose proof (snapshot_shadowed_by_ancestor _ _ _ _ _ E) as [Hsh _].
  assert (∃ e2, entries !! 1 = Some e2 ∧ Paths.shadowed_by e2 = Some 1)
    as (e2 & H2 & Hs2) by (eexists; split; vm_compute; reflexivity).
  destruct (Hsh e2 1) as (Hlt & e1 & H1 & _ & Hanc & _);
    [by eapply list_elem_of_lookup_2 | done |].
  exists grouped, e1, e2. do 5 (split; [done |]). exact Hanc.
Defined.

(** C3, as the code has it: an entry with at least one earlier strict
    ancestor is marked with the first of them in snapshot order, the one
    with the smallest index. *)
Theorem snapshot_shadowed_by_first `{os : OS}
    environ fs raw_path entries grouped e :
  Paths.analyze_path environ fs = inr (raw_path, entries, grouped) →
  e ∈ entries →
  (∃ ea, prior_ancestor entries e ea) →
  ∃ k, Paths.shadowed_by e = Some k ∧ first_prior_ancestor entries e k.
Proof.
  intros Hrun [i Hi]%list_elem_of_lookup (ea & [ja Hja]%list_elem_of_lookup
                                             & Hlt & Hanc).
  assert (Hidx : ∀ i e, entries !! i = Some e → Paths.index e = S i)
    by (intros; by eapply analyze_path_index).
  rewrite (Hidx _ _ Hi), (Hidx _ _ Hja) in Hlt.
  pose proof (snapshot_shadowed_by _ _ _ _ _ _ _ Hrun Hi) as H.
  destruct (Paths.shadowed_by e) as [k|].
  - destruct H as (j & ej & Hj & Hej & -> & Hx & Ht & Hbefore).
    exists (S j). split; [done |]. exists ej. split; [| split; [done |]].
    + split; [by eapply list_elem_of_lookup_2 |].
      rewrite Hx, (Hidx _ _ Hi). split; [lia | by apply shadow_test_spec].
    + intros eb ([jb Hjb]%list_elem_of_lookup & _ & Hb).
      rewrite (Hidx _ _ Hjb). apply shadow_test_spec in Hb.
      destruct (decide (jb < j)); [| lia].
      by rewrite (Hbefore jb eb) in Hb.
  - apply shadow_test_spec in Hanc. rewrite (H ja ea) in Hanc; [done | lia | done].
Qed.

Lemma snapshot_shadowed_by_first_witness :
  let path := "/a:/a/b:/a/b/c" in
  let entries := Scenario.entries_of path in
  ∃ e3, entries !! 2 = Some e3 ∧
        Paths.shadowed_by e3 = Some 1 ∧ first_prior_ancestor entries e3 1.
Proof.
  intros path entries.
  assert (∃ grouped,
    Paths.analyze_path (Scenario.environ_of path) Scenario.disk
    = inr (path, entries, grouped)) as [grouped E]
    by (eexists; vm_compute; reflexivity).
  assert (∃ e3 e2, entries !! 2 = Some e3 ∧ entries !! 1 = Some e2 ∧
                   Paths.shadowed_by e3 = Some 1)
    as (e3 & e2 & H3 & H2 & Hs3)
    by (do 2 eexists; repeat split; vm_compute; reflexivity).
  destruct (snapshot_shadowed_by_first _ _ _ _ _ e3 E) as (k & Hk & Hfirst).
  - by eapply list_elem_of_lookup_2.
  - exists e2. split; [by eapply list_elem_of_lookup_2 |].
    split; [| apply shadow_test_spec];
      injection H3 as <-; injection H2 as <-; vm_compute; [lia | reflexivity].
  - exists e3. rewrite Hk in Hs3. injection Hs3 as ->. done.
Defined.

(** C3 as stated fails: in the snapshot of [/a:/a/b:/a/b/c] the nearest
    earlier ancestor of the third entry is the second one, and the entry
    is marked with the first. *)
Lemma snapshot_shadowed_by_not_nearest :
  let path := "/a:/a/b:/a/b/c" in
  let entries := Scenario.entries_of path in
  ∃ grouped e3,
    Paths.analyze_path (Scenario.environ_of path) Scenario.disk
    = inr (path, entries, grouped) ∧
    e3 ∈ entries ∧ nearest_prior_ancestor entries e3 2 ∧
    Paths.shadowed_by e3 = Some 1 ∧ Paths.shadowed_by e3 ≠ Some 2.
Proof.
  intros path entries.
  assert (∃ grouped,
    Paths.analyze_path (Scenario.environ_of path) Scenario.disk
    = inr (path, entries, grouped)) as [grouped E]
    by (eexists; vm_compute; reflexivity).
  assert (∃ e3 e2, entries !! 2 = Some e3 ∧ entries !! 1 = Some e2 ∧
                   Paths.shadowed_by e3 = Some 1)
    as (e3 & e2 & H3 & H2 & Hs3)
    by (do 2 eexists; repeat split; vm_compute; reflexivity).
  assert (Hidx : ∀ i e, entries !! i = Some e → Paths.index e = S i)
    by (intros; by eapply analyze_path_index).
  exists grouped, e3. split; [done |].
  split; [by eapply list_elem_of_lookup_2 |]. split; [| by rewrite Hs3].
  exists e2. split; [| split; [by apply (Hidx 1) |]].
  - split; [by eapply list_elem_of_lookup_2 |].
    split; [| apply shadow_test_spec];
      injection H3 as <-; injection H2 as <-; vm_compute; [lia | reflexivity].
  - intros ea (_ & Hlt & _). rewrite (Hidx _ _ H3) in Hlt. lia.
Qed.

(** ** The classifier *)

Section Classifier.
Import Py Paths Rules.

Lemma _contains_any_find pl needles :
  _contains_any pl needles = List.find (λ n, contains (lower n) pl) needles.
Proof.
  induction needles as [|n needles IH]; simpl; [done |].
  by destruct (contains (lower n) pl).
Qed.

Lemma first_match_buckets buckets rest p :
  first_match ((rule_bucket <$> buckets) ++ rest) p =
  match classify_buckets (lower p) buckets with
  | Some r => Some r
  | None => first_match rest p
  end.
Proof.
  induction buckets as [|[cat needles] buckets IH]; simpl; [done |].
  unfold rule_bucket at 1. simpl. rewrite <- _contains_any_find.
  destruct (_contains_any (lower p) needles) as [hit|]; [| done].
  by destruct (truthy hit).
Qed.

End Classifier.

(** C4, as the code has it: classify is a function of the path (and of
    the home directory read when the module is loaded) that tries its
    rules in one fixed order, first match wins: system prefixes, developer
    prefixes, Homebrew prefixes, the keyword buckets in table order, the
    two regular expressions, the default.  Under a Homebrew prefix the
    reason is 'brew cellar' exactly when the text /Cellar/ occurs in the
    path or /cellar/ in its lower-cased form, and 'brew prefix' otherwise.
    In particular a path under a system prefix is ('System', 'system
    prefix') whatever else it contains. *)
Theorem classify_first_match (home p : string) :
  Paths.classify home p = Rules.classify_through home p ∧
  (Py.startswith_any p Paths.SYSTEM_PREFIXES = false →
   Py.startswith_any p Paths.DEV_PREFIXES = false →
   Py.startswith_any p Paths.BREW_PREFIXES = true →
   Paths.classify home p
   = ("Homebrew",
      if Py.contains "/Cellar/" p || Py.contains "/cellar/" (Py.lower p)
      then "brew cellar" else "brew prefix")) ∧
  (Py.startswith_any p Paths.SYSTEM_PREFIXES = true →
   Paths.classify home p = ("System", "system prefix")).
Proof.
  split; [| split].
  - unfold Paths.classify, Rules.classify_through, Rules.classify_with,
      Rules.classify_rules_with.
    cbn [app Rules.first_match].
    unfold Rules.rule_prefix at 1.
    destruct (Py.startswith_any p Paths.SYSTEM_PREFIXES); [done |].
    unfold Rules.rule_prefix at 1.
    destruct (Py.startswith_any p Paths.DEV_PREFIXES); [done |].
    unfold Rules.rule_brew_through, Rules.rule_brew_by, Rules.through_cellar.
    destruct (Py.startswith_any p Paths.BREW_PREFIXES).
    { by destruct (_ || _). }
    rewrite first_match_buckets.
    destruct (Paths.classify_buckets _ _) as [r|]; [done |].
    cbn [Rules.first_match]. unfold Rules.rule_regex.
    destruct (Py.re_search Paths.re_node_here _); [done |].
    by destruct (Py.re_search Paths.re_python_here _).
  - intros H1 H2 H3. unfold Paths.classify. rewrite H1, H2, H3.
    by destruct (_ || _).
  - intros H. unfold Paths.classify. by rewrite H.
Qed.

Lemma classify_first_match_witness :
  Py.contains "python" (Py.lower "/usr/bin/python3") = true ∧
  Paths.classify "/Users/dave" "/usr/bin/python3" = ("System", "system prefix") ∧
  Paths.classify "/Users/dave" "/opt/homebrew/Cellar/python/3.12/bin"
  = ("Homebrew", "brew cellar").
Proof.
  split; [reflexivity |].
  destruct (classify_first_match "/Users/dave" "/usr/bin/python3")
    as (_ & _ & Hsys).
  destruct (classify_first_match "/Users/dave"
              "/opt/homebrew/Cellar/python/3.12/bin") as (_ & Hbrew & _).
  split; [apply Hsys; reflexivity |].
  rewrite Hbrew by reflexivity. reflexivity.
Defined.

(** C4 as stated fails at the Homebrew reason.  A path that ends in its
    [Cellar] component has that component and is classified 'brew prefix';
    a path through a directory spelled [CELLAR] has no component [Cellar]
    and is classified 'brew cellar'.  The classifier of the specification
    answers the other way in both cases. *)
Lemma classify_cellar_component_missed :
  Rules.has_component "Cellar" "/usr/local/Cellar" = true ∧
  Paths.classify "/Users/dave" "/usr/local/Cellar"
  = ("Homebrew", "brew prefix") ∧
  Rules.classify_spec "/Users/dave" "/usr/local/Cellar"
  = ("Homebrew", "brew cellar") ∧
  Rules.has_component "Cellar" "/usr/local/CELLAR/foo" = false ∧
  Paths.classify "/Users/dave" "/usr/local/CELLAR/foo"
  = ("Homebrew", "brew cellar") ∧
  Rules.classify_spec "/Users/dave" "/usr/local/CELLAR/foo"
  = ("Homebrew", "brew prefix").
Proof. repeat split; vm_compute; reflexivity. Qed.

(** ** Re-snapshotting under an alternate PATH *)

(** Unfolds the monad of statements down to its pairs. *)
Ltac run_M :=
  repeat (unfold Paths.try_finally, Paths.try_except_M, Paths.environ_set_PATH,
            Paths.query, Paths.logger_info, Paths.logger_error,
            Paths.logger_log, Paths.get_parts, Paths.put_parts, Paths.input,
            mbind, Paths.M_bind, mret, Paths.M_ret, result_ret; simpl).

Section Resnapshot.
Context `{os : OS}.
Import Py Paths.

Lemma set_environ_id (st : state) : set_environ st (st_environ st) = st.
Proof. by destruct st. Qed.

Lemma set_environ_twice (st : state) e1 e2 :
  set_environ (set_environ st e1) e2 = set_environ st e2.
Proof. done. Qed.

Lemma reanalyze_with_state path_value st :
  (reanalyze_with path_value st).2
  = set_environ st
      (<["PATH" := environ_get_PATH (st_environ st)]> (st_environ st)).
Proof.
  unfold reanalyze_with. run_M.
  destruct (analyze_path _ _) as [?|[[? ?] ?]]; simpl;
    by rewrite insert_insert_eq.
Qed.

Lemma main_regroup_state raw_path st :
  (main_regroup raw_path st).2
  = set_environ st
      (<["PATH" := environ_get_PATH (st_environ st)]> (st_environ st)).
Proof.
  unfold main_regroup. run_M.
  destruct (analyze_path _ _) as [?|[[? ?] ?]]; simpl;
    by rewrite insert_insert_eq.
Qed.

(** What [os.environ.get("PATH", "")] reads is the same before and after,
    also when PATH was not set. *)
Lemma reanalyze_with_get_PATH path_value st :
  environ_get_PATH (st_environ (reanalyze_with path_value st).2)
  = environ_get_PATH (st_environ st).
Proof.
  rewrite reanalyze_with_state. unfold environ_get_PATH. simpl.
  by rewrite lookup_insert_eq.
Qed.

(** A PATH that was not set on entry is left set to the empty string. *)
Lemma reanalyze_with_unset_PATH path_value st :
  st_environ st !! "PATH" = None →
  st_environ (reanalyze_with path_value st).2 !! "PATH" = Some "".
Proof.
  intros H. rewrite reanalyze_with_state. unfold environ_get_PATH. simpl.
  by rewrite lookup_insert_eq, H.
Qed.

(** The result of [reanalyze_with] is the analysis under the alternate
    PATH. *)
Lemma reanalyze_with_result path_value st :
  (reanalyze_with path_value st).1
  = match analyze_path (<["PATH" := path_value]> (st_environ st)) (st_fs st) with
    | inl ex => inl ex
    | inr (new_raw, new_entries, _) => inr (new_raw, new_entries)
    end.
Proof.
  unfold reanalyze_with. run_M.
  by destruct (analyze_path _ _) as [?|[[? ?] ?]].
Qed.

End Resnapshot.

(** C6: re-snapshotting with an alternate PATH string, in reanalyze_with
    and in the final re-grouping of main, leaves os.environ["PATH"] at the
    value it had on entry, whether the analysis returns or raises; the
    rest of the state is untouched as well. *)
Theorem resnapshot_restores_PATH `{os : OS} (st : Paths.state)
    (path_value v : string) :
  Paths.st_environ st !! "PATH" = Some v →
  (Paths.st_environ (Paths.reanalyze_with path_value st).2 !! "PATH" = Some v ∧
   (Paths.reanalyze_with path_value st).2 = st) ∧
  (Paths.st_environ (Paths.main_regroup path_value st).2 !! "PATH" = Some v ∧
   (Paths.main_regroup path_value st).2 = st).
Proof.
  intros Hv.
  assert (Paths.set_environ st
            (<["PATH" := Paths.environ_get_PATH (Paths.st_environ st)]>
               (Paths.st_environ st)) = st) as Hst.
  { unfold Paths.environ_get_PATH. rewrite Hv. simpl.
    rewrite insert_id by done. apply set_environ_id. }
  rewrite reanalyze_with_state, main_regroup_state, Hst. done.
Qed.

Lemma resnapshot_restores_PATH_witness :
  let returns := Scenario.state_of "/usr/bin:/nonexistent" [] [] in
  let raises := Scenario.state_of "/usr/bin:/root/bin" [] [] in
  (∃ r, (Paths.reanalyze_with "/opt:/usr" returns).1 = inr r) ∧
  Paths.st_environ (Paths.reanalyze_with "/opt:/usr" returns).2 !! "PATH"
    = Some "/usr/bin:/nonexistent" ∧
  (∃ ex, (Paths.reanalyze_with "/usr:~nobody/bin" raises).1 = inl ex) ∧
  Paths.st_environ (Paths.reanalyze_with "/usr:~nobody/bin" raises).2 !! "PATH"
    = Some "/usr/bin:/root/bin".
Proof.
  intros returns raises.
  split; [eexists; vm_compute; reflexivity |].
  split; [apply (resnapshot_restores_PATH returns); reflexivity |].
  split; [eexists; vm_compute; reflexivity |].
  apply (resnapshot_restores_PATH raises); reflexivity.
Defined.

(** ** Joining and splitting the parts of a session *)

Section JoinSplit.
Import Py Paths.

Lemma split_join_sep_free sep l :
  l ≠ [] → Forall (sep_free sep) l → split sep (join sep l) = l.
Proof.
  intros Hne Hall. induction Hall as [|x l Hx Hl IH]; [done |].
  destruct l as [|y l].
  - by apply split_sep_free.
  - rewrite join_cons by done. rewrite split_sep_free_app by done.
    by rewrite IH.
Qed.

Lemma split_all_sep_free sep s : Forall (sep_free sep) (split sep s).
Proof.
  induction s as [|c s IH]; simpl.
  - by repeat constructor.
  - destruct (Ascii.eqb_spec c sep) as [->|Hne].
    + by constructor.
    + pose proof (split_nonempty sep s).
      destruct (split sep s) as [|x xs]; [done |].
      inversion IH as [|? ? Hx Hxs]; subst. constructor; [| done].
      unfold sep_free in *. rewrite contains_str1_cons, Hx.
      rewrite orb_false_r. apply Ascii.eqb_neq. congruence.
Qed.

Lemma split_path_sep_free raw_path :
  Forall (sep_free os_pathsep) (split_path raw_path).
Proof.
  unfold split_path. destruct (truthy raw_path); [| constructor].
  apply split_all_sep_free.
Qed.

Lemma filter_truthy_plain l :
  Forall (sep_free os_pathsep) l →
  Forall plain_segment (List.filter truthy l).
Proof.
  intros H. apply Forall_forall. intros x [Hx Ht]%list_elem_of_In%filter_In.
  split; [by apply truthy_true |].
  rewrite Forall_forall in H. by apply H, list_elem_of_In.
Qed.

Lemma filter_truthy_id l : Forall plain_segment l → List.filter truthy l = l.
Proof.
  induction 1 as [|x l [Hx _] Hl IH]; simpl; [done |].
  apply truthy_true in Hx. by rewrite Hx, IH.
Qed.

Lemma join_truthy sep x l : truthy x = true → truthy (join sep (x :: l)) = true.
Proof.
  intros Hx. destruct l; [done |]. rewrite join_cons by done.
  by apply truthy_app_l.
Qed.

(** Splitting what [rebuild_path] joined gives back the non-empty parts,
    as long as no part contains the separator. *)
Lemma split_rebuild_path parts :
  Forall (sep_free os_pathsep) parts →
  split_path (rebuild_path parts) = List.filter truthy parts.
Proof.
  intros H. apply filter_truthy_plain in H. unfold rebuild_path, split_path.
  destruct (List.filter truthy parts) as [|x l] eqn:E; [done |].
  inversion H as [|? ? [Hx _] _]; subst.
  rewrite join_truthy by by apply truthy_true.
  apply split_join_sep_free; [done |].
  eapply Forall_impl; [exact H |]. by intros ? [_ ?].
Qed.

Lemma split_rebuild_path_plain parts :
  Forall plain_segment parts → split_path (rebuild_path parts) = parts.
Proof.
  intros H. rewrite split_rebuild_path.
  - by apply filter_truthy_id.
  - eapply Forall_impl; [exact H |]. by intros ? [_ ?].
Qed.

Lemma initial_parts_plain raw_path :
  Forall plain_segment (initial_parts raw_path).
Proof. apply filter_truthy_plain, split_path_sep_free. Qed.

Lemma filter_truthy_no_empty l : "" ∉ List.filter truthy l.
Proof. rewrite list_elem_of_In. by intros [_ ?]%filter_In. Qed.

End JoinSplit.

(** C8, as the code has it: joining the parts with rebuild_path and
    splitting the result as analyze_path does gives back the parts list
    when every part is a plain segment (non-empty, no separator inside). *)
Theorem rebuild_split_roundtrip (parts : list string) :
  Forall plain_segment parts →
  Paths.split_path (Paths.rebuild_path parts) = parts.
Proof. apply split_rebuild_path_plain. Qed.

Lemma rebuild_split_roundtrip_witness :
  Forall plain_segment ["/usr/bin"; "/opt/toolX/1.3/bin"] ∧
  Paths.split_path (Paths.rebuild_path ["/usr/bin"; "/opt/toolX/1.3/bin"])
  = ["/usr/bin"; "/opt/toolX/1.3/bin"].
Proof.
  assert (Forall plain_segment ["/usr/bin"; "/opt/toolX/1.3/bin"]) as H
    by (repeat constructor; done).
  split; [exact H | exact (rebuild_split_roundtrip _ H)].
Defined.

(** C8 as stated fails: a replacement typed as two directories joined by
    the separator is accepted (the directory is created on request) and
    stays one part, which splits in two. *)
Lemma rebuild_split_not_roundtrip :
  let st := (Scenario.session "/usr/bin:/nonexistent"
               ["2"; "3"; "/usr/local/bin:/opt/more"; "y"; "q"]).2 in
  Paths.st_parts st = ["/usr/bin"; "/usr/local/bin:/opt/more"] ∧
  Paths.split_path (Paths.rebuild_path (Paths.st_parts st))
  = ["/usr/bin"; "/usr/local/bin"; "/opt/more"] ∧
  Paths.split_path (Paths.rebuild_path (Paths.st_parts st)) ≠ Paths.st_parts st.
Proof.
  intros st. split; [vm_compute; done |]. split; [vm_compute; done |].
  vm_compute. discriminate.
Qed.

(** C10, as the code has it: rebuild_path joins the parts that are not
    empty, so that when no part contains the separator the proposed string
    splits into exactly those and has no empty segment; the session starts
    from the non-empty segments of the raw PATH, which are such parts, so
    the empty segments of the input are gone from the proposed string
    before any action. *)
Theorem proposed_string_no_empty_segment (raw_path : string)
    (parts : list string) :
  Forall (sep_free Py.os_pathsep) parts →
  (Paths.rebuild_path parts
     = Py.join Py.os_pathsep (List.filter Py.truthy parts) ∧
   Paths.split_path (Paths.rebuild_path parts) = List.filter Py.truthy parts ∧
   "" ∉ Paths.split_path (Paths.rebuild_path parts)) ∧
  (Paths.initial_parts raw_path
     = List.filter Py.truthy (Paths.split_path raw_path) ∧
   Forall (sep_free Py.os_pathsep) (Paths.initial_parts raw_path) ∧
   Paths.split_path (Paths.rebuild_path (Paths.initial_parts raw_path))
     = List.filter Py.truthy (Paths.split_path raw_path) ∧
   "" ∉ Paths.split_path (Paths.rebuild_path (Paths.initial_parts raw_path))).
Proof.
  intros H. split.
  - split; [done |]. rewrite split_rebuild_path by done.
    split; [done | apply filter_truthy_no_empty].
  - pose proof (initial_parts_plain raw_path) as Hp.
    rewrite split_rebuild_path_plain by done.
    split; [done |]. split; [| split; [done | apply filter_truthy_no_empty]].
    eapply Forall_impl; [exact Hp |]. by intros ? [_ ?].
Qed.

Lemma proposed_string_no_empty_segment_witness :
  let raw_path := "/usr/bin::/nonexistent:" in
  let st := (Scenario.session raw_path ["q"]).2 in
  Forall (sep_free Py.os_pathsep) (Paths.st_parts st) ∧
  Paths.st_parts st = ["/usr/bin"; "/nonexistent"] ∧
  Paths.rebuild_path (Paths.st_parts st) = "/usr/bin:/nonexistent" ∧
  "" ∉ Paths.split_path (Paths.rebuild_path (Paths.st_parts st)).
Proof.
  intros raw_path st.
  assert (Forall (sep_free Py.os_pathsep) (Paths.st_parts st)) as H
    by (repeat constructor; vm_compute; done).
  split; [exact H |]. split; [vm_compute; done |]. split; [vm_compute; done |].
  apply (proposed_string_no_empty_segment raw_path _ H).
Defined.

(** C10 as stated fails: a replacement typed with a trailing separator is
    accepted (the directory is created on request); the proposed string
    then has two separators in a row. *)
Lemma proposed_string_empty_segment :
  let st := (Scenario.session "/usr/bin:/nonexistent:/usr/local/bin"
               ["2"; "3"; "/opt/tools:"; "y"; "q"]).2 in
  Paths.st_parts st = ["/usr/bin"; "/opt/tools:"; "/usr/local/bin"] ∧
  Paths.rebuild_path (Paths.st_parts st)
  = "/usr/bin:/opt/tools::/usr/local/bin" ∧
  "" ∈ Paths.split_path (Paths.rebuild_path (Paths.st_parts st)).
Proof.
  intros st. split; [vm_compute; done |]. split; [vm_compute; done |].
  apply list_elem_of_lookup_2 with 2. vm_compute. done.
Qed.

(** ** Applying a fix: directory creation that fails *)

Section MkdirFailure.
Context `{os : OS}.
Import Py Paths.

(** The record [logger.error("#%02d MKDIR FAILED | target=%s | error=%s",
    e.index, target, ex)]. *)
Definition mkdir_failed (e : Entry) (target : string) (ex : exn) : log_record :=
  {| levelname := ERROR; msg := "#%02d MKDIR FAILED | target=%s | error=%s";
     args := [ArgInt (index e); ArgStr target; ArgExn ex] |}.

(** The state after a failed creation: what [mkdir] left of the file
    system, the lines not yet read, one more log record; the environment
    and the parts as they were. *)
Definition after_failed_mkdir (st : state) (fs' : FS) (lines : list string)
    (r : log_record) : state :=
  {| st_environ := st_environ st; st_fs := fs'; st_stdin := lines;
     st_log := st_log st ++ [r]; st_parts := st_parts st |}.

(** The prologue of [_apply_fix_for_entry]: an entry inside the parts,
    suggestions computed, one line read. *)
Lemma apply_fix_read_action e st line rest alts :
  index e ≠ 0 → index e - 1 < length (st_parts st) →
  st_stdin st = line :: rest →
  suggest_alternatives (st_environ st) (st_fs st) (raw e) 8 = inr alts →
  _apply_fix_for_entry e st =
  let action := lower (strip line) in
  let i0 := index e - 1 in
  let st := set_stdin st rest in
  (if String.eqb action "b" then mret ()
   else if negb (bool_decide (action ∈ ["1"; "2"; "3"; "4"; "5"])) then mret ()
   else if String.eqb action "1" then
     logger_info "#%02d KEEP | %s" [ArgInt (index e); ArgStr (normalized e)]
   else if String.eqb action "2" then
     logger_info "#%02d REMOVE | %s" [ArgInt (index e); ArgStr (normalized e)];;
     parts ← get_parts; put_parts (delete i0 parts)
   else if String.eqb action "3" then
     λ st, replace_manual e i0 (st_stdin st) st
   else if String.eqb action "4" then replace_from_suggestions e i0 alts
   else create_directory e i0) st.
Proof.
  intros H0 Hlen Hin Halts. unfold _apply_fix_for_entry.
  unfold mbind at 1, M_bind at 1, get_parts at 1.
  destruct (index e =? 0) eqn:E0; [apply Nat.eqb_eq in E0; lia |].
  destruct (length (st_parts st) <=? index e - 1) eqn:E1;
    [apply Nat.leb_le in E1; lia |].
  cbn [orb]. unfold mbind at 1, M_bind at 1, query at 1. rewrite Halts.
  unfold mbind at 1, M_bind at 1, input at 1. rewrite Hin. done.
Qed.

(** Create-directory whose [mkdir] raises. *)
Lemma create_directory_failure e st line rest alts target ex fs' :
  index e ≠ 0 → index e - 1 < length (st_parts st) →
  st_stdin st = line :: rest → lower (strip line) = "5" →
  suggest_alternatives (st_environ st) (st_fs st) (raw e) 8 = inr alts →
  _safe_expand_and_normalize (st_environ st) (st_fs st) (raw e) = inr target →
  path_mkdir (st_fs st) (path_str (Path target)) = (inl ex, fs') →
  _apply_fix_for_entry e st
  = (inr (), after_failed_mkdir st fs' rest (mkdir_failed e target ex)).
Proof.
  intros H0 Hlen Hin Hact Halts Hnorm Hmk.
  rewrite (apply_fix_read_action e st line rest alts) by done.
  cbv zeta. rewrite Hact. cbn [String.eqb Ascii.eqb Bool.eqb negb].
  rewrite bool_decide_eq_true_2 by set_solver. cbn [negb].
  unfold create_directory. run_M. rewrite Hnorm. simpl.
  unfold mkdir. simpl. rewrite Hmk. simpl. done.
Qed.

(** A turn of the Replace-manual loop whose [mkdir] raises: the loop goes
    on to its next prompt. *)
Lemma replace_manual_failed_turn e i0 st typed_line answer rest norm ex fs' :
  lower (strip typed_line) ≠ "b" → strip typed_line ≠ "" →
  _safe_expand_and_normalize (st_environ st) (st_fs st) (strip typed_line)
    = inr norm →
  exists_and_is_dir (st_fs st) (path_str (Path norm)) = inr false →
  lower (strip answer) = "y" →
  path_mkdir (st_fs st) (path_str (Path norm)) = (inl ex, fs') →
  replace_manual e i0 (typed_line :: answer :: rest) st
  = replace_manual e i0 rest
      (after_failed_mkdir st fs' rest (mkdir_failed e norm ex)).
Proof.
  intros Hb Hne Hnorm Hex Hy Hmk. cbn [replace_manual].
  apply String.eqb_neq in Hb. rewrite Hb.
  apply truthy_true in Hne. rewrite Hne. cbn [negb].
  cbn [st_environ st_fs set_stdin]. rewrite Hnorm, Hex, Hy.
  cbn [String.eqb Ascii.eqb Bool.eqb].
  unfold try_except_M, mkdir. run_M. rewrite Hmk. simpl. done.
Qed.

(** Replace-manual changes the parts only by putting a typed line at the
    position of the entry. *)
Lemma replace_manual_parts e i0 lines st :
  st_parts (replace_manual e i0 lines st).2 = st_parts st ∨
  ∃ line, line ∈ lines ∧
    st_parts (replace_manual e i0 lines st).2
    = <[i0 := strip line]> (st_parts st).
Proof.
  remember (length lines) as n eqn:Hn.
  assert (Hle : length lines ≤ n) by lia. clear Hn.
  revert lines st Hle. induction n as [|n IH]; intros lines st Hle.
  { destruct lines; [by left | simpl in Hle; lia]. }
  destruct lines as [|line lines1]; [by left |]. simpl in Hle.
  assert (Hrec : ∀ lines' st', length lines' ≤ n →
    st_parts st' = st_parts st → (∀ x, x ∈ lines' → x ∈ line :: lines1) →
    st_parts (replace_manual e i0 lines' st').2 = st_parts st ∨
    ∃ l, l ∈ line :: lines1 ∧
      st_parts (replace_manual e i0 lines' st').2
      = <[i0 := strip l]> (st_parts st)).
  { intros lines' st' Hlt Hp Hsub.
    destruct (IH lines' st' Hlt) as [H|(l & Hl & H)].
    - left. congruence.
    - right. exists l. split; [by apply Hsub |]. by rewrite H, Hp. }
  cbn [replace_manual].
  destruct (String.eqb (lower (strip line)) "b"); [by left |].
  destruct (truthy (strip line)); cbn [negb];
    [| apply Hrec; [simpl in *; lia | done | set_solver]].
  destruct (_safe_expand_and_normalize _ _ _) as [?|norm]; [by left |].
  destruct (exists_and_is_dir _ _) as [?|[]]; [by left | |].
  { right. exists line. split; [set_solver | done]. }
  destruct lines1 as [|answer lines2]; [by left |].
  destruct (String.eqb (lower (strip answer)) "y");
    [| apply Hrec; [simpl in *; lia | done | set_solver]].
  unfold try_except_M, mkdir. run_M.
  destruct (path_mkdir _ _) as [[ex|[]] fs']; simpl.
  - apply Hrec; [simpl in *; lia | done | set_solver].
  - right. exists line. split; [set_solver | done].
Qed.

(** What Replace-manual asks of a typed directory before it stores it.
    The text [typed], normalized under [environ] on the file system [fs0]
    of that turn, names a directory that exists, and the file system
    stays as it is; or it names one that does not, and [mkdir] returns
    without raising, leaving the file system [fs1]. *)
Definition accepted_directory (environ : gmap string string) (fs0 fs1 : FS)
    (typed : string) : Prop :=
  ∃ norm,
    _safe_expand_and_normalize environ fs0 typed = inr norm ∧
    ((exists_and_is_dir fs0 (path_str (Path norm)) = inr true ∧ fs1 = fs0) ∨
     (exists_and_is_dir fs0 (path_str (Path norm)) = inr false ∧
      path_mkdir fs0 (path_str (Path norm)) = (inr (), fs1))).

(** Replace-manual leaves the parts as they were, or returns having put
    at the position of the entry one non-empty typed line that names an
    accepted directory; the file system it leaves is the one in which
    that directory exists or was created. *)
Lemma replace_manual_accepts e i0 lines st :
  st_parts (replace_manual e i0 lines st).2 = st_parts st ∨
  ∃ line fs0,
    line ∈ lines ∧ strip line ≠ "" ∧
    accepted_directory (st_environ st) fs0
      (st_fs (replace_manual e i0 lines st).2) (strip line) ∧
    (replace_manual e i0 lines st).1 = inr () ∧
    st_parts (replace_manual e i0 lines st).2
    = <[i0 := strip line]> (st_parts st).
Proof.
  remember (length lines) as n eqn:Hn.
  assert (Hle : length lines ≤ n) by lia. clear Hn.
  revert lines st Hle. induction n as [|n IH]; intros lines st Hle.
  { destruct lines; [by left | simpl in Hle; lia]. }
  destruct lines as [|line lines1]; [by left |]. simpl in Hle.
  assert (Hrec : ∀ lines' st', length lines' ≤ n →
    st_parts st' = st_parts st → st_environ st' = st_environ st →
    (∀ x, x ∈ lines' → x ∈ line :: lines1) →
    st_parts (replace_manual e i0 lines' st').2 = st_parts st ∨
    ∃ l fs0,
      l ∈ line :: lines1 ∧ strip l ≠ "" ∧
      accepted_directory (st_environ st) fs0
        (st_fs (replace_manual e i0 lines' st').2) (strip l) ∧
      (replace_manual e i0 lines' st').1 = inr () ∧
      st_parts (replace_manual e i0 lines' st').2
      = <[i0 := strip l]> (st_parts st)).
  { intros lines' st' Hlt Hp He Hsub.
    destruct (IH lines' st' Hlt) as [H|(l & fs0 & Hl & Hne & Hacc & Hr & H)].
    - left. congruence.
    - right. exists l, fs0. rewrite <- He, <- Hp.
      split; [by apply Hsub |]. done. }
  cbn [replace_manual].
  destruct (String.eqb (lower (strip line)) "b"); [by left |].
  destruct (truthy (strip line)) eqn:Htyped; cbn [negb];
    [| apply Hrec; [simpl in *; lia | done | done |
                    intros x Hx; by apply list_elem_of_further]].
  assert (strip line ≠ "") as Hne by (intros Hs; by rewrite Hs in Htyped).
  cbn [st_environ st_fs set_stdin].
  destruct (_safe_expand_and_normalize _ _ _) as [?|norm] eqn:Hnorm;
    [by left |].
  destruct (exists_and_is_dir _ _) as [?|[]] eqn:Hex; [by left | |].
  { right. exists line, (st_fs st). split; [apply list_elem_of_here |].
    split; [done |]. split; [| done].
    exists norm. split; [done |]. left. done. }
  destruct lines1 as [|answer lines2]; [by left |].
  destruct (String.eqb (lower (strip answer)) "y");
    [| apply Hrec; [simpl in *; lia | done | done |
                    intros x Hx; by do 2 apply list_elem_of_further]].
  unfold try_except_M, mkdir. run_M.
  destruct (path_mkdir _ _) as [[ex|[]] fs'] eqn:Hmk; simpl.
  - apply Hrec; [simpl in *; lia | done | done |
                 intros x Hx; by do 2 apply list_elem_of_further].
  - right. exists line, (st_fs st). split; [apply list_elem_of_here |].
    split; [done |]. split; [| done].
    exists norm. split; [done |]. right. done.
Qed.

End MkdirFailure.

(** C7, as the code has it: a directory creation that raises does not
    change the parts, is logged with the exception, and raises nothing
    itself.  Create-directory then returns.  Replace-manual is a prompt
    loop; a creation that raises at any of its turns leaves the loop at
    its next prompt with the parts as they were, and at the end of that
    action the parts are as they were, or the action has returned with
    the entry's position holding a typed directory that exists or was
    created without raising. *)
Theorem mkdir_failure_keeps_parts `{os : OS} (e : Paths.Entry) :
  (∀ st line rest alts target ex fs',
     Paths.index e ≠ 0 → Paths.index e - 1 < length (Paths.st_parts st) →
     Paths.st_stdin st = line :: rest → Py.lower (Py.strip line) = "5" →
     Paths.suggest_alternatives (Paths.st_environ st) (Paths.st_fs st)
       (Paths.raw e) 8 = inr alts →
     Paths._safe_expand_and_normalize (Paths.st_environ st) (Paths.st_fs st)
       (Paths.raw e) = inr target →
     path_mkdir (Paths.st_fs st) (Paths.path_str (Paths.Path target))
       = (inl ex, fs') →
     ∃ st', Paths._apply_fix_for_entry e st = (inr (), st') ∧
            Paths.st_parts st' = Paths.st_parts st ∧
            Paths.st_log st' = Paths.st_log st ++ [mkdir_failed e target ex]) ∧
  (∀ st line rest alts,
     Paths.index e ≠ 0 → Paths.index e - 1 < length (Paths.st_parts st) →
     Paths.st_stdin st = line :: rest → Py.lower (Py.strip line) = "3" →
     Paths.suggest_alternatives (Paths.st_environ st) (Paths.st_fs st)
       (Paths.raw e) 8 = inr alts →
     Paths._apply_fix_for_entry e st
     = Paths.replace_manual e (Paths.index e - 1) rest
         (Paths.set_stdin st rest)) ∧
  (∀ i0 st typed_line answer rest norm ex fs',
     Py.lower (Py.strip typed_line) ≠ "b" → Py.strip typed_line ≠ "" →
     Paths._safe_expand_and_normalize (Paths.st_environ st) (Paths.st_fs st)
       (Py.strip typed_line) = inr norm →
     Paths.exists_and_is_dir (Paths.st_fs st) (Paths.path_str (Paths.Path norm))
       = inr false →
     Py.lower (Py.strip answer) = "y" →
     path_mkdir (Paths.st_fs st) (Paths.path_str (Paths.Path norm))
       = (inl ex, fs') →
     ∃ st', Paths.replace_manual e i0 (typed_line :: answer :: rest) st
            = Paths.replace_manual e i0 rest st' ∧
            Paths.st_stdin st' = rest ∧
            Paths.st_parts st' = Paths.st_parts st ∧
            Paths.st_environ st' = Paths.st_environ st ∧
            Paths.st_fs st' = fs' ∧
            Paths.st_log st' = Paths.st_log st ++ [mkdir_failed e norm ex]) ∧
  (∀ i0 lines st,
     Paths.st_parts (Paths.replace_manual e i0 lines st).2 = Paths.st_parts st ∨
     ∃ line fs0,
       line ∈ lines ∧ Py.strip line ≠ "" ∧
       accepted_directory (Paths.st_environ st) fs0
         (Paths.st_fs (Paths.replace_manual e i0 lines st).2)
         (Py.strip line) ∧
       (Paths.replace_manual e i0 lines st).1 = inr () ∧
       Paths.st_parts (Paths.replace_manual e i0 lines st).2
       = <[i0 := Py.strip line]> (Paths.st_parts st)).
Proof.
  split; [| split; [| split]].
  - intros st line rest alts target ex fs' H0 Hlen Hin Hact Halts Hnorm Hmk.
    eexists. split; [by eapply create_directory_failure |]. done.
  - intros st line rest alts H0 Hlen Hin Hact Halts.
    rewrite (apply_fix_read_action e st line rest alts) by done.
    cbv zeta. rewrite Hact. cbn [String.eqb Ascii.eqb Bool.eqb negb].
    rewrite bool_decide_eq_true_2 by set_solver.
    cbn [negb Paths.st_stdin Paths.set_stdin]. done.
  - intros i0 st typed_line answer rest norm ex fs' Hb Hne Hnorm Hex Hy Hmk.
    exists (after_failed_mkdir st fs' rest (mkdir_failed e norm ex)).
    split; [| done].
    by apply replace_manual_failed_turn.
  - intros i0 lines st. apply replace_manual_accepts.
Qed.

Lemma mkdir_failure_keeps_parts_witness :
  let path := "/usr/bin:/proc/tools" in
  let st := Scenario.state_of path ["/usr/bin"; "/proc/tools"] ["5"; "q"] in
  let st0 := Scenario.state_of path ["/usr/bin"; "/proc/tools"] [] in
  ∃ e ex st',
    Scenario.entries_of path !! 1 = Some e ∧ Paths.is_broken e = true ∧
    Paths._apply_fix_for_entry e st = (inr (), st') ∧
    Paths.st_parts st' = ["/usr/bin"; "/proc/tools"] ∧
    Paths.st_log st' = [mkdir_failed e "/proc/tools" ex] ∧
    exn_class ex = "PermissionError" ∧
    ∃ st2 ex2,
      Paths.replace_manual e 1 ["/proc/x"; "y"; "/usr"] st0
      = Paths.replace_manual e 1 ["/usr"] st2 ∧
      Paths.st_parts st2 = ["/usr/bin"; "/proc/tools"] ∧
      Paths.st_log st2 = [mkdir_failed e "/proc/x" ex2] ∧
      Paths.st_parts (Paths.replace_manual e 1 ["/usr"] st2).2
      = ["/usr/bin"; "/usr"].
Proof.
  intros path st st0.
  assert (∃ e, Scenario.entries_of path !! 1 = Some e ∧
               Paths.is_broken e = true ∧ Paths.index e = 2 ∧
               Paths.raw e = "/proc/tools") as (e & He & Hb & Hi & Hr)
    by (eexists; repeat split; vm_compute; reflexivity).
  destruct (mkdir_failure_keeps_parts (os := Posix.os) e)
    as (Hcreate & _ & Hturn & _).
  edestruct (Hcreate st "5" ["q"]) as (st' & Hrun & Hparts & Hlog).
  - by rewrite Hi.
  - rewrite Hi. simpl. lia.
  - reflexivity.
  - reflexivity.
  - rewrite Hr. vm_compute. reflexivity.
  - rewrite Hr. vm_compute. reflexivity.
  - vm_compute. reflexivity.
  - edestruct (Hturn 1 st0 "/proc/x" "y" ["/usr"]) as (st2 & Hgo & _ & Hp2 & _ & _ & Hl2).
    + vm_compute. discriminate.
    + vm_compute. discriminate.
    + vm_compute. reflexivity.
    + vm_compute. reflexivity.
    + reflexivity.
    + vm_compute. reflexivity.
    + exists e. do 2 eexists.
      split; [done |]. split; [done |]. split; [exact Hrun |].
      split; [exact Hparts |]. split; [exact Hlog |].
      split; [reflexivity |].
      exists st2. eexists. split; [exact Hgo |]. split; [exact Hp2 |].
      split; [exact Hl2 |].
      rewrite <- Hgo. vm_compute. reflexivity.
Defined.

(** C7 as stated fails for Replace-manual: after a creation that failed
    (and was logged) the same action prompts again and substitutes the
    next directory typed. *)
Lemma mkdir_failure_then_replaced :
  let path := "/usr/bin:/nonexistent" in
  let st := Scenario.state_of path ["/usr/bin"; "/nonexistent"]
              ["3"; "/proc/tools"; "y"; "/usr/local/bin"] in
  ∃ e ex,
    Scenario.entries_of path !! 1 = Some e ∧
    (Paths._apply_fix_for_entry e st).1 = inr () ∧
    mkdir_failed e "/proc/tools" ex ∈ Paths.st_log (Paths._apply_fix_for_entry e st).2 ∧
    Paths.st_parts st = ["/usr/bin"; "/nonexistent"] ∧
    Paths.st_parts (Paths._apply_fix_for_entry e st).2
    = ["/usr/bin"; "/usr/local/bin"].
Proof.
  intros path st. do 2 eexists.
  split; [vm_compute; reflexivity |]. split; [vm_compute; reflexivity |].
  split; [| split; vm_compute; reflexivity].
  apply list_elem_of_lookup_2 with 0. vm_compute. reflexivity.
Qed.

(** ** Removing a broken entry *)

Section Removal.
Context `{os : OS}.
Import Py Paths.

(** What one turn of the loop of [analyze_path] asks the platform about a
    segment: whether it exists and whether it is a directory. *)
Definition probe (environ : gmap string string) (fs : FS) (raw : string)
  : result (bool * bool) :=
  expanded ← expanduser_vars environ raw;
  _ ← normalize_dir environ fs raw;
  ex ← path_exists fs expanded;
  isd ← (if ex : bool then path_is_dir fs expanded else mret false);
  mret (ex, isd).

(** An entry built from the segment [raw]. *)
Definition built_from (environ : gmap string string) (fs : FS)
    (raw : string) (e : Entry) : Prop :=
  Paths.raw e = raw ∧ probe environ fs raw = inr (exists_ e, is_dir e).

(** Whether the segment [raw] makes a broken entry. *)
Definition broken_segment (environ : gmap string string) (fs : FS)
    (raw : string) : bool :=
  match probe environ fs raw with
  | inr (ex, isd) => negb ex || negb isd
  | inl _ => false
  end.

Lemma built_from_broken environ fs raw e :
  built_from environ fs raw e → is_broken e = broken_segment environ fs raw.
Proof. intros [_ H]. unfold broken_segment, is_broken. by rewrite H. Qed.

Lemma probe_environ environ1 environ2 fs raw :
  expanduser_vars environ1 raw = expanduser_vars environ2 raw →
  probe environ1 fs raw = probe environ2 fs raw.
Proof. intros H. unfold probe, normalize_dir. by rewrite H. Qed.

Lemma analyze_entries_built environ fs parts idx seen acc out :
  analyze_entries environ fs parts idx seen acc = inr out →
  ∃ new, out = acc ++ new ∧ Forall2 (built_from environ fs) parts new.
Proof.
  revert idx seen acc.
  induction parts as [|raw parts IH]; intros idx seen acc; simpl.
  - intros [= <-]. exists []. by rewrite app_nil_r.
  - destruct (expanduser_vars environ raw) as [?|expanded] eqn:E1;
      simpl; [done |].
    destruct (normalize_dir environ fs raw) as [?|norm] eqn:E2;
      simpl; [done |].
    destruct (path_exists fs expanded) as [?|ex] eqn:E3; simpl; [done |].
    destruct (if ex then path_is_dir fs expanded else mret false)
      as [?|isd] eqn:E4; simpl; [done |].
    destruct (classify HOME norm) as [cat rsn].
    assert (Hp : probe environ fs raw = inr (ex, isd)).
    { unfold probe. rewrite E1. simpl. rewrite E2. simpl. rewrite E3. simpl.
      by rewrite E4. }
    destruct (seen !! norm) as [k|]; intros (new & -> & Hnew)%IH;
      (eexists (_ :: new); split; [by rewrite <- app_assoc |];
       constructor; [by split | done]).
Qed.

Lemma analyze_entries_returns environ fs parts idx seen acc :
  Forall (λ raw, ∃ r, probe environ fs raw = inr r) parts →
  ∃ out, analyze_entries environ fs parts idx seen acc = inr out.
Proof.
  intros H. revert idx seen acc.
  induction H as [|raw parts [[ex isd] Hr] _ IH]; intros idx seen acc; simpl.
  - by eexists.
  - unfold probe in Hr.
    destruct (expanduser_vars environ raw) as [?|expanded]; simpl in *; [done |].
    destruct (normalize_dir environ fs raw) as [?|norm]; simpl in *; [done |].
    destruct (path_exists fs expanded) as [?|ex']; simpl in *; [done |].
    destruct (if ex' then path_is_dir fs expanded else mret false)
      as [?|isd']; simpl in *; [done |].
    destruct (classify HOME norm) as [cat rsn].
    destruct (seen !! norm); apply IH.
Qed.

(** A snapshot has one entry for each segment of the PATH it read, built
    from that segment. *)
Lemma analyze_path_built environ fs raw_path entries grouped :
  analyze_path environ fs = inr (raw_path, entries, grouped) →
  Forall2 (built_from environ fs) (split_path (environ_get_PATH environ))
    entries.
Proof.
  unfold analyze_path.
  destruct (analyze_entries _ _ _ _ _ _) as [?|ents] eqn:E; simpl; [done |].
  intros [= _ <- _].
  apply analyze_entries_built in E as (new & -> & Hnew). simpl.
  apply Forall2_same_length_lookup. split.
  - unfold compute_shadowing. rewrite length_imap.
    by eapply Forall2_length.
  - intros i seg e' Hseg (e & He & _ & Hr & _ & _ & Hex & Hd & _)
                          %compute_shadowing_lookup.
    destruct (Forall2_lookup_lr _ _ _ _ _ _ Hnew Hseg He) as [Hb1 Hb2].
    unfold built_from. rewrite Hr, Hex, Hd. by split.
Qed.

Lemma analyze_path_returns environ fs :
  Forall (λ raw, ∃ r, probe environ fs raw = inr r)
    (split_path (environ_get_PATH environ)) →
  ∃ entries grouped,
    analyze_path environ fs = inr (environ_get_PATH environ, entries, grouped).
Proof.
  intros H. unfold analyze_path.
  destruct (analyze_entries_returns _ _ _ 1 ∅ [] H) as [out ->]. simpl.
  by do 2 eexists.
Qed.

Lemma filter_length_Forall2 {A B : Type} (f : A → bool) (g : B → bool) l k :
  Forall2 (λ x y, f x = g y) l k →
  length (List.filter f l) = length (List.filter g k).
Proof.
  induction 1 as [|x y l k Hxy _ IH]; simpl; [done |].
  rewrite Hxy. destruct (g y); simpl; by rewrite IH.
Qed.

Lemma filter_delete_length {A : Type} (f : A → bool) l i x :
  l !! i = Some x → f x = true →
  length (List.filter f (delete i l)) + 1 = length (List.filter f l).
Proof.
  revert i. induction l as [|y l IH]; intros [|i] Hi Hx; simplify_eq/=.
  - rewrite Hx. simpl. lia.
  - destruct (f y); simpl; rewrite <- (IH i) by done; lia.
Qed.

Lemma Forall2_raw environ fs parts entries :
  Forall2 (built_from environ fs) parts entries → raw <$> entries = parts.
Proof.
  induction 1 as [|seg e parts entries [Hr _] _ IH]; [done |].
  rewrite fmap_cons. by f_equal.
Qed.

End Removal.

Section RemovalSnapshots.
Context `{os : OS}.
Import Py Paths.

(** Action 2 on an entry inside the parts: the segment at the entry's
    position is deleted, the environment and the file system stay. *)
Lemma apply_fix_remove e st line rest alts :
  index e ≠ 0 → index e - 1 < length (st_parts st) →
  st_stdin st = line :: rest → lower (strip line) = "2" →
  suggest_alternatives (st_environ st) (st_fs st) (raw e) 8 = inr alts →
  ∃ st', _apply_fix_for_entry e st = (inr (), st') ∧
         st_parts st' = delete (index e - 1) (st_parts st) ∧
         st_environ st' = st_environ st ∧ st_fs st' = st_fs st ∧
         st_stdin st' = rest.
Proof.
  intros H0 Hlen Hin Hact Halts.
  rewrite (apply_fix_read_action e st line rest alts) by done.
  cbv zeta. rewrite Hact. cbn [String.eqb Ascii.eqb Bool.eqb negb].
  rewrite bool_decide_eq_true_2 by set_solver. cbn [negb].
  run_M. by eexists.
Qed.

(** The snapshot that [reanalyze_with] builds from separator-free parts,
    seen from the parts. *)
Lemma reanalyze_built parts st raw0 entries :
  Forall plain_segment parts →
  (reanalyze_with (rebuild_path parts) st).1 = inr (raw0, entries) →
  Forall2 (built_from (<["PATH" := rebuild_path parts]> (st_environ st))
             (st_fs st)) parts entries ∧
  ∀ i e, entries !! i = Some e → index e = S i.
Proof.
  intros Hplain. rewrite reanalyze_with_result.
  destruct (analyze_path _ _) as [?|[[raw1 ents] grouped]] eqn:E; [done |].
  intros [= <- <-]. split.
  - apply analyze_path_built in E.
    unfold environ_get_PATH in E. rewrite lookup_insert_eq in E. simpl in E.
    by rewrite split_rebuild_path_plain in E.
  - intros i e. by eapply analyze_path_index.
Qed.

Lemma reanalyze_returns parts st :
  Forall plain_segment parts →
  Forall (λ seg, ∃ r,
            probe (<["PATH" := rebuild_path parts]> (st_environ st)) (st_fs st)
              seg = inr r) parts →
  ∃ raw1 entries,
    (reanalyze_with (rebuild_path parts) st).1 = inr (raw1, entries).
Proof.
  intros Hplain Hprobe. rewrite reanalyze_with_result.
  destruct (analyze_path_returns
              (<["PATH" := rebuild_path parts]> (st_environ st)) (st_fs st))
    as (entries & grouped & ->); [| by do 2 eexists].
  unfold environ_get_PATH. rewrite lookup_insert_eq. simpl.
  by rewrite split_rebuild_path_plain.
Qed.

Lemma broken_count_built environ fs parts entries :
  Forall2 (built_from environ fs) parts entries →
  length (broken_entries entries)
  = length (List.filter (broken_segment environ fs) parts).
Proof.
  intros H. unfold broken_entries. symmetry. apply filter_length_Forall2.
  eapply Forall2_impl; [exact H |]. intros seg e Hb.
  symmetry. by apply built_from_broken.
Qed.

End RemovalSnapshots.

(** X27: when the parts are plain segments (non-empty, no separator
    inside) and the platform answers the same for a segment under both
    PATH values, removing a broken entry leaves a snapshot that is the old
    one without that segment: one broken entry fewer, and every entry as
    broken or not as the old entries with the same text. *)
Theorem remove_broken_monotone `{os : OS} (st : Paths.state) (e : Paths.Entry)
    (line : string) (rest alts : list string) (raw0 : string)
    (entries : list Paths.Entry) :
  Forall plain_segment (Paths.st_parts st) →
  (∀ seg v, seg ∈ Paths.st_parts st →
     expanduser_vars (<["PATH" := v]> (Paths.st_environ st)) seg
     = expanduser_vars (Paths.st_environ st) seg) →
  (Paths.reanalyze_with (Paths.rebuild_path (Paths.st_parts st)) st).1
    = inr (raw0, entries) →
  e ∈ entries → Paths.is_broken e = true →
  Paths.st_stdin st = line :: rest → Py.lower (Py.strip line) = "2" →
  Paths.suggest_alternatives (Paths.st_environ st) (Paths.st_fs st)
    (Paths.raw e) 8 = inr alts →
  ∃ st' raw1 entries',
    Paths._apply_fix_for_entry e st = (inr (), st') ∧
    Paths.st_parts st' = delete (Paths.index e - 1) (Paths.st_parts st) ∧
    (Paths.reanalyze_with (Paths.rebuild_path (Paths.st_parts st')) st').1
      = inr (raw1, entries') ∧
    length (Paths.broken_entries entries') + 1
      = length (Paths.broken_entries entries) ∧
    length (Paths.broken_entries entries')
      ≤ length (Paths.broken_entries entries) - 1 ∧
    Paths.raw <$> entries' = delete (Paths.index e - 1) (Paths.raw <$> entries) ∧
    (∀ e0 e', e0 ∈ entries → e' ∈ entries' → Paths.raw e0 = Paths.raw e' →
              Paths.is_broken e' = Paths.is_broken e0).
Proof.
  intros Hplain Hexp Hsnap [i Hi]%list_elem_of_lookup Hbroken Hin Hact Halts.
  set (parts := Paths.st_parts st) in *.
  set (env1 := <["PATH" := Paths.rebuild_path parts]> (Paths.st_environ st)).
  destruct (reanalyze_built parts st raw0 entries Hplain Hsnap) as [Hb Hidx].
  fold env1 in Hb.
  destruct (Forall2_lookup_r _ _ _ _ _ Hb Hi) as (seg & Hseg & Hbe).
  pose proof (Hidx _ _ Hi) as Hie.
  assert (i < length parts) as Hlt by (by eapply lookup_lt_Some).
  destruct (apply_fix_remove e st line rest alts)
    as (st' & Hrun & Hparts & Henv & Hfs & _);
    [lia | fold parts; lia | done | done | done |].
  fold parts in Hparts. rewrite Hie in *.
  replace (S i - 1) with i in * by lia.
  set (parts' := delete i parts) in *.
  assert (Forall plain_segment parts') as Hplain' by by apply Forall_delete.
  set (env2 := <["PATH" := Paths.rebuild_path parts']> (Paths.st_environ st')).
  assert (Hprobe : ∀ s, s ∈ parts →
            probe env2 (Paths.st_fs st') s = probe env1 (Paths.st_fs st) s).
  { intros s Hs. rewrite Hfs. apply probe_environ. unfold env1, env2.
    rewrite Henv. by rewrite !Hexp. }
  destruct (reanalyze_returns parts' st' Hplain') as (raw1 & entries' & Hsnap').
  { apply Forall_forall. intros s Hs%list_elem_of_delete_inv.
    fold env2. rewrite Hprobe by done.
    destruct (proj1 (list_elem_of_lookup _ _) Hs) as [j Hj].
    destruct (Forall2_lookup_l _ _ _ _ _ Hb Hj) as (ej & _ & _ & Hpj).
    eauto. }
  destruct (reanalyze_built parts' st' raw1 entries' Hplain' Hsnap')
    as [Hb' _].
  fold env2 in Hb'.
  assert (Hb1 : Forall2 (built_from env1 (Paths.st_fs st)) parts' entries').
  { apply Forall2_same_length_lookup. split; [by eapply Forall2_length |].
    intros j s e' Hs He'.
    destruct (Forall2_lookup_lr _ _ _ _ _ _ Hb' Hs He') as [Hr Hp].
    split; [done |]. rewrite <- Hprobe; [done |].
    eapply list_elem_of_delete_inv, list_elem_of_lookup_2, Hs. }
  assert (length (Paths.broken_entries entries') + 1
          = length (Paths.broken_entries entries)) as Hcount.
  { rewrite (broken_count_built _ _ _ _ Hb), (broken_count_built _ _ _ _ Hb1).
    apply (filter_delete_length _ _ _ seg); [done |].
    by rewrite <- (built_from_broken _ _ _ _ Hbe). }
  exists st', raw1, entries'. rewrite Hparts. fold parts'.
  split; [done |]. split; [done |]. split; [done |]. split; [done |].
  split; [lia |]. split.
  - rewrite (Forall2_raw _ _ _ _ Hb), (Forall2_raw _ _ _ _ Hb1). done.
  - intros e0 e' [j0 Hj0]%list_elem_of_lookup [j' Hj']%list_elem_of_lookup Hraw.
    destruct (Forall2_lookup_r _ _ _ _ _ Hb Hj0) as (s0 & _ & Hb0).
    destruct (Forall2_lookup_r _ _ _ _ _ Hb1 Hj') as (s' & _ & Hb2).
    rewrite (built_from_broken _ _ _ _ Hb0), (built_from_broken _ _ _ _ Hb2).
    destruct Hb0 as [<- _], Hb2 as [<- _]. by rewrite Hraw.
Qed.

Lemma remove_broken_monotone_witness :
  let path := "/a:/b:/c" in
  let st := Scenario.state_of path ["/a"; "/b"; "/c"] ["2"; "p"; "q"] in
  ∃ e st' raw1 entries',
    Scenario.entries_of path !! 1 = Some e ∧
    length (Paths.broken_entries (Scenario.entries_of path)) = 3 ∧
    Paths._apply_fix_for_entry e st = (inr (), st') ∧
    Paths.st_parts st' = ["/a"; "/c"] ∧
    (Paths.reanalyze_with (Paths.rebuild_path (Paths.st_parts st')) st').1
      = inr (raw1, entries') ∧
    length (Paths.broken_entries entries') = 2.
Proof.
  intros path st.
  assert (∃ e, Scenario.entries_of path !! 1 = Some e ∧
               Paths.is_broken e = true ∧ Paths.index e = 2 ∧
               Paths.raw e = "/b") as (e & He & Hb & Hi & Hr)
    by (eexists; repeat split; vm_compute; reflexivity).
  assert (length (Paths.broken_entries (Scenario.entries_of path)) = 3) as H3
    by (vm_compute; reflexivity).
  destruct (remove_broken_monotone (os := Posix.os) st e "2" ["p"; "q"] []
              path (Scenario.entries_of path))
    as (st' & raw1 & entries' & Hrun & Hparts & Hsnap & Hcount & _).
  - repeat constructor; vm_compute; done.
  - reflexivity.
  - vm_compute. reflexivity.
  - by eapply list_elem_of_lookup_2.
  - exact Hb.
  - reflexivity.
  - reflexivity.
  - rewrite Hr. vm_compute. reflexivity.
  - exists e, st', raw1, entries'. rewrite Hi in Hparts.
    split; [exact He |]. split; [exact H3 |]. split; [exact Hrun |].
    split; [exact Hparts |]. split; [exact Hsnap | lia].
Defined.

(** C9 fails in a session that the program allows.  Replace-manual stored
    the typed text [/usr:/bad] (created on request) as one part, so the
    parts are [/usr:/bad] and [/usr/bin] while the snapshot rebuilt from
    them has three entries: [/usr], the broken [/bad] as number 2, and the
    healthy [/usr/bin] as number 3.  Remove, applied to the broken entry
    number 2, logs the removal of [/bad] and deletes position 1 of the
    parts, which holds [/usr/bin].  The snapshot rebuilt afterwards has
    lost the healthy entry and kept the broken one: the broken count is 1
    before and 1 after. *)
Theorem remove_deletes_healthy_part :
  let st := Paths.set_stdin
              (Scenario.session "/nope:/usr/bin"
                 ["1"; "3"; "/usr:/bad"; "y"]).2 ["2"] in
  ∃ raw0 entries e2 e3 st' raw1 entries',
    Paths.st_parts st = ["/usr:/bad"; "/usr/bin"] ∧
    (Paths.reanalyze_with (Paths.rebuild_path (Paths.st_parts st)) st).1
      = inr (raw0, entries) ∧
    Paths.raw <$> entries = ["/usr"; "/bad"; "/usr/bin"] ∧
    entries !! 1 = Some e2 ∧ Paths.index e2 = 2 ∧
    Paths.is_broken e2 = true ∧
    entries !! 2 = Some e3 ∧ Paths.is_broken e3 = false ∧
    Paths._apply_fix_for_entry e2 st = (inr (), st') ∧
    last (Paths.st_log st')
    = Some {| Paths.levelname := Paths.INFO;
              Paths.msg := "#%02d REMOVE | %s";
              Paths.args := [Paths.ArgInt 2; Paths.ArgStr "/bad"] |} ∧
    Paths.st_parts st' = ["/usr:/bad"] ∧
    (Paths.reanalyze_with (Paths.rebuild_path (Paths.st_parts st')) st').1
      = inr (raw1, entries') ∧
    Paths.raw <$> entries' = ["/usr"; "/bad"] ∧
    Paths.is_broken <$> entries' = [false; true] ∧
    length (Paths.broken_entries entries) = 1 ∧
    length (Paths.broken_entries entries') = 1.
Proof.
  intros st. do 7 eexists.
  split; [vm_compute; reflexivity |].
  split; [vm_compute; reflexivity |].
  split; [reflexivity |].
  split; [reflexivity |]. split; [reflexivity |]. split; [reflexivity |].
  split; [reflexivity |]. split; [reflexivity |].
  split; [vm_compute; reflexivity |].
  split; [reflexivity |]. split; [reflexivity |].
  split; [vm_compute; reflexivity |].
  split; [reflexivity |]. split; [reflexivity |].
  split; reflexivity.
Qed.

(** ** Suggestions *)

Section Suggestions.
Context `{os : OS}.
Import Py Paths.

Definition loop_list (r : loop_end) : list string :=
  match r with Returned l | Fell l => l end.

(** A loop that started below the limit ends at most at the limit, and
    below it when it runs to its end. *)
Definition within (limit : Z) (r : loop_end) : Prop :=
  match r with
  | Returned l => (Z.of_nat (length l) ≤ limit)%Z
  | Fell l => (Z.of_nat (length l) < limit)%Z
  end.

Lemma len_ge_spec (l : list string) limit :
  len_ge l limit = true ↔ (limit ≤ Z.of_nat (length l))%Z.
Proof. unfold len_ge. apply Z.leb_le. Qed.

Lemma suggest_children_within fs target_name limit ancestor names acc :
  (Z.of_nat (length acc) < limit)%Z →
  within limit (suggest_children fs target_name limit ancestor names acc).
Proof.
  revert acc. induction names as [|name names IH]; intros acc Hacc; simpl.
  - done.
  - destruct (path_is_dir _ _) as [?|[]]; [done | | by apply IH].
    destruct (_ && _); [| by apply IH].
    destruct (path_resolve _ _) as [?|s]; [done |].
    destruct (len_ge (acc ++ [s]) limit) eqn:E.
    + simpl. rewrite length_app. simpl. lia.
    + apply IH. apply not_true_iff_false in E. rewrite len_ge_spec in E. lia.
Qed.

Lemma suggest_children_extends fs target_name limit ancestor names acc :
  ∃ new,
    loop_list (suggest_children fs target_name limit ancestor names acc)
    = acc ++ new.
Proof.
  revert acc. induction names as [|name names IH]; intros acc; simpl.
  - exists []. by rewrite app_nil_r.
  - assert (∃ new, acc = acc ++ new) as Hsame
      by (exists []; by rewrite app_nil_r).
    destruct (path_is_dir _ _) as [?|[]]; [done | | by apply IH].
    destruct (_ && _); [| by apply IH].
    destruct (path_resolve _ _) as [?|s]; [done |].
    destruct (len_ge (acc ++ [s]) limit); [by exists [s] |].
    destruct (IH (acc ++ [s])) as [new ->].
    exists (s :: new). by rewrite <- app_assoc.
Qed.

(** What the loops of step 4 add: nothing already present, nothing
    twice. *)
Definition adds_fresh (acc : list string) (r : result loop_end) : Prop :=
  match r with
  | inl _ => True
  | inr le => ∃ new, loop_list le = acc ++ new ∧ NoDup new ∧
                     ∀ x, x ∈ new → x ∉ acc
  end.

Lemma adds_fresh_nothing acc le : loop_list le = acc → adds_fresh acc (inr le).
Proof.
  intros H. exists []. rewrite app_nil_r. split; [done |].
  split; [constructor | set_solver].
Qed.

Lemma adds_fresh_step acc s r :
  s ∉ acc → adds_fresh (acc ++ [s]) r → adds_fresh acc r.
Proof.
  intros Hs. destruct r as [?|le]; [done |].
  intros (new & Hl & Hnd & Hfresh). exists (s :: new).
  split; [by rewrite Hl, <- app_assoc |]. split.
  - constructor; [| done]. intros Hin. apply (Hfresh s Hin). set_solver.
  - intros x [->|Hx]%elem_of_cons; [done |].
    specialize (Hfresh x Hx). set_solver.
Qed.

Lemma adds_fresh_trans acc le r :
  adds_fresh acc (inr le) → adds_fresh (loop_list le) r → adds_fresh acc r.
Proof.
  destruct r as [?|le2]; [done |].
  intros (new1 & H1 & Hnd1 & Hf1) (new2 & H2 & Hnd2 & Hf2).
  rewrite H1 in H2, Hf2. exists (new1 ++ new2).
  split; [by rewrite H2, <- app_assoc |]. split.
  - apply NoDup_app. split; [done |]. split; [| done].
    intros x Hx1 Hx2. apply (Hf2 x Hx2). set_solver.
  - intros x [Hx|Hx]%elem_of_app; [by apply Hf1 |].
    specialize (Hf2 x Hx). set_solver.
Qed.

Lemma suggest_candidates_fresh fs limit candidates acc :
  adds_fresh acc (suggest_candidates fs limit candidates acc).
Proof.
  revert acc. induction candidates as [|c candidates IH]; intros acc; simpl.
  - exact (adds_fresh_nothing _ (Fell _) eq_refl).
  - destruct (exists_and_is_dir _ _) as [?|[]]; simpl; [done | | apply IH].
    destruct (path_resolve _ _) as [?|s]; simpl; [done |].
    case_bool_decide as Hin; [apply IH |].
    apply (adds_fresh_step acc s); [done |].
    destruct (len_ge _ _);
      [exact (adds_fresh_nothing _ (Returned _) eq_refl) | apply IH].
Qed.

Definition within_result (limit : Z) (r : result loop_end) : Prop :=
  match r with inl _ => True | inr le => within limit le end.

Lemma suggest_candidates_within fs limit candidates acc :
  (Z.of_nat (length acc) < limit)%Z →
  within_result limit (suggest_candidates fs limit candidates acc).
Proof.
  revert acc. induction candidates as [|c candidates IH]; intros acc Hacc; simpl.
  - done.
  - destruct (exists_and_is_dir _ _) as [?|[]]; simpl; [done | | by apply IH].
    destruct (path_resolve _ _) as [?|s]; simpl; [done |].
    case_bool_decide; [by apply IH |].
    destruct (len_ge (acc ++ [s]) limit) eqn:E.
    + simpl. rewrite length_app. simpl. lia.
    + apply IH. apply not_true_iff_false in E. rewrite len_ge_spec in E. lia.
Qed.

(** From here on the loops are used through the lemmas about them. *)
Local Arguments suggest_candidates : simpl never.

Lemma suggest_nearby_fresh rounds fs limit cur acc :
  adds_fresh acc (suggest_nearby rounds fs limit cur acc).
Proof.
  revert cur acc. induction rounds as [|rounds IH]; intros cur acc; simpl.
  - exact (adds_fresh_nothing _ (Fell _) eq_refl).
  - destruct (exists_and_is_dir _ _) as [?|ok]; simpl; [done |].
    assert (adds_fresh acc
              (if ok then suggest_candidates fs limit
                            [path_child cur "bin"; path_child cur "sbin"] acc
               else mret (Fell acc))) as H.
    { destruct ok; [apply suggest_candidates_fresh |].
      exact (adds_fresh_nothing _ (Fell _) eq_refl). }
    destruct (if ok then _ else _) as [?|[l|l]]; simpl; [done | done |].
    case_bool_decide; [done |].
    eapply adds_fresh_trans; [exact H | apply IH].
Qed.

Lemma suggest_nearby_within rounds fs limit cur acc :
  (Z.of_nat (length acc) < limit)%Z →
  within_result limit (suggest_nearby rounds fs limit cur acc).
Proof.
  revert cur acc. induction rounds as [|rounds IH]; intros cur acc Hacc; simpl.
  - done.
  - destruct (exists_and_is_dir _ _) as [?|ok]; simpl; [done |].
    assert (within_result limit
              (if ok then suggest_candidates fs limit
                            [path_child cur "bin"; path_child cur "sbin"] acc
               else mret (Fell acc))) as H.
    { destruct ok; [by apply suggest_candidates_within | done]. }
    destruct (if ok then _ else _) as [?|[l|l]]; simpl; [done | done |].
    case_bool_decide; [done |]. by apply IH.
Qed.

Lemma slice_to_below (l : list string) limit :
  (Z.of_nat (length l) < limit)%Z → slice_to l limit = l.
Proof.
  intros H. unfold slice_to. destruct (Z.leb_spec 0 limit); [| lia].
  apply take_ge. lia.
Qed.

Local Arguments suggest_nearby : simpl never.
Local Arguments suggest_children : simpl never.
Local Arguments closest_existing : simpl never.

(** Step 3 of [suggest_alternatives] on its own: the siblings of the
    missing name under the closest existing ancestor, in sorted order. *)
Definition siblings (fs : FS) (p : PurePath) (limit : Z)
  : result loop_end :=
  existing_ancestor ← closest_existing fs (root p) (rparts p);
  mret match existing_ancestor with
       | Some ancestor =>
           match path_iterdir fs (path_str ancestor) with
           | inl _ => Fell []
           | inr names =>
               suggest_children fs (path_name p) limit ancestor
                 (sorted names) []
           end
       | None => Fell []
       end.

(** For a limit of at least one, the list returned is within the limit;
    it starts with what step 3 found, and what step 4 added after it is
    without repetition and not among the step-3 results. *)
Lemma suggest_alternatives_positive_limit environ fs broken_path limit l :
  (1 ≤ limit)%Z →
  suggest_alternatives environ fs broken_path limit = inr l →
  (Z.of_nat (length l) ≤ limit)%Z ∧
  (l = [] ∨
   ∃ norm step3 step4,
     _safe_expand_and_normalize environ fs broken_path = inr norm ∧
     siblings fs (Path norm) limit = inr step3 ∧
     l = loop_list step3 ++ step4 ∧ NoDup step4 ∧
     ∀ x, x ∈ step4 → x ∉ loop_list step3).
Proof.
  intros Hlimit. unfold suggest_alternatives.
  destruct (_safe_expand_and_normalize _ _ _) as [?|norm] eqn:En; simpl;
    [done |].
  destruct (negb _); [intros [= <-]; simpl; split; [lia | by left] |].
  destruct (closest_existing _ _ _) as [?|anc] eqn:Ec; simpl; [done |].
  set (r3 := match anc with
             | Some ancestor =>
                 match path_iterdir fs (path_str ancestor) with
                 | inl _ => Fell []
                 | inr names =>
                     suggest_children fs (path_name (Path norm)) limit ancestor
                       (sorted names) []
                 end
             | None => Fell []
             end).
  assert (siblings fs (Path norm) limit = inr r3) as Hsib.
  { unfold siblings. simpl. rewrite Ec. done. }
  assert (within limit r3) as Hw3.
  { unfold r3. destruct anc as [a|]; [| simpl; lia].
    destruct (path_iterdir _ _); [simpl; lia |].
    apply suggest_children_within. simpl. lia. }
  clearbody r3. destruct r3 as [l3|l3].
  - intros [= <-]. split; [done |]. right. exists norm, (Returned l3), [].
    rewrite app_nil_r. repeat split; [done | constructor | set_solver].
  - simpl in Hw3.
    set (r4 := if bool_decide (path_name (Path norm) ∈ ["bin"; "sbin"])
               then suggest_nearby 4 fs limit (path_parent (Path norm)) l3
               else mret (Fell l3)).
    assert (within_result limit r4 ∧ adds_fresh l3 r4) as [Hw4 Hf4].
    { unfold r4. case_bool_decide.
      - split; [by apply suggest_nearby_within | apply suggest_nearby_fresh].
      - split; [done | exact (adds_fresh_nothing _ (Fell _) eq_refl)]. }
    clearbody r4. destruct r4 as [?|[l4|l4]]; simpl; [done | |].
    + intros [= <-]. split; [done |]. right.
      destruct Hf4 as (new & Hl & Hnd & Hfresh).
      exists norm, (Fell l3), new. done.
    + intros [= <-]. simpl in Hw4. rewrite slice_to_below by done.
      split; [lia |]. right.
      destruct Hf4 as (new & Hl & Hnd & Hfresh).
      exists norm, (Fell l3), new. done.
Qed.

End Suggestions.

(** C5 at the limit 0: with one sibling that matches, the early return
    after the first append hands back one suggestion, one more than the
    limit; the final [suggestions[:limit]] is never reached. *)
Theorem suggest_limit_zero_overshoots :
  Paths.suggest_alternatives (Scenario.environ_of "/opt/toolX/1.2")
    Scenario.disk "/opt/toolX/1.2" 0
  = inr ["/opt/toolX/1.2.1"] ∧
  Paths.slice_to ["/opt/toolX/1.2.1"] 0 = [].
Proof. split; vm_compute; reflexivity. Qed.

(** ** A session in which the user only quits *)

Section QuitAtOnce.
Context `{os : OS}.
Import Py Paths.

Lemma reanalyze_with_frame path_value st :
  st_parts (reanalyze_with path_value st).2 = st_parts st ∧
  st_stdin (reanalyze_with path_value st).2 = st_stdin st ∧
  st_log (reanalyze_with path_value st).2 = st_log st ∧
  st_fs (reanalyze_with path_value st).2 = st_fs st.
Proof. by rewrite reanalyze_with_state. Qed.

Lemma reanalyze_with_raw path_value st new_raw new_entries :
  (reanalyze_with path_value st).1 = inr (new_raw, new_entries) →
  new_raw = path_value.
Proof.
  rewrite reanalyze_with_result. unfold analyze_path.
  destruct (analyze_entries _ _ _ _ _ _); simpl; [done |].
  intros [= <- _]. unfold environ_get_PATH. by rewrite lookup_insert_eq.
Qed.

Lemma fix_loop_quit fuel st line rest :
  st_stdin st = line :: rest → lower (strip line) = "q" →
  fix_loop (S fuel) st
  = (inr (Some ()),
     set_log (set_stdin st rest)
       (st_log st ++ [ {| levelname := INFO; msg := "Fix session quit by user";
                          args := [] |} ])).
Proof. intros Hin Hq. cbn [fix_loop]. run_M. rewrite Hin. simpl. by rewrite Hq. Qed.

Local Arguments fix_loop : simpl never.

(** With [q] as the first command the parts stay the initial ones, and
    the string handed back is their join. *)
Lemma session_quit_at_once fuel raw_path entries st line rest :
  st_stdin st = line :: rest → lower (strip line) = "q" →
  let out := interactive_fix_broken_paths (S fuel) raw_path entries st in
  st_parts out.2 = initial_parts raw_path ∧
  (broken_entries entries ≠ [] →
   ∀ new_raw new_entries, out.1 = inr (Some (new_raw, new_entries)) →
     new_raw = rebuild_path (initial_parts raw_path)).
Proof.
  intros Hin Hq. unfold interactive_fix_broken_paths.
  destruct (broken_entries entries) as [|b bs] eqn:Hb.
  { run_M. split; [done |]. intros H. by destruct H. }
  run_M. set (st0 := set_log _ _).
  pose proof (reanalyze_with_frame (rebuild_path (initial_parts raw_path)) st0)
    as (Hp1 & Hs1 & _).
  destruct (reanalyze_with (rebuild_path (initial_parts raw_path)) st0)
    as [[?|[raw1 ents1]] st1]; simpl in *; [done |].
  rewrite (fix_loop_quit fuel st1 line rest) by (by rewrite ?Hs1). simpl.
  rewrite Hp1. simpl. set (st2 := set_log _ _).
  pose proof (reanalyze_with_frame (rebuild_path (initial_parts raw_path)) st2)
    as (Hp2 & _).
  pose proof (reanalyze_with_raw (rebuild_path (initial_parts raw_path)) st2)
    as Hraw.
  destruct (reanalyze_with (rebuild_path (initial_parts raw_path)) st2)
    as [[?|[raw2 ents2]] st3]; simpl in *; rewrite Hp2; subst st2; simpl.
  - split; [done |]. by intros _ ? ? [=].
  - split; [done |]. intros _ new_raw new_entries [= <- <-]. by eapply Hraw.
Qed.

End QuitAtOnce.

(** The match of the shadow test ends on a segment boundary: a prefix
    that stops inside a segment does not count. *)
Example shadow_test_not_a_prefix_test :
  Py.startswith "/usr/local2/bin" "/usr/local" = true ∧
  Paths.shadow_test "/usr/local" "/usr/local2/bin" = false ∧
  Paths.shadow_test "/usr/local" "/usr/local/bin" = true ∧
  Paths.shadow_test "/" "/usr" = true.
Proof. repeat split. Qed.

(** ** Substrings and the two regular expressions *)

Section Regex.
Import Py Paths.

Lemma contains_spec n s :
  contains n s = true ↔ ∃ pre post, s = pre +:+ n +:+ post.
Proof.
  split.
  - induction s as [|c s IH]; simpl; rewrite orb_true_iff.
    + intros [[r Hr]%startswith_true|?]; [| done]. by exists "", r.
    + intros [[r Hr]%startswith_true|(pre & post & ->)%IH].
      * by exists "", r.
      * by exists (String c pre), post.
  - intros (pre & post & ->). induction pre as [|c pre IH].
    + destruct (n +:+ post) eqn:E; simpl; apply orb_true_iff; left;
        apply startswith_true; exists post; by rewrite <- E.
    + rewrite app_cons_str. simpl. rewrite IH. apply orb_true_r.
Qed.

Lemma re_search_spec here s :
  re_search here s = true ↔ ∃ pre t, s = pre +:+ t ∧ here t = true.
Proof.
  split.
  - induction s as [|c s IH]; simpl; rewrite orb_true_iff.
    + intros [H|?]; [| done]. by exists "", "".
    + intros [H|(pre & t & -> & Ht)%IH].
      * by exists "", (String c s).
      * by exists (String c pre), t.
  - intros (pre & t & -> & Ht). induction pre as [|c pre IH].
    + destruct t; simpl; by rewrite Ht.
    + rewrite app_cons_str. simpl. rewrite IH. apply orb_true_r.
Qed.

(** [/versions/node/v\d+]: the literal and at least one digit. *)
Lemma re_node_here_spec t :
  re_node_here t = true ↔
  ∃ d rest, t = "/versions/node/v" +:+ String d rest ∧ is_digit d = true.
Proof.
  unfold re_node_here. split.
  - destruct (strip_prefix _ t) as [[|d rest]|] eqn:E; try done.
    apply strip_prefix_Some in E. eauto.
  - intros (d & rest & -> & Hd).
    by rewrite (proj2 (strip_prefix_Some _ _ (String d rest)) eq_refl).
Qed.

(** A string of digits, not empty. *)
Definition digits1 (ds : string) : Prop :=
  ds ≠ "" ∧ all_digits ds = true.

Lemma drop_digits_app ds r :
  all_digits ds = true →
  match r with String c _ => is_digit c = false | EmptyString => True end →
  drop_digits (ds +:+ r) = r.
Proof.
  intros Hds Hr. induction ds as [|c ds IH]; simpl in *.
  - destruct r as [|c r]; [done |]. simpl. by rewrite Hr.
  - apply andb_true_iff in Hds as [Hc Hds]. rewrite Hc. by apply IH.
Qed.

Lemma drop_digits_split s :
  ∃ ds, s = ds +:+ drop_digits s ∧ all_digits ds = true ∧
        match drop_digits s with
        | String c _ => is_digit c = false
        | EmptyString => True
        end.
Proof.
  induction s as [|c s (ds & Hs & Hds & Hr)]; simpl.
  - by exists "".
  - destruct (is_digit c) eqn:Hc.
    + exists (String c ds). rewrite app_cons_str, <- Hs. simpl.
      by rewrite Hc, Hds.
    + exists "". simpl. by rewrite Hc.
Qed.

(** [/python\d+(\.\d+)?/]: the literal, digits, perhaps a dot and digits,
    then a separator. *)
Lemma re_python_here_spec t :
  re_python_here t = true ↔
  ∃ ds opt rest,
    t = "/python" +:+ ds +:+ opt +:+ String "/" rest ∧ digits1 ds ∧
    (opt = "" ∨ ∃ ds2, opt = String "." ds2 ∧ digits1 ds2).
Proof.
  unfold re_python_here. split.
  - destruct (strip_prefix _ t) as [[|c r]|] eqn:E; try done.
    apply strip_prefix_Some in E. intros [Hc H]%andb_true_iff.
    destruct (drop_digits_split r) as (ds & Hr & Hds & Hnext).
    destruct (drop_digits r) as [|x r1] eqn:Er; [done |].
    assert (digits1 (String c ds)) as Hd1
      by (split; [done | simpl; by rewrite Hc, Hds]).
    destruct (Ascii.eqb_spec x "/") as [->|Hx].
    { exists (String c ds), "", r1. split; [| by split; [| left]].
      by rewrite E, Hr, !app_cons_str. }
    destruct (Ascii.eqb_spec x ".") as [->|Hx2].
    2: { exfalso. clear -H Hx Hx2.
         destruct x as [[] [] [] [] [] [] [] []]; try done. }
    destruct r1 as [|d r2]; [done |].
    apply andb_true_iff in H as [Hd H].
    destruct (drop_digits_split r2) as (ds2 & Hr2 & Hds2 & Hnext2).
    destruct (drop_digits r2) as [|y r3] eqn:Er2; [done |].
    destruct (Ascii.eqb_spec y "/") as [->|Hy].
    2: { exfalso. clear -H Hy.
         destruct y as [[] [] [] [] [] [] [] []]; try done. }
    exists (String c ds), (String "." (String d ds2)), r3.
    split; [| split; [done | right]].
    + by rewrite E, Hr, Hr2, !app_cons_str.
    + exists (String d ds2). split; [done |].
      split; [done | simpl; by rewrite Hd, Hds2].
  - intros (ds & opt & rest & -> & [Hne Hds] & Hopt).
    rewrite (proj2 (strip_prefix_Some _ _ (ds +:+ opt +:+ String "/" rest))
               eq_refl).
    destruct ds as [|c ds]; [done |]. simpl in Hds.
    apply andb_true_iff in Hds as [Hc Hds]. rewrite app_cons_str, Hc. simpl.
    destruct Hopt as [->|(ds2 & -> & Hne2 & Hds2)].
    + change ("" +:+ String "/" rest) with (String "/" rest).
      by rewrite (drop_digits_app ds (String "/" rest)).
    + rewrite app_cons_str.
      rewrite (drop_digits_app ds (String "." (ds2 +:+ String "/" rest)))
        by done.
      destruct ds2 as [|d ds2]; [done |]. simpl in Hds2.
      apply andb_true_iff in Hds2 as [Hd Hds2]. rewrite app_cons_str, Hd.
      simpl. by rewrite (drop_digits_app ds2 (String "/" rest)).
Qed.

End Regex.

(** * Further properties of the program *)

(** ** The shape of a snapshot and when the analysis raises *)

Section SnapshotShape.
Context `{os : OS}.
Import Py Paths.

Lemma normalize_dir_inl environ fs p ex :
  normalize_dir environ fs p = inl ex ↔ expanduser_vars environ p = inl ex.
Proof.
  unfold normalize_dir.
  destruct (expanduser_vars environ p) as [ex'|x]; simpl; [done |].
  destruct (path_exists fs x) as [?|[]]; simpl; try done.
  by destruct (path_resolve fs x).
Qed.

Definition segment_readable (environ : gmap string string) (fs : FS)
    (raw : string) : Prop :=
  ∃ x b, expanduser_vars environ raw = inr x ∧ path_exists fs x = inr b ∧
         (b = true → ∃ d, path_is_dir fs x = inr d).

Lemma probe_readable environ fs raw :
  (∃ r, probe environ fs raw = inr r) ↔ segment_readable environ fs raw.
Proof.
  unfold probe, segment_readable.
  destruct (expanduser_vars environ raw) as [ex|x] eqn:E; simpl.
  { split; [by intros [? ?] | intros (? & ? & ? & _); simplify_eq]. }
  destruct (normalize_dir environ fs raw) as [ex|n] eqn:En; simpl.
  { apply normalize_dir_inl in En. congruence. }
  destruct (path_exists fs x) as [ex|b] eqn:Eb; simpl.
  { split; [by intros [? ?] | intros (? & ? & ? & ? & _); simplify_eq; congruence]. }
  destruct b; simpl.
  - destruct (path_is_dir fs x) as [ex|d] eqn:Ed; simpl.
    + split; [by intros [? ?] |].
      intros (x' & b' & Hx & Hb & H). injection Hx as <-. rewrite Eb in Hb.
      injection Hb as <-. destruct (H eq_refl) as [d Hd]. rewrite Ed in Hd.
      discriminate Hd.
    + split; [| by eexists]. intros _. exists x, true. eauto.
  - split; [| by eexists]. intros _. exists x, false. by repeat split.
Qed.

Lemma analyze_entries_probe environ fs parts idx seen acc out :
  analyze_entries environ fs parts idx seen acc = inr out →
  Forall (λ raw, ∃ r, probe environ fs raw = inr r) parts.
Proof.
  intros (new & _ & H)%analyze_entries_built.
  induction H as [|raw e parts new [_ Hp] _ IH]; constructor; eauto.
Qed.

Lemma analyze_path_readable environ fs :
  (∃ r, analyze_path environ fs = inr r) ↔
  Forall (segment_readable environ fs)
    (split_path (environ_get_PATH environ)).
Proof.
  split.
  - intros [[[raw_path entries] grouped] Hrun].
    unfold analyze_path in Hrun.
    destruct (analyze_entries _ _ _ _ _ _) as [|ents] eqn:E; [done |].
    apply analyze_entries_probe in E.
    eapply Forall_impl; [exact E |]. intros raw. apply probe_readable.
  - intros H.
    destruct (analyze_path_returns environ fs) as (entries & grouped & ->).
    + eapply Forall_impl; [exact H |]. intros raw. apply probe_readable.
    + by eexists.
Qed.

Lemma analyze_path_in_order environ fs raw_path entries grouped :
  analyze_path environ fs = inr (raw_path, entries, grouped) →
  raw_path = environ_get_PATH environ ∧
  length entries = length (split_path raw_path) ∧
  ∀ i e, entries !! i = Some e →
    index e = S i ∧ split_path raw_path !! i = Some (raw e).
Proof.
  intros Hrun.
  assert (raw_path = environ_get_PATH environ) as ->.
  { revert Hrun. unfold analyze_path.
    destruct (analyze_entries _ _ _ _ _ _); simpl; [done |].
    by intros [= <- _ _]. }
  pose proof (analyze_path_built _ _ _ _ _ Hrun) as Hb.
  split; [done |]. split; [symmetry; by eapply Forall2_length |].
  intros i e He. split; [by eapply analyze_path_index |].
  destruct (Forall2_lookup_r _ _ _ _ _ Hb He) as (seg & Hseg & Hraw & _).
  by rewrite Hseg, Hraw.
Qed.

End SnapshotShape.

(** X1: in every snapshot that analyze_path returns, raw_path is what
    os.environ.get("PATH", "") reads, the entries are as many as the
    segments of raw_path, and the entry at position i (from 0) has index
    i + 1 and the i-th segment as its raw text. *)
Theorem snapshot_entries_in_path_order `{os : OS} environ fs raw_path entries
    grouped :
  Paths.analyze_path environ fs = inr (raw_path, entries, grouped) →
  raw_path = Paths.environ_get_PATH environ ∧
  length entries = length (Paths.split_path raw_path) ∧
  ∀ i e, entries !! i = Some e →
    Paths.index e = S i ∧ Paths.split_path raw_path !! i = Some (Paths.raw e).
Proof. apply analyze_path_in_order. Qed.

Lemma snapshot_entries_in_path_order_witness :
  let path := "/usr/bin::/nonexistent" in
  let entries := Scenario.entries_of path in
  length entries = 3 ∧
  ∀ i e, entries !! i = Some e →
    Paths.index e = S i ∧ Paths.split_path path !! i = Some (Paths.raw e).
Proof.
  intros path entries.
  assert (∃ grouped,
    Paths.analyze_path (Scenario.environ_of path) Scenario.disk
    = inr (path, entries, grouped)) as [grouped E]
    by (eexists; vm_compute; reflexivity).
  destruct (snapshot_entries_in_path_order _ _ _ _ _ E) as (_ & Hlen & H).
  split; [exact Hlen | exact H].
Defined.

(** X2: with PATH unset or empty the analysis asks nothing of the
    platform and returns the empty snapshot (no entry, no group); with any other
    PATH a snapshot that is returned has at least one entry and one
    group. *)
Theorem snapshot_empty_iff_no_PATH `{os : OS} environ fs :
  (Paths.environ_get_PATH environ = "" ∧
   Paths.analyze_path environ fs = inr ("", [], [])) ∨
  (Paths.environ_get_PATH environ ≠ "" ∧
   ∀ raw_path entries grouped,
     Paths.analyze_path environ fs = inr (raw_path, entries, grouped) →
     entries ≠ [] ∧ grouped ≠ []).
Proof.
  destruct (decide (Paths.environ_get_PATH environ = "")) as [E|E].
  - left. split; [done |]. unfold Paths.analyze_path. by rewrite E.
  - right. split; [done |]. intros raw_path entries grouped Hrun.
    destruct (analyze_path_in_order _ _ _ _ _ Hrun) as (-> & Hlen & _).
    assert (entries ≠ []) as Hne.
    { intros ->. simpl in Hlen. unfold Paths.split_path in Hlen.
      destruct (Paths.environ_get_PATH environ) as [|c s] eqn:Ep; [done |].
      simpl Py.truthy in Hlen. cbv iota in Hlen.
      pose proof (split_nonempty Py.os_pathsep (String c s)) as Hs.
      destruct (Py.split _ _); [done | simpl in Hlen; lia]. }
    split; [done |].
    revert Hrun. unfold Paths.analyze_path.
    destruct (Paths.analyze_entries _ _ _ _ _ _) as [|ents]; simpl; [done |].
    intros [= <- <-]. 
    destruct (Paths.compute_shadowing ents) as [|e es]; [done |].
    simpl. clear.
    assert (∀ g, g ≠ [] → foldl Paths.group_append g es ≠ []) as Hg.
    { induction es as [|e' es IH]; intros g Hg; simpl; [done |].
      apply IH. destruct g as [|[c0 l0] g]; simpl; [done |].
      by destruct (String.eqb _ _). }
    by apply Hg.
Qed.

(** X4: analyze_path returns (rather than raises) exactly when, for
    every segment of PATH, the expansion returns, exists() on the expanded
    path returns, and is_dir() returns where exists() answered yes. *)
Theorem analyze_path_returns_iff `{os : OS} environ fs :
  (∃ r, Paths.analyze_path environ fs = inr r) ↔
  Forall (segment_readable environ fs)
    (Paths.split_path (Paths.environ_get_PATH environ)).
Proof. apply analyze_path_readable. Qed.

(** X5: normalize_dir raises exactly when the expansion of its
    argument raises, and then with that exception: what exists() or
    resolve() raise is swallowed by the try block. *)
Theorem normalize_dir_raises_iff `{os : OS} environ fs p ex :
  Paths.normalize_dir environ fs p = inl ex ↔ expanduser_vars environ p = inl ex.
Proof. apply normalize_dir_inl. Qed.

(** ** Grouping by category *)

Section Grouping.
Import Py Paths.

(** The entries of one category, in the order of the list. *)
Definition in_category (c : string) (e : Entry) : bool :=
  String.eqb c (category e).

Record grouping (entries : list Entry)
    (grouped : list (string * list Entry)) : Prop := {
  grouping_keys : NoDup grouped.*1;
  grouping_group : ∀ c es, (c, es) ∈ grouped →
    es ≠ [] ∧ es = List.filter (in_category c) entries;
  grouping_total : ∀ e, e ∈ entries → category e ∈ grouped.*1;
}.

Lemma group_append_keys g e :
  (group_append g e).*1
  = g.*1 ++ (if bool_decide (category e ∈ g.*1) then [] else [category e]).
Proof.
  induction g as [|[c0 l0] g IH]; [done |].
  cbn [group_append].
  destruct (String.eqb c0 (category e)) eqn:E; rewrite !fmap_cons; cbn [fst].
  - apply String.eqb_eq in E as ->.
    rewrite bool_decide_eq_true_2 by set_solver. by rewrite app_nil_r.
  - apply String.eqb_neq in E. rewrite IH. cbn [app]. f_equal. f_equal.
    case_bool_decide as H1; case_bool_decide as H2; try done.
    + exfalso. apply H2. by apply list_elem_of_further.
    + apply elem_of_cons in H2 as [?|?]; done.
Qed.

Lemma group_append_elem g e c es :
  NoDup g.*1 → (c, es) ∈ group_append g e →
  (c ≠ category e ∧ (c, es) ∈ g) ∨
  (c = category e ∧
   ∃ es0, es = es0 ++ [e] ∧ ((c, es0) ∈ g ∨ (es0 = [] ∧ c ∉ g.*1))).
Proof.
  induction g as [|[c0 l0] g IH]; simpl.
  - intros _ [= -> ->]%list_elem_of_singleton. right. split; [done |].
    exists []. split; [done |]. right. split; [done | set_solver].
  - intros [Hc0 Hnd]%NoDup_cons.
    destruct (String.eqb c0 (category e)) eqn:E.
    + apply String.eqb_eq in E as ->.
      intros [[= -> ->]|Hin]%elem_of_cons.
      * right. split; [done |]. exists l0. split; [done |]. left. set_solver.
      * left. split; [| set_solver]. intros ->. apply Hc0.
        apply list_elem_of_fmap. by exists (category e, es).
    + apply String.eqb_neq in E.
      intros [[= -> ->]|Hin]%elem_of_cons.
      * left. split; [done | set_solver].
      * destruct (IH Hnd Hin) as [[Hne Hg]|[-> (es0 & -> & H)]].
        -- left. split; [done | by apply list_elem_of_further].
        -- right. split; [done |]. exists es0. split; [done |].
           destruct H as [H|[-> H]]; [left; by apply list_elem_of_further |].
           right. split; [done |].
           intros [?|?]%elem_of_cons; done.
Qed.

Lemma filter_snoc_category c l e :
  List.filter (in_category c) (l ++ [e])
  = List.filter (in_category c) l ++ (if in_category c e then [e] else []).
Proof. rewrite List.filter_app. simpl. by destruct (in_category c e). Qed.

Lemma filter_none {A : Type} (f : A → bool) (l : list A) :
  (∀ x, x ∈ l → f x = false) → List.filter f l = [].
Proof.
  induction l as [|x l IH]; intros H; simpl; [done |].
  rewrite (H x) by apply list_elem_of_here.
  apply IH. intros y Hy. apply H. by apply list_elem_of_further.
Qed.

Lemma grouping_step entries g e :
  grouping entries g → grouping (entries ++ [e]) (group_append g e).
Proof.
  intros [Hk Hg Ht]. split.
  - rewrite group_append_keys. case_bool_decide; [by rewrite app_nil_r |].
    apply NoDup_app. split; [done |]. split; [| apply NoDup_singleton].
    by intros x Hx ->%list_elem_of_singleton.
  - intros c es [[Hne Hin]|[-> (es0 & -> & H)]]%group_append_elem; [| | done].
    + destruct (Hg c es Hin) as [H1 H2]. split; [done |].
      rewrite filter_snoc_category. unfold in_category at 2.
      apply String.eqb_neq in Hne. rewrite Hne. by rewrite app_nil_r.
    + split; [by destruct es0 |].
      rewrite filter_snoc_category. unfold in_category at 2.
      rewrite String.eqb_refl. f_equal.
      destruct H as [H|[-> H]]; [by apply Hg |].
      symmetry. apply filter_none.
      intros x Hx. unfold in_category.
      apply String.eqb_neq. intros Hc. apply H. rewrite Hc. by apply Ht.
  - intros x. rewrite group_append_keys.
    intros [Hx| ->%list_elem_of_singleton]%elem_of_app.
    + apply elem_of_app. left. by apply Ht.
    + case_bool_decide; [by rewrite app_nil_r |].
      apply elem_of_app. right. by apply list_elem_of_singleton.
Qed.

Lemma grouping_foldl l entries g :
  grouping entries g → grouping (entries ++ l) (foldl group_append g l).
Proof.
  revert entries g. induction l as [|e l IH]; intros entries g H; simpl.
  - by rewrite app_nil_r.
  - rewrite cons_middle, (assoc_L (++) entries [e] l). apply IH. by apply grouping_step.
Qed.

Lemma grouping_nil : grouping [] [].
Proof. split; [constructor | set_solver | set_solver]. Qed.

End Grouping.

(** X3: in every snapshot the groups have distinct categories, the
    group of a category is not empty and holds exactly the entries of that
    category in snapshot order, and every entry is in the group of its
    category. *)
Theorem snapshot_grouped_by_category `{os : OS} environ fs raw_path entries
    grouped :
  Paths.analyze_path environ fs = inr (raw_path, entries, grouped) →
  NoDup grouped.*1 ∧
  (∀ c es, (c, es) ∈ grouped →
     es ≠ [] ∧
     es = List.filter (λ e, String.eqb c (Paths.category e)) entries) ∧
  (∀ e, e ∈ entries → ∃ es, (Paths.category e, es) ∈ grouped ∧ e ∈ es).
Proof.
  unfold Paths.analyze_path.
  destruct (Paths.analyze_entries _ _ _ _ _ _) as [|ents]; simpl; [done |].
  intros [= _ <- <-].
  pose proof (grouping_foldl (Paths.compute_shadowing ents) [] [] grouping_nil)
    as [Hk Hg Ht].
  simpl in *. split; [done |]. split; [exact Hg |].
  intros e He. pose proof (Ht e He) as ([c es] & Hc & Hin)%list_elem_of_fmap.
  simpl in Hc. subst c. exists es. split; [done |].
  destruct (Hg _ _ Hin) as [_ ->].
  apply list_elem_of_In, List.filter_In. split; [by apply list_elem_of_In |].
  apply String.eqb_refl.
Qed.

Lemma snapshot_grouped_by_category_witness :
  let path := "/usr/bin:/usr/local/bin:/opt:/usr/sbin" in
  let entries := Scenario.entries_of path in
  ∃ grouped,
    Paths.analyze_path (Scenario.environ_of path) Scenario.disk
    = inr (path, entries, grouped) ∧
    grouped.*1 = ["System"; "Homebrew"; "Other / Unknown"] ∧
    NoDup grouped.*1 ∧
    ∀ c es, (c, es) ∈ grouped →
      es ≠ [] ∧
      es = List.filter (λ e, String.eqb c (Paths.category e)) entries.
Proof.
  intros path entries.
  assert (∃ grouped,
    Paths.analyze_path (Scenario.environ_of path) Scenario.disk
    = inr (path, entries, grouped) ∧
    grouped.*1 = ["System"; "Homebrew"; "Other / Unknown"])
    as (grouped & E & Hk)
    by (eexists; split; vm_compute; reflexivity).
  destruct (snapshot_grouped_by_category _ _ _ _ _ E) as (Hnd & Hg & _).
  exists grouped. split; [exact E |]. split; [exact Hk |].
  split; [exact Hnd | exact Hg].
Defined.

(** ** Flags and the JSON summary *)

Section Report.
Context `{os : OS}.
Import Py Paths.

Lemma indices_sorted (f : Entry → bool) l k :
  (∀ i e, l !! i = Some e → index e = k + i) →
  StronglySorted lt (index <$> List.filter f l) ∧
  Forall (λ n, k ≤ n < k + length l) (index <$> List.filter f l).
Proof.
  revert k. induction l as [|x l IH]; intros k H; simpl.
  - split; constructor.
  - destruct (IH (S k)) as [Hs Hb].
    { intros i e He. rewrite (H (S i) e He). lia. }
    assert (Forall (λ n, k ≤ n < k + S (length l))
              (index <$> List.filter f l)) as Hb'.
    { eapply Forall_impl; [exact Hb |]. simpl. intros; lia. }
    destruct (f x); [| done]. rewrite fmap_cons.
    pose proof (H 0 x eq_refl) as Hx. split.
    + constructor; [done |]. eapply Forall_impl; [exact Hb |].
      simpl. intros; lia.
    + constructor; [lia | done].
Qed.

Lemma index_in_filter (f : Entry → bool) l e :
  (∀ i e, l !! i = Some e → index e = S i) → e ∈ l →
  index e ∈ index <$> List.filter f l ↔ f e = true.
Proof.
  intros Hidx He. split.
  - intros (e' & Hi & [He' Hf]%list_elem_of_In%List.filter_In)%list_elem_of_fmap.
    apply list_elem_of_In, list_elem_of_lookup in He' as [i' Hi'].
    apply list_elem_of_lookup in He as [i Hl].
    rewrite (Hidx _ _ Hi'), (Hidx _ _ Hl) in Hi. simplify_eq. done.
  - intros Hf. apply list_elem_of_fmap. exists e. split; [done |].
    apply list_elem_of_In, List.filter_In. split; [by apply list_elem_of_In | done].
Qed.

Lemma first_entry_clean environ fs raw_path entries grouped e :
  analyze_path environ fs = inr (raw_path, entries, grouped) →
  entries !! 0 = Some e → duplicate_of e = None ∧ shadowed_by e = None.
Proof.
  intros (seen & ents & Hinv & ->)%analyze_path_inv
    (e0 & He0 & _ & _ & _ & _ & _ & _ & Hd & Hs)%compute_shadowing_lookup.
  simpl in Hs. rewrite Hd, Hs. split; [| by eapply inv_shadow].
  destruct (inv_dup _ _ Hinv 0 e0 He0) as (k & Hk & Hm).
  destruct (duplicate_of e0) as [k'|]; [| done].
  destruct Hm as [-> Hlt].
  destruct (inv_seen _ _ Hinv _ _ Hk) as (_ & _ & H1 & _). lia.
Qed.

Lemma badge_BROKEN e : "BROKEN" ∈ status_badges e ↔ is_broken e = true.
Proof.
  unfold status_badges, is_broken.
  destruct (negb (exists_ e) || negb (is_dir e)), (duplicate_of e),
    (shadowed_by e); simpl; split; try done;
    try (intros _; apply list_elem_of_here);
    rewrite ?elem_of_cons, elem_of_nil, ?app_cons_str; intros H;
    repeat (destruct H as [H|H]; [discriminate H |]); done.
Qed.

Lemma badge_DUP e :
  (∃ k, "DUP(" +:+ fmt_02d k +:+ ")" ∈ status_badges e)
  ↔ is_duplicate e = true.
Proof.
  unfold status_badges, is_duplicate.
  destruct (negb (exists_ e) || negb (is_dir e)), (duplicate_of e) as [d|],
    (shadowed_by e); simpl; split; try done;
    try (intros _; exists d; rewrite !elem_of_cons; tauto);
    intros [k H]; revert H;
    rewrite ?elem_of_cons, elem_of_nil, ?app_cons_str; intros H;
    repeat (destruct H as [H|H]; [discriminate H |]); done.
Qed.

Lemma badge_SHADOW e :
  (∃ k, "SHADOW(" +:+ fmt_02d k +:+ ")" ∈ status_badges e)
  ↔ is_shadowed e = true.
Proof.
  unfold status_badges, is_shadowed.
  destruct (negb (exists_ e) || negb (is_dir e)), (duplicate_of e),
    (shadowed_by e) as [d|]; simpl; split; try done;
    try (intros _; exists d; rewrite !elem_of_cons; tauto);
    intros [k H]; revert H;
    rewrite ?elem_of_cons, elem_of_nil, ?app_cons_str; intros H;
    repeat (destruct H as [H|H]; [discriminate H |]); done.
Qed.

Lemma badges_nil e :
  status_badges e = [] ↔
  is_broken e = false ∧ is_duplicate e = false ∧ is_shadowed e = false.
Proof.
  unfold status_badges, is_broken, is_duplicate, is_shadowed.
  destruct (negb (exists_ e) || negb (is_dir e)), (duplicate_of e),
    (shadowed_by e); simpl; split; try done; intros (? & ? & ?); done.
Qed.

End Report.

(** X12: in the JSON summary of a snapshot total_entries is the
    number of segments of raw_path, each of the lists broken, duplicates
    and shadowed is strictly increasing with all its indices between 1 and
    total_entries, and index 1 is never listed as a duplicate or as
    shadowed. *)
Theorem json_summary_lists `{os : OS} environ fs raw_path entries grouped lf :
  Paths.analyze_path environ fs = inr (raw_path, entries, grouped) →
  let s := Paths.summary (Paths.make_json raw_path entries lf) in
  Paths.total_entries s = length (Paths.split_path raw_path) ∧
  Forall (λ l, StronglySorted lt l ∧
               Forall (λ k, 1 ≤ k ≤ Paths.total_entries s) l)
    [Paths.summary_broken s; Paths.summary_duplicates s;
     Paths.summary_shadowed s] ∧
  (1 ∉ Paths.summary_duplicates s) ∧ (1 ∉ Paths.summary_shadowed s).
Proof.
  intros Hrun. simpl.
  assert (Hidx : ∀ i e, entries !! i = Some e → Paths.index e = S i)
    by (intros; by eapply analyze_path_index).
  assert (Hlen : length entries = length (Paths.split_path raw_path)).
  { pose proof (analyze_path_built _ _ _ _ _ Hrun) as Hb.
    apply Forall2_length in Hb. rewrite <- Hb. f_equal. f_equal.
    revert Hrun. unfold Paths.analyze_path.
    destruct (Paths.analyze_entries _ _ _ _ _ _); simpl; [done |].
    by intros [= <- _ _]. }
  split; [done |].
  assert (∀ f, StronglySorted lt (Paths.index <$> List.filter f entries) ∧
               Forall (λ k, 1 ≤ k ≤ length entries)
                 (Paths.index <$> List.filter f entries)) as Hall.
  { intros f. destruct (indices_sorted f entries 1) as [Hs Hb].
    { intros i e He. rewrite (Hidx i e He). lia. }
    split; [done |]. eapply Forall_impl; [exact Hb |]. simpl. intros; lia. }
  split; [repeat constructor; apply Hall |].
  assert (∀ f, (∀ e, f e = true →
                 Paths.duplicate_of e ≠ None ∨ Paths.shadowed_by e ≠ None) →
               1 ∉ Paths.index <$> List.filter f entries) as Hfirst.
  { intros f Hf (e & Hi & [He Hfe]%list_elem_of_In%List.filter_In)
                  %list_elem_of_fmap.
    apply list_elem_of_In, list_elem_of_lookup in He as [i Hl].
    rewrite (Hidx _ _ Hl) in Hi. injection Hi as <-.
    destruct (first_entry_clean _ _ _ _ _ _ Hrun Hl) as [Hd Hs].
    destruct (Hf e Hfe); done. }
  split; apply Hfirst; intros e; unfold Paths.is_duplicate, Paths.is_shadowed.
  - destruct (Paths.duplicate_of e); [by left | done].
  - destruct (Paths.shadowed_by e); [by right | done].
Qed.

Lemma json_summary_lists_witness :
  let path := "/usr:/nonexistent:/usr/bin:/usr" in
  let entries := Scenario.entries_of path in
  let s := Paths.summary (Paths.make_json path entries "run.log") in
  Paths.total_entries s = 4 ∧
  Paths.summary_broken s = [2] ∧ Paths.summary_duplicates s = [4] ∧
  Paths.summary_shadowed s = [3] ∧
  Forall (λ l, StronglySorted lt l ∧
               Forall (λ k, 1 ≤ k ≤ Paths.total_entries s) l)
    [Paths.summary_broken s; Paths.summary_duplicates s;
     Paths.summary_shadowed s].
Proof.
  intros path entries s.
  assert (∃ grouped,
    Paths.analyze_path (Scenario.environ_of path) Scenario.disk
    = inr (path, entries, grouped)) as [grouped E]
    by (eexists; vm_compute; reflexivity).
  destruct (json_summary_lists _ _ _ _ _ "run.log" E) as (_ & H & _).
  split; [vm_compute; reflexivity |].
  split; [vm_compute; reflexivity |].
  split; [vm_compute; reflexivity |].
  split; [vm_compute; reflexivity | exact H].
Defined.

(** X11: in the JSON document of a snapshot the flags of an entry
    agree with the summary: BROKEN is among the flags exactly when the
    index is in summary.broken, a DUP(..) flag exactly when it is in
    summary.duplicates, a SHADOW(..) flag exactly when it is in
    summary.shadowed, and the flags are empty exactly when the index is in
    none of the three lists. *)
Theorem json_flags_match_summary `{os : OS} environ fs raw_path entries grouped
    lf :
  Paths.analyze_path environ fs = inr (raw_path, entries, grouped) →
  let s := Paths.summary (Paths.make_json raw_path entries lf) in
  ∀ e, e ∈ entries →
    ("BROKEN" ∈ Paths.status_badges e ↔
     Paths.index e ∈ Paths.summary_broken s) ∧
    ((∃ k, "DUP(" +:+ Paths.fmt_02d k +:+ ")" ∈ Paths.status_badges e) ↔
     Paths.index e ∈ Paths.summary_duplicates s) ∧
    ((∃ k, "SHADOW(" +:+ Paths.fmt_02d k +:+ ")" ∈ Paths.status_badges e) ↔
     Paths.index e ∈ Paths.summary_shadowed s) ∧
    (Paths.status_badges e = [] ↔
     Paths.index e ∉ Paths.summary_broken s ++ Paths.summary_duplicates s
                     ++ Paths.summary_shadowed s).
Proof.
  intros Hrun s e He. subst s. simpl.
  assert (Hidx : ∀ i e, entries !! i = Some e → Paths.index e = S i)
    by (intros; by eapply analyze_path_index).
  rewrite badge_BROKEN, badge_DUP, badge_SHADOW, badges_nil.
  rewrite !elem_of_app, !index_in_filter by done.
  split; [done |]. split; [done |]. split; [done |].
  destruct (Paths.is_broken e), (Paths.is_duplicate e), (Paths.is_shadowed e);
    split; try tauto;
    first [ by intros (? & ? & ?) | by intros _ [?|[?|?]] | intros H; exfalso; apply H; tauto ].
Qed.

Lemma json_flags_match_summary_witness :
  let path := "/usr:/nonexistent:/usr/bin:/usr" in
  let entries := Scenario.entries_of path in
  let s := Paths.summary (Paths.make_json path entries "run.log") in
  Paths.status_badges <$> entries
  = [[]; ["BROKEN"]; ["SHADOW(01)"]; ["DUP(01)"]] ∧
  ∀ e, e ∈ entries →
    ("BROKEN" ∈ Paths.status_badges e ↔
     Paths.index e ∈ Paths.summary_broken s).
Proof.
  intros path entries s.
  assert (∃ grouped,
    Paths.analyze_path (Scenario.environ_of path) Scenario.disk
    = inr (path, entries, grouped)) as [grouped E]
    by (eexists; vm_compute; reflexivity).
  split; [vm_compute; reflexivity |].
  intros e He.
  destruct (json_flags_match_summary _ _ _ _ _ "run.log" E e He) as [H _].
  exact H.
Defined.

(** ** Indices as text *)

Section Decimal.
Import Py Paths.

Lemma int_acc_of_uint u acc :
  int_acc acc (NilEmpty.string_of_uint u) = Nat.of_uint_acc u acc.
Proof.
  revert acc. induction u; intros acc; simpl; [done | ..];
    rewrite IHu, Nat.tail_mul_spec; f_equal; lia.
Qed.

Lemma all_digits_of_uint u : all_digits (NilEmpty.string_of_uint u) = true.
Proof. induction u; simpl; done. Qed.

Lemma to_uint_not_Nil n : Nat.to_uint n ≠ Decimal.Nil.
Proof.
  rewrite <- (Unsigned.of_to n) at 1. rewrite Unsigned.to_of.
  unfold Decimal.unorm. by destruct (Decimal.nzhead _).
Qed.

Lemma str_of_nat_cons n : ∃ c s, str_of_nat n = String c s.
Proof.
  unfold str_of_nat. pose proof (to_uint_not_Nil n) as H.
  destruct (Nat.to_uint n); simpl; [done | ..]; eauto.
Qed.

Lemma isdigit_str_of_nat n : isdigit (str_of_nat n) = true.
Proof.
  destruct (str_of_nat_cons n) as (c & s & E).
  pose proof (all_digits_of_uint (Nat.to_uint n)) as H.
  unfold str_of_nat in *. rewrite E in *. done.
Qed.

Lemma int_str_of_nat n : int (str_of_nat n) = n.
Proof.
  unfold int, str_of_nat. rewrite int_acc_of_uint. apply Unsigned.of_to.
Qed.

End Decimal.

(** X9: str(n) of a natural number is accepted by isdigit and read
    back by int as n: the conversion that guided mode makes from the index
    of its target entry, and back. *)
Theorem str_int_roundtrip (n : nat) :
  Py.isdigit (Py.str_of_nat n) = true ∧ Py.int (Py.str_of_nat n) = n.
Proof. split; [apply isdigit_str_of_nat | apply int_str_of_nat]. Qed.

(** X10: an index printed with the format 02d has at least two
    characters, is accepted by isdigit and is read back by int as the same
    number (a leading zero changes nothing); from 10 on it is str(n). *)
Theorem fmt_02d_reads_back (n : nat) :
  2 ≤ String.length (Paths.fmt_02d n) ∧
  Py.isdigit (Paths.fmt_02d n) = true ∧
  Py.int (Paths.fmt_02d n) = n ∧
  (10 ≤ n → Paths.fmt_02d n = Py.str_of_nat n).
Proof.
  unfold Paths.fmt_02d.
  pose proof (isdigit_str_of_nat n) as Hd.
  pose proof (int_str_of_nat n) as Hi.
  destruct (str_of_nat_cons n) as (c & s & E). rewrite E in *.
  destruct s as [|c' s]; simpl String.length; simpl Nat.ltb; cbv iota.
  - split; [simpl; lia |]. split; [| split].
    + simpl in *. done.
    + unfold Py.int in *. simpl in *. done.
    + intros Hn. exfalso. unfold Py.int in Hi. simpl in Hi.
      assert (Py.is_digit c = true) as Hc
        by (simpl in Hd; by destruct (Py.is_digit c)).
      unfold Py.is_digit in Hc. apply andb_prop in Hc as [H1 H2].
      apply Nat.leb_le in H1, H2. lia.
  - split; [simpl; lia |]. done.
Qed.

(** ** Keywords, regular expressions and prefixes *)

Section Keywords.
Import Py Paths.

Lemma _contains_any_Some pl needles hit :
  _contains_any pl needles = Some hit →
  hit ∈ needles ∧ contains (lower hit) pl = true.
Proof.
  induction needles as [|n needles IH]; simpl; [done |].
  destruct (contains (lower n) pl) eqn:E.
  - intros [= <-]. split; [apply list_elem_of_here | done].
  - intros [H1 H2]%IH. split; [by apply list_elem_of_further | done].
Qed.

Lemma _contains_any_None pl needles n :
  _contains_any pl needles = None → n ∈ needles →
  contains (lower n) pl = false.
Proof.
  induction needles as [|n' needles IH]; simpl; [by intros _ ?%elem_of_nil |].
  destruct (contains (lower n') pl) eqn:E; [done |].
  intros H [->|Hin]%elem_of_cons; [done | by apply IH].
Qed.

Lemma classify_buckets_Some pl buckets c r :
  classify_buckets pl buckets = Some (c, r) →
  ∃ needles hit, (c, needles) ∈ buckets ∧ hit ∈ needles ∧ hit ≠ "" ∧
                 r = "matched '" +:+ hit +:+ "'" ∧
                 contains (lower hit) pl = true.
Proof.
  induction buckets as [|[cat needles] buckets IH]; simpl; [done |].
  destruct (_contains_any pl needles) as [hit|] eqn:E.
  - destruct hit as [|a hit]; simpl.
    + intros (ns & h & H & Hr)%IH. exists ns, h.
      split; [by apply list_elem_of_further | done].
    + intros [= <- <-]. apply _contains_any_Some in E as [H1 H2].
      exists needles, (String a hit).
      split; [apply list_elem_of_here | done].
  - intros (ns & h & H & Hr)%IH. exists ns, h.
    split; [by apply list_elem_of_further | done].
Qed.

Lemma classify_buckets_later pl b buckets :
  is_Some (classify_buckets pl buckets) →
  is_Some (classify_buckets pl (b :: buckets)).
Proof.
  destruct b as [cat needles]. simpl. intros H.
  destruct (_contains_any pl needles) as [hit|]; [| done].
  by destruct (truthy hit).
Qed.

Lemma classify_buckets_hit pl cat needles buckets n :
  Forall (λ x, truthy x = true) needles → n ∈ needles →
  contains (lower n) pl = true →
  is_Some (classify_buckets pl ((cat, needles) :: buckets)).
Proof.
  intros Hall Hn Hc. simpl.
  destruct (_contains_any pl needles) as [hit|] eqn:E.
  - apply _contains_any_Some in E as [Hin _].
    rewrite Forall_forall in Hall. by rewrite (Hall hit Hin).
  - rewrite (_contains_any_None _ _ _ E Hn) in Hc. done.
Qed.

Lemma re_node_contains pl :
  re_search re_node_here pl = true → contains "node" pl = true.
Proof.
  intros (pre & t & -> & (d & rest & -> & _)%re_node_here_spec)%re_search_spec.
  apply contains_spec.
  exists (pre +:+ "/versions/"), ("/v" +:+ String d rest).
  by rewrite app_assoc_str.
Qed.

Lemma re_python_contains pl :
  re_search re_python_here pl = true → contains "python" pl = true.
Proof.
  intros (pre & t & -> & (ds & opt & rest & -> & _ & _)%re_python_here_spec)
           %re_search_spec.
  apply contains_spec.
  exists (pre +:+ "/"), (ds +:+ opt +:+ String "/" rest).
  by rewrite app_assoc_str.
Qed.

Lemma regex_implies_bucket home pl :
  re_search re_node_here pl || re_search re_python_here pl = true →
  is_Some (classify_buckets pl (KEYWORD_BUCKETS home)).
Proof.
  intros [H|H]%orb_prop.
  - apply re_node_contains in H. unfold KEYWORD_BUCKETS.
    apply classify_buckets_later.
    eapply (classify_buckets_hit _ _ _ _ "node");
      [repeat constructor | | exact H].
    apply list_elem_of_further, list_elem_of_here.
  - apply re_python_contains in H. unfold KEYWORD_BUCKETS.
    eapply (classify_buckets_hit _ _ _ _ "python");
      [repeat constructor | | exact H].
    do 7 apply list_elem_of_further. apply list_elem_of_here.
Qed.

Lemma startswith_app p s : startswith (p +:+ s) p = true.
Proof. apply startswith_true. by exists s. Qed.

End Keywords.

(** X6: whenever one of the two regular expressions of classify
    matches the lower-cased path, a keyword bucket has matched before it
    (the text contains node or python); so classify never gives the
    reasons 'node versioned path' and 'python versioned path'. *)
Theorem classify_regex_rules_unreachable (home path : string) :
  (Py.re_search Paths.re_node_here (Py.lower path)
   || Py.re_search Paths.re_python_here (Py.lower path) = true →
   is_Some (Paths.classify_buckets (Py.lower path)
              (Paths.KEYWORD_BUCKETS home))) ∧
  (Paths.classify home path).2 ≠ "node versioned path" ∧
  (Paths.classify home path).2 ≠ "python versioned path".
Proof.
  split; [apply regex_implies_bucket |].
  pose proof (regex_implies_bucket home (Py.lower path)) as Hre.
  unfold Paths.classify.
  destruct (Py.startswith_any path Paths.SYSTEM_PREFIXES); [done |].
  destruct (Py.startswith_any path Paths.DEV_PREFIXES); [done |].
  destruct (Py.startswith_any path Paths.BREW_PREFIXES).
  { by destruct (Py.contains "/Cellar/" path || _). }
  destruct (Paths.classify_buckets _ _) as [[c r]|] eqn:E.
  - apply classify_buckets_Some in E as (ns & hit & _ & _ & _ & -> & _).
    simpl. rewrite !app_cons_str. done.
  - destruct (Py.re_search Paths.re_node_here _).
    { by destruct Hre as [? [=]]. }
    destruct (Py.re_search Paths.re_python_here _).
    { by destruct Hre as [? [=]]. }
    done.
Qed.

Lemma classify_regex_rules_unreachable_witness :
  let path := "/opt/versions/node/v18/bin" in
  Py.re_search Paths.re_node_here (Py.lower path) = true ∧
  is_Some (Paths.classify_buckets (Py.lower path)
             (Paths.KEYWORD_BUCKETS "/Users/dave")) ∧
  Paths.classify "/Users/dave" path = ("Node.js", "matched 'node'").
Proof.
  intros path.
  assert (Py.re_search Paths.re_node_here (Py.lower path) = true) as H
    by (vm_compute; reflexivity).
  split; [exact H |]. split; [| vm_compute; reflexivity].
  destruct (classify_regex_rules_unreachable "/Users/dave" path) as [Hb _].
  apply Hb. rewrite H. reflexivity.
Defined.

(** X7: the result of classify is one of the five fixed pairs of the
    prefix rules and the default, or a category of the keyword table with
    the reason "matched '<hit>'", where hit is a non-empty keyword of that
    category whose lower-cased form occurs in the lower-cased path. *)
Theorem classify_result_shape (home path : string) :
  Paths.classify home path
  ∈ [ ("System", "system prefix");
      ("Apple / Xcode / Developer", "developer tools prefix");
      ("Homebrew", "brew cellar"); ("Homebrew", "brew prefix");
      ("Other / Unknown", "no match") ] ∨
  ∃ needles hit,
    ((Paths.classify home path).1, needles) ∈ Paths.KEYWORD_BUCKETS home ∧
    hit ∈ needles ∧ hit ≠ "" ∧
    (Paths.classify home path).2 = "matched '" +:+ hit +:+ "'" ∧
    Py.contains (Py.lower hit) (Py.lower path) = true.
Proof.
  pose proof (regex_implies_bucket home (Py.lower path)) as Hre.
  unfold Paths.classify.
  destruct (Py.startswith_any path Paths.SYSTEM_PREFIXES).
  { left. apply list_elem_of_here. }
  destruct (Py.startswith_any path Paths.DEV_PREFIXES).
  { left. apply list_elem_of_further, list_elem_of_here. }
  destruct (Py.startswith_any path Paths.BREW_PREFIXES).
  { left. destruct (Py.contains "/Cellar/" path || _).
    - do 2 apply list_elem_of_further. apply list_elem_of_here.
    - do 3 apply list_elem_of_further. apply list_elem_of_here. }
  destruct (Paths.classify_buckets _ _) as [[c r]|] eqn:E.
  - right. apply classify_buckets_Some in E. exact E.
  - left.
    destruct (Py.re_search Paths.re_node_here _).
    { by destruct Hre as [? [=]]. }
    destruct (Py.re_search Paths.re_python_here _).
    { by destruct Hre as [? [=]]. }
    do 4 apply list_elem_of_further. apply list_elem_of_here.
Qed.

(** X8: the prefix rules compare text, not components: any string
    that begins with the characters of a system prefix is ('System',
    'system prefix') whatever follows (so is "/binx"), and any string that
    begins with a developer prefix is classified as developer tools. *)
Theorem classify_prefix_is_textual (home prefix rest : string) :
  (prefix ∈ Paths.SYSTEM_PREFIXES →
   Paths.classify home (prefix +:+ rest) = ("System", "system prefix")) ∧
  (prefix ∈ Paths.DEV_PREFIXES →
   Paths.classify home (prefix +:+ rest)
   = ("Apple / Xcode / Developer", "developer tools prefix")).
Proof.
  assert (∀ ps, prefix ∈ ps →
            Py.startswith_any (prefix +:+ rest) ps = true) as Hany.
  { intros ps Hin. unfold Py.startswith_any. apply existsb_exists.
    exists prefix. split; [by apply list_elem_of_In | apply startswith_app]. }
  split; intros Hin.
  - unfold Paths.classify. by rewrite (Hany _ Hin).
  - unfold Paths.classify. rewrite (Hany _ Hin).
    destruct (Py.startswith_any (prefix +:+ rest) Paths.SYSTEM_PREFIXES) eqn:E;
      [| done].
    exfalso. revert Hin E. unfold Paths.DEV_PREFIXES.
    rewrite !elem_of_cons, elem_of_nil. intros [->|[->|[->|[]]]];
      vm_compute; discriminate.
Qed.

(** ** What is suggested *)

Section SuggestedDirectories.
Context `{os : OS}.
Import Py Paths.

(** A string that [resolve] gave for a path that [is_dir] accepted. *)
Definition resolved_dir (fs : FS) (s : string) : Prop :=
  ∃ p, path_is_dir fs p = inr true ∧ path_resolve fs p = inr s.

Lemma exists_and_is_dir_true fs p :
  exists_and_is_dir fs p = inr true → path_is_dir fs p = inr true.
Proof.
  unfold exists_and_is_dir.
  destruct (path_exists fs p) as [?|[]]; simpl; done.
Qed.

Lemma suggest_children_dirs fs target_name limit ancestor names acc :
  Forall (resolved_dir fs) acc →
  Forall (resolved_dir fs)
    (loop_list (suggest_children fs target_name limit ancestor names acc)).
Proof.
  revert acc. induction names as [|name names IH]; intros acc Hacc; simpl;
    [done |].
  destruct (path_is_dir fs (path_str (path_child ancestor name)))
    as [?|[]] eqn:Ed; simpl; [done | | by apply IH].
  destruct (truthy target_name && _); [| by apply IH].
  destruct (path_resolve fs (path_str (path_child ancestor name)))
    as [?|s] eqn:Er; simpl; [done |].
  assert (Forall (resolved_dir fs) (acc ++ [s])) as Hacc'.
  { apply Forall_app. split; [done |]. constructor; [| done]. by eexists. }
  destruct (len_ge (acc ++ [s]) limit); [done | by apply IH].
Qed.

Lemma suggest_candidates_dirs fs limit candidates acc r :
  Forall (resolved_dir fs) acc →
  suggest_candidates fs limit candidates acc = inr r →
  Forall (resolved_dir fs) (loop_list r).
Proof.
  revert acc. induction candidates as [|c candidates IH]; intros acc Hacc;
    simpl.
  { by intros [= <-]. }
  destruct (exists_and_is_dir fs (path_str c)) as [?|[]] eqn:Eok; simpl;
    [done | | by apply IH].
  destruct (path_resolve fs (path_str c)) as [?|s] eqn:Er; simpl; [done |].
  case_bool_decide; [by apply IH |].
  assert (Forall (resolved_dir fs) (acc ++ [s])) as Hacc'.
  { apply Forall_app. split; [done |]. constructor; [| done].
    exists (path_str c). split; [by apply exists_and_is_dir_true | done]. }
  destruct (len_ge (acc ++ [s]) limit); [by intros [= <-] | by apply IH].
Qed.

Local Arguments suggest_candidates : simpl never.

Lemma suggest_nearby_dirs rounds fs limit cur acc r :
  Forall (resolved_dir fs) acc →
  suggest_nearby rounds fs limit cur acc = inr r →
  Forall (resolved_dir fs) (loop_list r).
Proof.
  revert cur acc. induction rounds as [|rounds IH]; intros cur acc Hacc.
  { simpl. by intros [= <-]. }
  cbn [suggest_nearby].
  destruct (exists_and_is_dir fs (path_str cur)) as [?|ok]; simpl; [done |].
  set (inner := if ok then _ else _).
  assert (∀ r', inner = inr r' → Forall (resolved_dir fs) (loop_list r'))
    as Hinner.
  { unfold inner. destruct ok; [| by intros r' [= <-]].
    intros r'. by apply suggest_candidates_dirs. }
  destruct inner as [?|[l'|l']]; simpl; [done | |].
  - intros [= <-]. by apply Hinner.
  - case_bool_decide; [intros [= <-]; by apply Hinner |].
    apply IH. by apply (Hinner (Fell l')).
Qed.

Local Arguments suggest_nearby : simpl never.
Local Arguments suggest_children : simpl never.
Local Arguments closest_existing : simpl never.

Lemma slice_to_Forall {A : Type} (P : A → Prop) (l : list A) n :
  Forall P l → Forall P (slice_to l n).
Proof. intros H. unfold slice_to. destruct (0 <=? n)%Z; by apply Forall_take. Qed.

Lemma suggest_alternatives_dirs environ fs broken_path limit l :
  suggest_alternatives environ fs broken_path limit = inr l →
  Forall (resolved_dir fs) l.
Proof.
  unfold suggest_alternatives.
  destruct (_safe_expand_and_normalize _ _ _) as [?|norm]; simpl; [done |].
  destruct (negb _); [by intros [= <-] |].
  destruct (closest_existing _ _ _) as [?|anc]; simpl; [done |].
  set (r3 := match anc with Some _ => _ | None => _ end).
  assert (Forall (resolved_dir fs) (loop_list r3)) as H3.
  { unfold r3. destruct anc as [a|]; [| done].
    destruct (path_iterdir _ _); [done |].
    by apply suggest_children_dirs. }
  clearbody r3. destruct r3 as [l3|l3]; simpl in H3; [by intros [= <-] |].
  set (r4 := if bool_decide _ then _ else _).
  assert (∀ r, r4 = inr r → Forall (resolved_dir fs) (loop_list r)) as H4.
  { unfold r4. case_bool_decide; [| by intros r [= <-]].
    intros r. by apply suggest_nearby_dirs. }
  clearbody r4. destruct r4 as [?|[l4|l4]]; simpl; [done | |].
  - intros [= <-]. by apply (H4 (Returned l4)).
  - intros [= <-]. apply slice_to_Forall. by apply (H4 (Fell l4)).
Qed.

End SuggestedDirectories.

(** X13: for a limit of at least one, the list that
    suggest_alternatives returns has at most limit elements. *)
Theorem suggestions_within_positive_limit `{os : OS} environ fs broken_path
    (limit : Z) l :
  (1 ≤ limit)%Z →
  Paths.suggest_alternatives environ fs broken_path limit = inr l →
  (Z.of_nat (length l) ≤ limit)%Z.
Proof.
  intros Hl Hrun.
  by destruct (suggest_alternatives_positive_limit _ _ _ _ _ Hl Hrun).
Qed.

Lemma suggestions_within_positive_limit_witness :
  let environ := Scenario.environ_of "/opt/toolX/1" in
  Paths.suggest_alternatives environ Scenario.disk "/opt/toolX/1" 8
  = inr ["/opt/toolX/1.2.1"; "/opt/toolX/1.3"] ∧
  (∃ l, Paths.suggest_alternatives environ Scenario.disk "/opt/toolX/1" 1
        = inr l ∧ (Z.of_nat (length l) ≤ 1)%Z).
Proof.
  intros environ. split; [vm_compute; reflexivity |].
  assert (∃ l, Paths.suggest_alternatives environ Scenario.disk
                 "/opt/toolX/1" 1 = inr l) as [l E]
    by (eexists; vm_compute; reflexivity).
  exists l. split; [exact E |].
  apply (suggestions_within_positive_limit (os := Posix.os) environ
           Scenario.disk "/opt/toolX/1" 1 l); [lia | exact E].
Defined.

(** X14: every suggestion that suggest_alternatives returns is
    what resolve() gave for a path that is_dir() accepted on the same file
    system. *)
Theorem suggestions_are_resolved_directories `{os : OS} environ fs broken_path
    (limit : Z) l :
  Paths.suggest_alternatives environ fs broken_path limit = inr l →
  ∀ s, s ∈ l →
    ∃ p, path_is_dir fs p = inr true ∧ path_resolve fs p = inr s.
Proof.
  intros Hrun%suggest_alternatives_dirs s Hs.
  rewrite Forall_forall in Hrun. by apply Hrun.
Qed.

Lemma suggestions_are_resolved_directories_witness :
  let environ := Scenario.environ_of "/opt/toolX/1.3/sbin" in
  ∃ l, Paths.suggest_alternatives environ Scenario.disk "/opt/toolX/1.3/sbin" 8
       = inr l ∧ l ≠ [] ∧
       ∀ s, s ∈ l →
         ∃ p, Posix.stat Scenario.disk p = inr true ∧ p = s.
Proof.
  intros environ.
  assert (∃ l, Paths.suggest_alternatives environ Scenario.disk
                 "/opt/toolX/1.3/sbin" 8 = inr l ∧ l ≠ []) as (l & E & Hne)
    by (eexists; split; [vm_compute; reflexivity | done]).
  exists l. split; [exact E |]. split; [exact Hne |].
  intros s Hs.
  destruct (suggestions_are_resolved_directories (os := Posix.os) _ _ _ _ _
              E s Hs)
    as (p & Hd & Hr).
  exists p. split; [exact Hd |]. by injection Hr.
Defined.

(** ** Frames of the session *)

Section Frame.
Context `{os : OS}.
Import Py Paths.

(** A relation between the state before and the state after that every
    primitive step of the session respects. *)
Variable R : relation state.
Hypothesis R_refl : ∀ st, R st st.
Hypothesis R_trans : ∀ st1 st2 st3, R st1 st2 → R st2 st3 → R st1 st3.
Hypothesis R_stdin : ∀ st line rest,
  st_stdin st = line :: rest → R st (set_stdin st rest).
Hypothesis R_log : ∀ st v, R st (set_log st v).
Hypothesis R_parts : ∀ st v, R st (set_parts st v).
Hypothesis R_fs : ∀ st v, R st (set_fs st v).
Hypothesis R_restore : ∀ st,
  R st (set_environ st
          (<["PATH" := environ_get_PATH (st_environ st)]> (st_environ st))).

Definition preserves {A : Type} (m : M A) : Prop := ∀ st, R st (m st).2.

Lemma preserves_bind {A B : Type} (m : M A) (f : A → M B) :
  preserves m → (∀ x, preserves (f x)) → preserves (m ≫= f).
Proof.
  intros Hm Hf st. unfold mbind, M_bind. specialize (Hm st).
  destruct (m st) as [[ex|x] st']; simpl in *; [done |].
  eapply R_trans; [exact Hm | apply Hf].
Qed.

Lemma preserves_ret {A : Type} (x : A) : preserves (mret x).
Proof. intros st. apply R_refl. Qed.

Lemma preserves_input : preserves input.
Proof.
  intros st. unfold input. destruct (st_stdin st) eqn:E; simpl;
    [apply R_refl | by eapply R_stdin].
Qed.

Lemma preserves_log lv fmt a : preserves (logger_log lv fmt a).
Proof. intros st. apply R_log. Qed.

Lemma preserves_get_parts : preserves get_parts.
Proof. intros st. apply R_refl. Qed.

Lemma preserves_put_parts v : preserves (put_parts v).
Proof. intros st. apply R_parts. Qed.

Lemma preserves_mkdir p : preserves (mkdir p).
Proof. intros st. unfold mkdir. destruct (path_mkdir _ _). apply R_fs. Qed.

Lemma preserves_query {A : Type} (f : gmap string string → FS → result A) :
  preserves (query f).
Proof. intros st. apply R_refl. Qed.

Lemma preserves_try_except {A : Type} (body : M A) (handler : exn → M A) :
  preserves body → (∀ ex, preserves (handler ex)) →
  preserves (try_except_M body handler).
Proof.
  intros Hb Hh st. unfold try_except_M. specialize (Hb st).
  destruct (body st) as [[ex|x] st']; simpl in *; [| done].
  eapply R_trans; [exact Hb | apply Hh].
Qed.

Lemma preserves_reanalyze_with path_value :
  preserves (reanalyze_with path_value).
Proof. intros st. rewrite reanalyze_with_state. apply R_restore. Qed.

Lemma preserves_main_regroup raw_path : preserves (main_regroup raw_path).
Proof. intros st. rewrite main_regroup_state. apply R_restore. Qed.

Ltac frame_with tac :=
  repeat first
    [ tac | apply preserves_ret | apply preserves_input | apply preserves_log
    | apply (preserves_log INFO) | apply (preserves_log ERROR)
    | apply preserves_get_parts | apply preserves_put_parts
    | apply preserves_mkdir | apply preserves_query
    | apply preserves_reanalyze_with | apply preserves_main_regroup
    | apply preserves_bind; [| intros ?]
    | apply preserves_try_except; [| intros ?]
    | match goal with
      | |- preserves (if ?b then _ else _) => destruct b
      | |- preserves (match ?x with _ => _ end) => destruct x
      end ].

Ltac frame := frame_with fail.

Lemma preserves_replace_manual e i0 lines st :
  st_stdin st = lines → R st (replace_manual e i0 lines st).2.
Proof.
  remember (length lines) as n eqn:Hn.
  assert (Hle : length lines ≤ n) by lia. clear Hn.
  revert lines st Hle. induction n as [|n IH]; intros lines st Hle Hin.
  { destruct lines; [apply R_refl | simpl in Hle; lia]. }
  destruct lines as [|line lines1]; [apply R_refl |]. simpl in Hle.
  cbn [replace_manual].
  assert (R st (set_stdin st lines1)) as H1 by (by eapply R_stdin).
  destruct (String.eqb (lower (strip line)) "b"); [done |].
  destruct (truthy (strip line)); cbn [negb];
    [| eapply R_trans; [exact H1 | apply IH; [lia | done]]].
  destruct (_safe_expand_and_normalize _ _ _) as [?|norm]; [done |].
  destruct (exists_and_is_dir _ _) as [?|[]]; [done | |].
  { eapply R_trans; [exact H1 |]. run_M.
    eapply R_trans; [apply R_log | apply R_parts]. }
  destruct lines1 as [|answer lines2]; [done |].
  assert (R st (set_stdin (set_stdin st (answer :: lines2)) lines2)) as H2.
  { eapply R_trans; [exact H1 | by eapply R_stdin]. }
  destruct (String.eqb (lower (strip answer)) "y");
    [| eapply R_trans; [exact H2 | apply IH; [simpl in *; lia | done]]].
  unfold try_except_M, mkdir. run_M.
  destruct (path_mkdir _ _) as [[ex|[]] fs']; simpl.
  - eapply R_trans; [exact H2 |].
    eapply R_trans; [apply (R_fs _ fs') |].
    eapply R_trans; [apply R_log |].
    apply IH; [simpl in *; lia | done].
  - eapply R_trans; [exact H2 |].
    eapply R_trans; [apply (R_fs _ fs') |].
    eapply R_trans; [apply R_log | apply R_parts].
Qed.

Lemma preserves_replace_from_suggestions e i0 alts :
  preserves (replace_from_suggestions e i0 alts).
Proof. unfold replace_from_suggestions. destruct alts; frame. Qed.

Lemma preserves_create_directory e i0 : preserves (create_directory e i0).
Proof. unfold create_directory. frame. Qed.

Lemma preserves_apply_fix e : preserves (_apply_fix_for_entry e).
Proof.
  unfold _apply_fix_for_entry.
  frame_with ltac:(first [ apply preserves_replace_from_suggestions
                         | apply preserves_create_directory ]).
  intros st. by apply preserves_replace_manual.
Qed.

Lemma preserves_guided_fix_all fuel cmd : preserves (guided_fix_all fuel cmd).
Proof.
  revert cmd. induction fuel as [|fuel IH]; intros cmd; cbn [guided_fix_all];
    frame_with ltac:(first [apply preserves_apply_fix | apply IH]).
Qed.

Lemma preserves_fix_loop fuel : preserves (fix_loop fuel).
Proof.
  induction fuel as [|fuel IH]; cbn [fix_loop];
    frame_with ltac:(first [ apply preserves_apply_fix
                           | apply preserves_guided_fix_all | apply IH ]).
Qed.

Lemma preserves_session fuel raw_path entries :
  preserves (interactive_fix_broken_paths fuel raw_path entries).
Proof.
  unfold interactive_fix_broken_paths.
  frame_with ltac:(apply preserves_fix_loop).
Qed.

Lemma preserves_main fuel argv script_file sys_version path_log_file :
  preserves (main fuel argv script_file sys_version path_log_file).
Proof. unfold main. frame_with ltac:(apply preserves_session). Qed.

End Frame.

Section Frames.
Context `{os : OS}.
Import Py Paths.

(** [os.environ] is as it was, when PATH was set. *)
Definition same_environ (st st' : state) : Prop :=
  is_Some (st_environ st !! "PATH") → st_environ st' = st_environ st.

(** The lines still to be read are a tail of the lines there were. *)
Definition reads_on (st st' : state) : Prop :=
  st_stdin st' `suffix_of` st_stdin st.

Lemma same_environ_session fuel raw_path entries st :
  same_environ st (interactive_fix_broken_paths fuel raw_path entries st).2.
Proof.
  apply (preserves_session same_environ); unfold same_environ; try done.
  - intros st1 st2 st3 H12 H23 H1. rewrite <- (H12 H1). apply H23.
    by rewrite (H12 H1).
  - intros st0 [v Hv]. simpl. unfold environ_get_PATH. rewrite Hv. simpl.
    by apply insert_id.
Qed.

Lemma same_environ_main fuel argv script_file sys_version path_log_file st :
  same_environ st (main fuel argv script_file sys_version path_log_file st).2.
Proof.
  apply (preserves_main same_environ); unfold same_environ; try done.
  - intros st1 st2 st3 H12 H23 H1. rewrite <- (H12 H1). apply H23.
    by rewrite (H12 H1).
  - intros st0 [v Hv]. simpl. unfold environ_get_PATH. rewrite Hv. simpl.
    by apply insert_id.
Qed.

Lemma reads_on_apply_fix e st : reads_on st (_apply_fix_for_entry e st).2.
Proof.
  apply (preserves_apply_fix reads_on); unfold reads_on; try done.
  - intros st1 st2 st3 H12 H23. by etrans.
  - intros st0 line rest ->. simpl. by apply suffix_cons_r.
Qed.

Lemma reads_on_fix_loop fuel st : reads_on st (fix_loop fuel st).2.
Proof.
  apply (preserves_fix_loop reads_on); unfold reads_on; try done.
  - intros st1 st2 st3 H12 H23. by etrans.
  - intros st0 line rest ->. simpl. by apply suffix_cons_r.
Qed.

End Frames.

(** ** Leaving the session *)

Section LeavingTheSession.
Context `{os : OS}.
Import Py Paths.

Lemma reads_on_refl st : reads_on st st.
Proof. by unfold reads_on. Qed.

Lemma reads_on_trans st1 st2 st3 :
  reads_on st1 st2 → reads_on st2 st3 → reads_on st1 st3.
Proof. unfold reads_on. intros H12 H23. by etrans. Qed.

Lemma reads_on_stdin st line rest :
  st_stdin st = line :: rest → reads_on st (set_stdin st rest).
Proof. unfold reads_on. intros ->. simpl. by apply suffix_cons_r. Qed.

Lemma reads_on_restore st :
  reads_on st
    (set_environ st
       (<["PATH" := environ_get_PATH (st_environ st)]> (st_environ st))).
Proof. by unfold reads_on. Qed.

Lemma reads_on_log st v : reads_on st (set_log st v).
Proof. by unfold reads_on. Qed.

Lemma reads_on_parts st v : reads_on st (set_parts st v).
Proof. by unfold reads_on. Qed.

Lemma reads_on_fs st v : reads_on st (set_fs st v).
Proof. by unfold reads_on. Qed.

(** A line that the main prompt reads as the command [q]. *)
Definition quits (line : string) : Prop := lower (strip line) = "q".

(** A statement sequence that ends with a value accepted by [fin] only
    after reading a [q] line. *)
Definition ends_by_q {A : Type} (fin : A → Prop) (m : M A) : Prop :=
  ∀ st x, (m st).1 = inr x → fin x →
          ∃ line, line ∈ st_stdin st ∧ quits line.

Lemma ends_by_q_ret {A : Type} (fin : A → Prop) (x : A) :
  ¬ fin x → ends_by_q fin (mret x).
Proof. intros Hx st y [= <-] Hy. done. Qed.

Lemma ends_by_q_bind {A B : Type} (fin : B → Prop) (m : M A) (f : A → M B) :
  preserves reads_on m → (∀ x, ends_by_q fin (f x)) →
  ends_by_q fin (m ≫= f).
Proof.
  intros Hm Hf st y. unfold mbind, M_bind. specialize (Hm st).
  destruct (m st) as [[ex|x] st']; simpl in *; [done |].
  intros Hy Hfin. destruct (Hf x st' y Hy Hfin) as (line & Hin & Hq).
  exists line. split; [| done].
  destruct Hm as [k ->]. apply elem_of_app. by right.
Qed.

Lemma ends_by_q_bind_fin {A B : Type} (finA : A → Prop) (fin : B → Prop)
    (m : M A) (f : A → M B) :
  preserves reads_on m → ends_by_q finA m →
  (∀ x, finA x ∨ ends_by_q fin (f x)) →
  ends_by_q fin (m ≫= f).
Proof.
  intros Hm Hq Hf st y. unfold mbind, M_bind.
  specialize (Hm st). specialize (Hq st).
  destruct (m st) as [[ex|x] st']; simpl in *; [done |].
  intros Hy Hfin. destruct (Hf x) as [Hx|Hx]; [by eapply Hq |].
  destruct (Hx st' y Hy Hfin) as (line & Hin & Hl).
  exists line. split; [| done].
  destruct Hm as [k ->]. apply elem_of_app. by right.
Qed.

Lemma ends_by_q_input {B : Type} (fin : B → Prop) (f : string → M B) :
  (∀ line, quits line ∨ ends_by_q fin (f line)) →
  ends_by_q fin (input ≫= f).
Proof.
  intros Hf st y. unfold mbind, M_bind, input.
  destruct (st_stdin st) as [|line rest] eqn:E; simpl; [done |].
  intros Hy Hfin. destruct (Hf line) as [Hq|Hq].
  - exists line. split; [apply list_elem_of_here | done].
  - destruct (Hq _ _ Hy Hfin) as (l & Hin & Hl). exists l.
    split; [by apply list_elem_of_further | done].
Qed.

Create HintDb reads.

Local Hint Resolve reads_on_refl reads_on_trans reads_on_stdin
  reads_on_restore reads_on_log reads_on_parts reads_on_fs : reads.

Ltac reads :=
  first
    [ apply preserves_guided_fix_all | apply preserves_apply_fix
    | apply preserves_reanalyze_with | apply preserves_get_parts
    | apply preserves_put_parts
    | unfold logger_info, logger_error; apply preserves_log
    | apply preserves_ret | apply preserves_fix_loop
    | match goal with
      | |- preserves _ (if ?b then _ else _) => destruct b; reads
      end ];
  eauto with reads; done.

Ltac ends_with tac :=
  repeat first
    [ tac
    | apply ends_by_q_ret; by intros [? ?]
    | apply ends_by_q_bind; [solve [reads] | intros ?]
    | match goal with
      | |- ends_by_q _ (if ?b then _ else _) => destruct b
      | |- ends_by_q _ (match ?x with _ => _ end) => destruct x
      end ].

Lemma fix_loop_ends_by_q fuel : ends_by_q is_Some (fix_loop fuel).
Proof.
  induction fuel as [|fuel IH]; cbn [fix_loop].
  { apply ends_by_q_ret. by intros [? ?]. }
  apply ends_by_q_input. intros line. unfold quits.
  destruct (String.eqb (lower (strip line)) "q") eqn:E.
  { left. by apply String.eqb_eq. }
  right. ends_with ltac:(apply IH).
Qed.

Lemma session_ends_by_q fuel raw_path entries :
  broken_entries entries ≠ [] →
  ends_by_q is_Some (interactive_fix_broken_paths fuel raw_path entries).
Proof.
  intros Hb. unfold interactive_fix_broken_paths.
  destruct (broken_entries entries) as [|b bs]; [done |].
  do 5 (apply ends_by_q_bind; [solve [reads] | intros ?]).
  apply (ends_by_q_bind_fin is_Some);
    [solve [reads] | apply fix_loop_ends_by_q |].
  intros [u|]; [left; by eexists | right].
  apply ends_by_q_ret. by intros [? ?].
Qed.

End LeavingTheSession.

(** X15: when PATH is set, a fix session and a whole run of main
    leave os.environ as they found it, however they end (return,
    exception, or loop still running). *)
Theorem session_keeps_environ `{os : OS} (fuel : nat) (argv : list string)
    (script_file sys_version path_log_file raw_path : string)
    (entries : list Paths.Entry) (st : Paths.state) (v : string) :
  Paths.st_environ st !! "PATH" = Some v →
  Paths.st_environ
    (Paths.interactive_fix_broken_paths fuel raw_path entries st).2
  = Paths.st_environ st ∧
  Paths.st_environ
    (Paths.main fuel argv script_file sys_version path_log_file st).2
  = Paths.st_environ st.
Proof.
  intros Hv. split.
  - by apply same_environ_session.
  - by apply same_environ_main.
Qed.

Lemma session_keeps_environ_witness :
  let path := "/usr/bin:/opt/toolX/2.0:/nonexistent" in
  let lines := ["2"; "5"; "a"; "2"; "q"] in
  let st := Scenario.state_of path [] lines in
  (∃ raw entries,
     (Paths.interactive_fix_broken_paths 9 path (Scenario.entries_of path)
        st).1 = inr (Some (raw, entries)) ∧
     raw = "/usr/bin:/opt/toolX/2.0") ∧
  Paths.st_fs (Paths.interactive_fix_broken_paths 9 path
                 (Scenario.entries_of path) st).2 ≠ Paths.st_fs st ∧
  Paths.st_environ
    (Paths.interactive_fix_broken_paths 9 path (Scenario.entries_of path)
       st).2
  = Scenario.environ_of path.
Proof.
  intros path lines st.
  split; [do 2 eexists; split; vm_compute; reflexivity |].
  split; [vm_compute; discriminate |].
  apply (session_keeps_environ (os := Posix.os) 9 [] "" "" "" path
           (Scenario.entries_of path) st path).
  reflexivity.
Defined.

(** X16: a fix session that found a broken entry returns only
    after it has read a line that the prompt takes for the command q. *)
Theorem session_returns_only_after_q `{os : OS} (fuel : nat)
    (raw_path : string) (entries : list Paths.Entry) (st : Paths.state)
    (r : string * list Paths.Entry) :
  Paths.broken_entries entries ≠ [] →
  (Paths.interactive_fix_broken_paths fuel raw_path entries st).1
  = inr (Some r) →
  ∃ line, line ∈ Paths.st_stdin st ∧ Py.lower (Py.strip line) = "q".
Proof.
  intros Hb Hr.
  eapply (session_ends_by_q fuel raw_path entries Hb st); [exact Hr |].
  by eexists.
Qed.

Lemma session_returns_only_after_q_witness :
  let path := "/usr/bin:/nonexistent" in
  let st := Scenario.state_of path [] ["p"; "2"; "1"; " Q "] in
  (∃ r, (Paths.interactive_fix_broken_paths 9 path
           (Scenario.entries_of path) st).1 = inr (Some r)) ∧
  ∃ line, line ∈ Paths.st_stdin st ∧ Py.lower (Py.strip line) = "q".
Proof.
  intros path st.
  assert (∃ r, (Paths.interactive_fix_broken_paths 9 path
                  (Scenario.entries_of path) st).1 = inr (Some r)) as [r Hr]
    by (eexists; vm_compute; reflexivity).
  split; [by exists r |].
  apply (session_returns_only_after_q (os := Posix.os) 9 path
           (Scenario.entries_of path) st r); [| exact Hr].
  vm_compute. discriminate.
Defined.

(** ** Guided mode *)

Section Guided.
Context `{os : OS}.
Import Py Paths.

Lemma find_by_index (l : list Entry) (b : Entry) k j :
  (∀ i e, l !! i = Some e → index e = k + i) → l !! j = Some b →
  List.find (λ x, index x =? index b) l = Some b.
Proof.
  revert k j. induction l as [|y l IH]; intros k j Hk Hj; [done |].
  simpl. destruct (index y =? index b) eqn:E.
  - apply Nat.eqb_eq in E. rewrite (Hk 0 y eq_refl), (Hk j b Hj) in E.
    assert (j = 0) as -> by lia. simpl in Hj. congruence.
  - destruct j as [|j].
    { simpl in Hj. injection Hj as ->. by rewrite Nat.eqb_refl in E. }
    apply (IH (S k) j); [| done].
    intros i e He. rewrite (Hk (S i) e He). lia.
Qed.

Lemma entry_with_index_found entries b :
  (∀ i e, entries !! i = Some e → index e = S i) → b ∈ entries →
  entry_with_index entries (index b) = Some b.
Proof.
  intros Hidx [j Hj]%list_elem_of_lookup.
  apply (find_by_index entries b 1 j); [| done].
  intros i e He. by rewrite (Hidx i e He).
Qed.

Lemma restored_environ (st : state) :
  is_Some (st_environ st !! "PATH") →
  <["PATH" := environ_get_PATH (st_environ st)]> (st_environ st)
  = st_environ st.
Proof.
  intros [v Hv]. unfold environ_get_PATH. rewrite Hv. simpl.
  by apply insert_id.
Qed.

Lemma broken_first_elem entries b rest :
  broken_entries entries = b :: rest → b ∈ entries ∧ is_broken b = true.
Proof.
  unfold broken_entries. intros H.
  assert (In b (List.filter is_broken entries)) as Hin
    by (rewrite H; by left).
  apply List.filter_In in Hin as [Hin Hb]. split; [| done].
  by apply list_elem_of_In.
Qed.

Lemma reanalyze_with_index path_value st raw entries :
  (reanalyze_with path_value st).1 = inr (raw, entries) →
  ∀ i e, entries !! i = Some e → index e = S i.
Proof.
  rewrite reanalyze_with_result.
  destruct (analyze_path _ _) as [?|[[raw' ents] grouped]] eqn:E; [done |].
  intros [= <- <-] i e He. by eapply analyze_path_index.
Qed.

Lemma guided_fix_all_turn fuel cmd st :
  guided_fix_all (S fuel) cmd st
  = match reanalyze_with (rebuild_path (st_parts st)) st with
    | (inl ex, st1) => (inl ex, st1)
    | (inr (raw, entries), st1) =>
        match broken_entries entries with
        | [] => (inr (Some cmd), st1)
        | b :: _ =>
            (_apply_fix_for_entry b;;
             guided_fix_all fuel (str_of_nat (index b))) st1
        end
    end.
Proof.
  cbn [guided_fix_all]. unfold get_parts at 1.
  unfold mbind at 1 2, M_bind at 1 2. cbn beta iota.
  pose proof (reanalyze_with_index (rebuild_path (st_parts st)) st) as Hidx.
  destruct (reanalyze_with (rebuild_path (st_parts st)) st)
    as [[ex|[raw entries]] st1]; [done |].
  specialize (Hidx raw entries eq_refl).
  destruct (broken_entries entries) as [|b rest] eqn:Hb; [done |].
  rewrite isdigit_str_of_nat, int_str_of_nat. cbn [negb].
  apply broken_first_elem in Hb as [Hin _].
  by rewrite (entry_with_index_found entries b Hidx Hin).
Qed.

Lemma apply_fix_index_mismatch e st :
  index e = 0 ∨ length (st_parts st) < index e →
  _apply_fix_for_entry e st
  = (inr (),
     set_log st (st_log st ++
                 [ {| levelname := ERROR;
                      msg := "Index mismatch for entry #%02d";
                      args := [ArgInt (index e)] |} ])).
Proof.
  intros H. unfold _apply_fix_for_entry.
  unfold mbind at 1, M_bind at 1, get_parts at 1. cbn beta iota.
  assert ((index e =? 0) || (length (st_parts st) <=? index e - 1) = true)
    as ->; [| done].
  apply orb_true_iff. destruct H as [H|H].
  - left. by apply Nat.eqb_eq.
  - right. apply Nat.leb_le. lia.
Qed.

Lemma guided_spins fuel :
  ∀ cmd st raw entries b rest,
    is_Some (st_environ st !! "PATH") →
    (reanalyze_with (rebuild_path (st_parts st)) st).1 = inr (raw, entries) →
    broken_entries entries = b :: rest →
    length (st_parts st) < index b →
    (guided_fix_all fuel cmd st).1 = inr None ∧
    length (st_log (guided_fix_all fuel cmd st).2) = length (st_log st) + fuel ∧
    st_stdin (guided_fix_all fuel cmd st).2 = st_stdin st.
Proof.
  induction fuel as [|fuel IH]; intros cmd st raw entries b rest Hp Hrun Hb Hlen.
  { simpl. split; [done |]. split; [lia | done]. }
  rewrite guided_fix_all_turn.
  assert ((reanalyze_with (rebuild_path (st_parts st)) st).2 = st) as Hst.
  { rewrite reanalyze_with_state, restored_environ by done.
    apply set_environ_id. }
  destruct (reanalyze_with (rebuild_path (st_parts st)) st)
    as [[ex|[raw' entries']] st1] eqn:Er; simpl in Hrun, Hst; [done |].
  injection Hrun as -> ->. subst st1. rewrite Hb.
  unfold mbind, M_bind.
  rewrite apply_fix_index_mismatch by (by right).
  set (st2 := set_log st _).
  destruct (IH (str_of_nat (index b)) st2 raw entries b rest) as (H1 & H2 & H3);
    [done | | done | done |].
  { rewrite reanalyze_with_result. simpl.
    pose proof (reanalyze_with_result (rebuild_path (st_parts st)) st) as Hr.
    rewrite Er in Hr. simpl in Hr. by rewrite <- Hr. }
  split; [done |]. split; [| done].
  rewrite H2. subst st2. simpl. rewrite length_app. simpl. lia.
Qed.

End Guided.

(** X20: one turn of guided mode re-analyses the parts, stops
    when no entry is broken, and otherwise runs the fix flow on the first
    broken entry and goes on with str(index) as the command; the isdigit
    test and the search by index never stop it. *)
Theorem guided_mode_targets_first_broken `{os : OS} (fuel : nat)
    (cmd : string) (st : Paths.state) :
  Paths.guided_fix_all (S fuel) cmd st
  = match Paths.reanalyze_with (Paths.rebuild_path (Paths.st_parts st)) st with
    | (inl ex, st1) => (inl ex, st1)
    | (inr (raw, entries), st1) =>
        match Paths.broken_entries entries with
        | [] => (inr (Some cmd), st1)
        | b :: _ =>
            (Paths._apply_fix_for_entry b;;
             Paths.guided_fix_all fuel (Py.str_of_nat (Paths.index b))) st1
        end
    end.
Proof. apply guided_fix_all_turn. Qed.

(** X19: if the first broken entry of the current view has an
    index beyond the parts (a part holds the separator), guided mode never
    ends: whatever the fuel, the loop is still running, it has logged one
    index mismatch per turn and has read no line. *)
Theorem guided_mode_spins_on_index_mismatch `{os : OS} (st : Paths.state)
    (v raw : string) (entries : list Paths.Entry) (b : Paths.Entry)
    (rest : list Paths.Entry) :
  Paths.st_environ st !! "PATH" = Some v →
  (Paths.reanalyze_with (Paths.rebuild_path (Paths.st_parts st)) st).1
  = inr (raw, entries) →
  Paths.broken_entries entries = b :: rest →
  length (Paths.st_parts st) < Paths.index b →
  ∀ fuel cmd,
    (Paths.guided_fix_all fuel cmd st).1 = inr None ∧
    length (Paths.st_log (Paths.guided_fix_all fuel cmd st).2)
    = length (Paths.st_log st) + fuel ∧
    Paths.st_stdin (Paths.guided_fix_all fuel cmd st).2 = Paths.st_stdin st.
Proof. intros Hv Hrun Hb Hlen fuel cmd. by eapply guided_spins. Qed.

Lemma guided_mode_spins_on_index_mismatch_witness :
  let st := Scenario.state_of "/usr/bin" ["/usr:/nonexistent"] ["q"] in
  (Paths.guided_fix_all 40 "a" st).1 = inr None ∧
  length (Paths.st_log (Paths.guided_fix_all 40 "a" st).2) = 40 ∧
  Paths.st_stdin (Paths.guided_fix_all 40 "a" st).2 = ["q"].
Proof.
  intros st.
  assert (∃ raw entries b rest,
    (Paths.reanalyze_with (Paths.rebuild_path (Paths.st_parts st)) st).1
    = inr (raw, entries) ∧
    Paths.broken_entries entries = b :: rest ∧ Paths.index b = 2)
    as (raw & entries & b & rest & Hrun & Hb & Hi)
    by (do 4 eexists; split; [| split]; vm_compute; reflexivity).
  apply (guided_mode_spins_on_index_mismatch (os := Posix.os) st "/usr/bin"
           raw entries b rest); [reflexivity | exact Hrun | exact Hb |].
  rewrite Hi. simpl. lia.
Defined.

(** ** One fix, and what the session hands back *)

Section OneFix.
Context `{os : OS}.
Import Py Paths.

Lemma replace_from_suggestions_parts e i0 alts st :
  st_fs (replace_from_suggestions e i0 alts st).2 = st_fs st ∧
  (st_parts (replace_from_suggestions e i0 alts st).2 = st_parts st ∨
   ∃ chosen, chosen ∈ alts ∧
     exists_and_is_dir (st_fs st) (path_str (Path chosen)) = inr true ∧
     st_parts (replace_from_suggestions e i0 alts st).2
     = <[i0 := chosen]> (st_parts st)).
Proof.
  unfold replace_from_suggestions.
  destruct alts as [|a alts']; [run_M; by split; [| left] |].
  set (alts := a :: alts'). run_M.
  destruct (st_stdin st) as [|line rest]; simpl; [by split; [| left] |].
  destruct (String.eqb (lower (strip line)) "b"); simpl;
    [by split; [| left] |].
  destruct (isdigit _ && _ && _); simpl; [| by split; [| left]].
  destruct (alts !! (int (lower (strip line)) - 1)) as [chosen|] eqn:Ec;
    simpl; [| by split; [| left]].
  destruct (exists_and_is_dir (st_fs st) (path_str (Path chosen)))
    as [?|[]] eqn:Eok; simpl; try (by split; [| left]).
  split; [done |]. right. exists chosen.
  split; [by eapply list_elem_of_lookup_2 | done].
Qed.

Lemma create_directory_parts e i0 st :
  st_parts (create_directory e i0 st).2 = st_parts st ∨
  st_parts (create_directory e i0 st).2 = <[i0 := raw e]> (st_parts st).
Proof.
  unfold create_directory, mkdir. run_M.
  destruct (_safe_expand_and_normalize _ _ _) as [?|target]; simpl;
    [by left |].
  destruct (path_mkdir _ _) as [[ex|[]] fs']; simpl; [by left | by right].
Qed.

Lemma apply_fix_parts e st :
  st_parts (_apply_fix_for_entry e st).2 = st_parts st ∨
  (1 ≤ index e ≤ length (st_parts st) ∧
   (st_parts (_apply_fix_for_entry e st).2
    = delete (index e - 1) (st_parts st) ∨
    ∃ x, st_parts (_apply_fix_for_entry e st).2
         = <[index e - 1 := x]> (st_parts st))).
Proof.
  destruct (decide (index e = 0 ∨ length (st_parts st) < index e)) as [H|H].
  { left. by rewrite apply_fix_index_mismatch. }
  assert (index e ≠ 0 ∧ index e - 1 < length (st_parts st)) as [H0 Hlen] by lia.
  destruct (suggest_alternatives (st_environ st) (st_fs st) (raw e) 8)
    as [ex|alts] eqn:Ealts.
  { left. unfold _apply_fix_for_entry. run_M.
    destruct (_ || _); simpl; [done |]. by rewrite Ealts. }
  destruct (st_stdin st) as [|line rest] eqn:Ein.
  { left. unfold _apply_fix_for_entry. run_M.
    destruct (_ || _); simpl; [done |]. by rewrite Ealts, Ein. }
  rewrite (apply_fix_read_action e st line rest alts) by done. cbv zeta.
  destruct (String.eqb (lower (strip line)) "b"); [by left |].
  destruct (negb _); [by left |].
  destruct (String.eqb (lower (strip line)) "1"); [by left |].
  destruct (String.eqb (lower (strip line)) "2").
  { right. split; [lia |]. by left. }
  destruct (String.eqb (lower (strip line)) "3").
  { destruct (replace_manual_parts e (index e - 1) rest (set_stdin st rest))
      as [Hp|(l & _ & Hp)].
    - left. exact Hp.
    - right. split; [lia |]. right. exists (strip l). exact Hp. }
  destruct (String.eqb (lower (strip line)) "4").
  { destruct (replace_from_suggestions_parts e (index e - 1) alts
                (set_stdin st rest)) as [_ [Hp|(c & _ & _ & Hp)]].
    - left. exact Hp.
    - right. split; [lia |]. right. exists c. exact Hp. }
  destruct (create_directory_parts e (index e - 1) (set_stdin st rest))
    as [Hp|Hp].
  - left. exact Hp.
  - right. split; [lia |]. right. exists (raw e). exact Hp.
Qed.

End OneFix.

(** X18: one call of _apply_fix_for_entry leaves the parts as they
    were, or the entry's index lies within the parts and the call has
    deleted the part at position index - 1 or put a value there; no other
    position changes. *)
Theorem apply_fix_touches_one_part `{os : OS} (e : Paths.Entry)
    (st : Paths.state) :
  let parts := Paths.st_parts st in
  let parts' := Paths.st_parts (Paths._apply_fix_for_entry e st).2 in
  parts' = parts ∨
  (1 ≤ Paths.index e ≤ length parts ∧
   (parts' = delete (Paths.index e - 1) parts ∨
    ∃ x, parts' = <[Paths.index e - 1 := x]> parts)).
Proof. apply apply_fix_parts. Qed.

(** X21: action 4 leaves the file system alone and either leaves
    the parts as they were or puts at the entry's position one of the
    suggestions it listed, which exists() and is_dir() accept at that
    time. *)
Theorem suggested_replacement_is_listed `{os : OS} (e : Paths.Entry)
    (st : Paths.state) (line : string) (rest alts : list string) :
  1 ≤ Paths.index e ≤ length (Paths.st_parts st) →
  Paths.st_stdin st = line :: rest → Py.lower (Py.strip line) = "4" →
  Paths.suggest_alternatives (Paths.st_environ st) (Paths.st_fs st)
    (Paths.raw e) 8 = inr alts →
  Paths.st_fs (Paths._apply_fix_for_entry e st).2 = Paths.st_fs st ∧
  (Paths.st_parts (Paths._apply_fix_for_entry e st).2 = Paths.st_parts st ∨
   ∃ chosen, chosen ∈ alts ∧
     Paths.exists_and_is_dir (Paths.st_fs st)
       (Paths.path_str (Paths.Path chosen)) = inr true ∧
     Paths.st_parts (Paths._apply_fix_for_entry e st).2
     = <[Paths.index e - 1 := chosen]> (Paths.st_parts st)).
Proof.
  intros Hi Hin Hact Halts.
  rewrite (apply_fix_read_action e st line rest alts) by (done || lia).
  cbv zeta. rewrite Hact. cbn [String.eqb Ascii.eqb Bool.eqb negb].
  rewrite bool_decide_eq_true_2
    by (do 3 apply list_elem_of_further; apply list_elem_of_here).
  cbn [negb].
  apply (replace_from_suggestions_parts e (Paths.index e - 1) alts
           (Paths.set_stdin st rest)).
Qed.

Lemma suggested_replacement_is_listed_witness :
  let path := "/usr/bin:/opt/toolX/1.2" in
  let st := Scenario.state_of path ["/usr/bin"; "/opt/toolX/1.2"] ["4"; "1"] in
  ∃ e, Scenario.entries_of path !! 1 = Some e ∧
       Paths.st_parts (Paths._apply_fix_for_entry e st).2
       = ["/usr/bin"; "/opt/toolX/1.2.1"] ∧
       Paths.st_fs (Paths._apply_fix_for_entry e st).2 = Paths.st_fs st.
Proof.
  intros path st.
  assert (∃ e, Scenario.entries_of path !! 1 = Some e ∧
               Paths.index e = 2 ∧
               Paths.st_parts (Paths._apply_fix_for_entry e st).2
               = ["/usr/bin"; "/opt/toolX/1.2.1"]) as (e & He & Hi & Hp)
    by (eexists; split; [| split]; vm_compute; reflexivity).
  assert (∃ alts,
    Paths.suggest_alternatives (Paths.st_environ st) (Paths.st_fs st)
      (Paths.raw e) 8 = inr alts) as [alts Halts].
  { vm_compute in He. injection He as <-. eexists. vm_compute. reflexivity. }
  exists e. split; [exact He |]. split; [exact Hp |].
  destruct (suggested_replacement_is_listed (os := Posix.os) e st "4" ["1"]
              alts) as [Hfs _];
    [rewrite Hi; simpl; lia | reflexivity | reflexivity | exact Halts |].
  exact Hfs.
Defined.

(** X17: when PATH is not set, the restore step of reanalyze_with
    and of the regrouping block of main defines it: the environment they
    leave has PATH set to the empty string. *)
Theorem reanalysis_defines_unset_PATH `{os : OS} (st : Paths.state)
    (path_value : string) :
  Paths.st_environ st !! "PATH" = None →
  Paths.st_environ (Paths.reanalyze_with path_value st).2
  = <["PATH" := ""]> (Paths.st_environ st) ∧
  Paths.st_environ (Paths.main_regroup path_value st).2
  = <["PATH" := ""]> (Paths.st_environ st).
Proof.
  intros H. rewrite reanalyze_with_state, main_regroup_state.
  unfold Paths.environ_get_PATH. rewrite H. done.
Qed.

Lemma reanalysis_defines_unset_PATH_witness :
  let st := {| Paths.st_environ := {[ "HOME" := "/Users/dave" ]};
               Paths.st_fs := Scenario.disk; Paths.st_stdin := [];
               Paths.st_log := []; Paths.st_parts := [] |} in
  Paths.st_environ st !! "PATH" = None ∧
  Paths.st_environ (Paths.reanalyze_with "/usr/bin" st).2 !! "PATH" = Some "".
Proof.
  intros st. split; [reflexivity |].
  destruct (reanalysis_defines_unset_PATH (os := Posix.os) st "/usr/bin")
    as [H _]; [reflexivity |].
  rewrite H. reflexivity.
Defined.

Section Proposal.
Context `{os : OS}.
Import Py Paths.

Lemma filter_truthy_all l : "" ∉ l → List.filter truthy l = l.
Proof.
  induction l as [|x l IH]; intros H; simpl; [done |].
  destruct x as [|c x]; simpl.
  - exfalso. apply H. apply list_elem_of_here.
  - f_equal. apply IH. intros Hin. apply H. by apply list_elem_of_further.
Qed.

Lemma rebuild_initial_parts raw_path :
  "" ∉ split_path raw_path →
  rebuild_path (initial_parts raw_path) = raw_path.
Proof.
  intros H. unfold rebuild_path, initial_parts.
  rewrite !filter_truthy_all by (by rewrite ?filter_truthy_all).
  unfold split_path. destruct raw_path as [|c s]; [done |].
  simpl truthy. cbv iota. apply join_split.
Qed.

(** [raw] and [entries] are the analysis of the join of the parts of [st],
    on the file system of [st]. *)
Definition snapshot_of_parts (st : state) (raw : string)
    (entries : list Entry) : Prop :=
  raw = rebuild_path (st_parts st) ∧
  ∃ grouped,
    analyze_path (<["PATH" := raw]> (st_environ st)) (st_fs st)
    = inr (raw, entries, grouped).

Definition returns_snapshot (m : M (option (string * list Entry))) : Prop :=
  ∀ st raw entries,
    (m st).1 = inr (Some (raw, entries)) →
    snapshot_of_parts (m st).2 raw entries.

Lemma returns_snapshot_bind {A : Type} (m : M A)
    (f : A → M (option (string * list Entry))) :
  (∀ x, returns_snapshot (f x)) → returns_snapshot (m ≫= f).
Proof.
  intros Hf st raw entries. unfold mbind, M_bind.
  destruct (m st) as [[ex|x] st']; simpl; [done |]. apply Hf.
Qed.

Lemma returns_snapshot_final :
  returns_snapshot
    (parts ← get_parts;
     let proposed := rebuild_path parts in
     logger_info "Interactive fix session complete" [];;
     logger_info "Proposed PATH: %s" [ArgStr proposed];;
     r ← reanalyze_with proposed;
     mret (Some r)).
Proof.
  intros st raw entries. run_M.
  set (st1 := set_log _ _).
  pose proof (reanalyze_with_result (rebuild_path (st_parts st)) st1) as Hr.
  pose proof (reanalyze_with_state (rebuild_path (st_parts st)) st1) as Hs.
  pose proof (reanalyze_with_raw (rebuild_path (st_parts st)) st1) as Hraw.
  destruct (reanalyze_with (rebuild_path (st_parts st)) st1)
    as [[ex|[raw' entries']] st2]; simpl in *; [done |].
  intros [= -> ->]. specialize (Hraw raw entries eq_refl). subst st2 raw.
  split; [done |]. simpl. rewrite insert_insert_eq.
  destruct (analyze_path _ _) as [?|[[raw' ents] grouped]]; [done |].
  injection Hr as <- <-. by exists grouped.
Qed.

Lemma session_returns_snapshot fuel raw_path entries :
  broken_entries entries ≠ [] →
  returns_snapshot (interactive_fix_broken_paths fuel raw_path entries).
Proof.
  intros Hb. unfold interactive_fix_broken_paths.
  destruct (broken_entries entries) as [|b bs]; [done |].
  do 6 (apply returns_snapshot_bind; intros ?).
  destruct x4 as [u|]; [apply returns_snapshot_final |].
  by intros st raw ents.
Qed.

End Proposal.

(** X23: what a session that found a broken entry returns is
    the join of its final parts together with the entries of the analysis
    of that string on the final file system. *)
Theorem session_returns_snapshot_of_proposal `{os : OS} (fuel : nat)
    (raw_path : string) (entries : list Paths.Entry) (st : Paths.state)
    (new_raw : string) (new_entries : list Paths.Entry) :
  Paths.broken_entries entries ≠ [] →
  (Paths.interactive_fix_broken_paths fuel raw_path entries st).1
  = inr (Some (new_raw, new_entries)) →
  let st' := (Paths.interactive_fix_broken_paths fuel raw_path entries st).2 in
  new_raw = Paths.rebuild_path (Paths.st_parts st') ∧
  ∃ grouped,
    Paths.analyze_path (<["PATH" := new_raw]> (Paths.st_environ st'))
      (Paths.st_fs st')
    = inr (new_raw, new_entries, grouped).
Proof.
  intros Hb Hrun. by apply (session_returns_snapshot fuel raw_path entries Hb).
Qed.

Lemma session_returns_snapshot_of_proposal_witness :
  let path := "/usr/bin::/nonexistent:/opt" in
  let st := Scenario.state_of path [] ["2"; "2"; "q"] in
  let out := Paths.interactive_fix_broken_paths 9 path
               (Scenario.entries_of path) st in
  ∃ new_entries,
    out.1 = inr (Some ("/usr/bin:/opt", new_entries)) ∧
    Paths.st_parts out.2 = ["/usr/bin"; "/opt"] ∧
    ∃ grouped,
      Paths.analyze_path (<["PATH" := "/usr/bin:/opt"]> (Paths.st_environ out.2))
        (Paths.st_fs out.2)
      = inr ("/usr/bin:/opt", new_entries, grouped).
Proof.
  intros path st out.
  assert (∃ new_entries, out.1 = inr (Some ("/usr/bin:/opt", new_entries)))
    as [new_entries Hrun] by (eexists; vm_compute; reflexivity).
  exists new_entries. split; [exact Hrun |].
  split; [vm_compute; reflexivity |].
  destruct (session_returns_snapshot_of_proposal (os := Posix.os) 9 path
              (Scenario.entries_of path) st "/usr/bin:/opt" new_entries)
    as [_ H]; [vm_compute; discriminate | exact Hrun |].
  exact H.
Defined.

(** X22: a session left by q at its first prompt hands back the
    join of the non-empty segments of the original PATH: its segments are
    the original ones without the empty ones, and it is the original PATH
    when that has no empty segment. *)
Theorem quit_at_once_drops_empty_segments `{os : OS} (fuel : nat)
    (raw_path : string) (entries : list Paths.Entry) (st : Paths.state)
    (line : string) (rest : list string) (new_raw : string)
    (new_entries : list Paths.Entry) :
  Paths.st_stdin st = line :: rest → Py.lower (Py.strip line) = "q" →
  Paths.broken_entries entries ≠ [] →
  (Paths.interactive_fix_broken_paths (S fuel) raw_path entries st).1
  = inr (Some (new_raw, new_entries)) →
  new_raw = Paths.rebuild_path (Paths.initial_parts raw_path) ∧
  Paths.split_path new_raw
  = List.filter Py.truthy (Paths.split_path raw_path) ∧
  ("" ∉ Paths.split_path raw_path → new_raw = raw_path).
Proof.
  intros Hin Hq Hb Hrun.
  destruct (session_quit_at_once fuel raw_path entries st line rest Hin Hq)
    as [Hparts Hraw].
  specialize (Hraw Hb new_raw new_entries Hrun).
  split; [exact Hraw |]. split.
  - rewrite Hraw. apply split_rebuild_path_plain, initial_parts_plain.
  - intros H. rewrite Hraw. by apply rebuild_initial_parts.
Qed.

Lemma quit_at_once_drops_empty_segments_witness :
  let path := ":/usr/bin::/nonexistent:" in
  let st := Scenario.state_of path [] ["q"] in
  ∃ new_entries,
    (Paths.interactive_fix_broken_paths 1 path (Scenario.entries_of path)
       st).1 = inr (Some ("/usr/bin:/nonexistent", new_entries)) ∧
    length (Scenario.entries_of path) = 5 ∧ length new_entries = 2 ∧
    Paths.split_path "/usr/bin:/nonexistent"
    = List.filter Py.truthy (Paths.split_path path).
Proof.
  intros path st.
  assert (∃ new_entries,
    (Paths.interactive_fix_broken_paths 1 path (Scenario.entries_of path)
       st).1 = inr (Some ("/usr/bin:/nonexistent", new_entries)) ∧
    length new_entries = 2) as (new_entries & Hrun & Hlen)
    by (eexists; split; vm_compute; reflexivity).
  exists new_entries. split; [exact Hrun |].
  split; [vm_compute; reflexivity |]. split; [exact Hlen |].
  destruct (quit_at_once_drops_empty_segments (os := Posix.os) 0 path
              (Scenario.entries_of path) st "q" [] "/usr/bin:/nonexistent"
              new_entries) as (_ & H & _);
    [reflexivity | reflexivity | vm_compute; discriminate | exact Hrun |].
  exact H.
Defined.

(** ** The entry point *)

Section Main.
Context `{os : OS}.
Import Py Paths.

Lemma main_regroup_result raw_path st :
  (main_regroup raw_path st).1
  = match analyze_path (<["PATH" := raw_path]> (st_environ st)) (st_fs st) with
    | inl ex => inl ex
    | inr (_, _, grouped) => inr grouped
    end.
Proof.
  unfold main_regroup. run_M.
  by destruct (analyze_path _ _) as [?|[[? ?] ?]].
Qed.

(** Re-reading the PATH that an analysis reported gives the same
    analysis. *)
Lemma analyze_path_own_PATH environ fs raw entries grouped :
  analyze_path environ fs = inr (raw, entries, grouped) →
  analyze_path (<["PATH" := raw]> environ) fs = inr (raw, entries, grouped).
Proof.
  intros Hrun.
  assert (raw = environ_get_PATH environ) as Hraw.
  { revert Hrun. unfold analyze_path.
    destruct (analyze_entries _ _ _ _ _ _); simpl; [done |].
    by intros [= <- _ _]. }
  destruct (environ !! "PATH") as [v|] eqn:Ev.
  - rewrite insert_id; [done |]. rewrite Hraw. unfold environ_get_PATH.
    by rewrite Ev.
  - assert (raw = "") as -> by (rewrite Hraw; unfold environ_get_PATH;
                                  by rewrite Ev).
    revert Hrun. unfold analyze_path, environ_get_PATH.
    by rewrite Ev, lookup_insert_eq.
Qed.


Local Arguments interactive_fix_broken_paths : simpl never.
Local Arguments main_regroup : simpl never.
Local Arguments analyze_path : simpl never.



Lemma main_one_snapshot fuel argv script_file sys_version path_log_file st
    raw entries grouped data :
  (main fuel argv script_file sys_version path_log_file st).1
  = inr (Some (raw, entries, grouped, data)) →
  let st' := (main fuel argv script_file sys_version path_log_file st).2 in
  analyze_path (<["PATH" := raw]> (st_environ st')) (st_fs st')
  = inr (raw, entries, grouped) ∧
  data = (if bool_decide ("--json" ∈ argv)
          then Some (make_json raw entries path_log_file) else None).
Proof.
  unfold main. run_M.
  destruct (analyze_path (st_environ st) (st_fs st))
    as [?|[[raw0 entries0] grouped0]] eqn:Hrun; simpl; [done |].
  apply analyze_path_own_PATH in Hrun.
  set (st5 := set_log _ _).
  assert (∀ stx : state,
    st_environ stx = st_environ st → st_fs stx = st_fs st →
    ∀ r,
    (r = (inr (Some (raw0, entries0, grouped0)), stx) ∨
     (List.filter is_broken entries0 ≠ [] ∧
      r = match interactive_fix_broken_paths fuel raw0 entries0 stx with
          | (inl ex, st') => (inl ex, st')
          | (inr None, st') => (inr None, st')
          | (inr (Some (raw1, entries1)), st') =>
              match main_regroup raw1 st' with
              | (inl ex, st'') => (inl ex, st'')
              | (inr grouped1, st'') =>
                  (inr (Some (raw1, entries1, grouped1)), st'')
              end
          end)) →
    ∀ raw1 entries1 grouped1,
      r.1 = inr (Some (raw1, entries1, grouped1)) →
      analyze_path (<["PATH" := raw1]> (st_environ r.2)) (st_fs r.2)
      = inr (raw1, entries1, grouped1)) as Hmid.
  { intros stx He Hf r [->|[Hb ->]] raw1 entries1 grouped1; simpl.
    - intros [= <- <- <-]. by rewrite He, Hf.
    - pose proof (session_returns_snapshot fuel raw0 entries0 Hb stx) as Hs.
      destruct (interactive_fix_broken_paths fuel raw0 entries0 stx)
        as [[?|[[raw2 entries2]|]] st'] eqn:Es; simpl in *; try done.
      destruct (Hs raw2 entries2 eq_refl) as (_ & g & Hg).
      pose proof (main_regroup_result raw2 st') as Hr.
      pose proof (main_regroup_state raw2 st') as Hst.
      destruct (main_regroup raw2 st') as [[?|g'] st'']; simpl in *;
        [done |].
      intros [= <- <- <-]. rewrite Hg in Hr. injection Hr as <-.
      subst st''. simpl. by rewrite insert_insert_eq. }
  destruct (List.filter is_broken entries0) as [|b bs] eqn:Hb; simpl.
  { intros [= <- <- <- <-]. simpl. done. }
  assert (b :: bs ≠ []) as Hne by done.
  destruct (bool_decide ("--fix" ∈ argv)); simpl.
  - specialize (Hmid st5 eq_refl eq_refl _ (or_intror (conj Hne eq_refl))).
    destruct (interactive_fix_broken_paths fuel raw0 entries0 st5)
      as [[?|[[raw2 entries2]|]] st'] eqn:Es; simpl in *; try done.
    destruct (main_regroup raw2 st') as [[?|g'] st'']; simpl in *; [done |].
    intros [= <- <- <- <-]. simpl. split; [| done]. by apply Hmid.
  - destruct (st_stdin st) as [|line rest] eqn:Hin; simpl; [done |].
    set (st6 := set_stdin _ _).
    destruct (String.eqb (lower (strip line)) "y"); simpl.
    + specialize (Hmid st6 eq_refl eq_refl _ (or_intror (conj Hne eq_refl))).
      destruct (interactive_fix_broken_paths fuel raw0 entries0 st6)
        as [[?|[[raw2 entries2]|]] st'] eqn:Es; simpl in *; try done.
      destruct (main_regroup raw2 st') as [[?|g'] st'']; simpl in *; [done |].
      intros [= <- <- <- <-]. simpl. split; [| done]. by apply Hmid.
    + intros [= <- <- <- <-]. simpl. done.
Qed.

End Main.





(** X26: whenever main returns, fix session or not, the
    raw_path, entries and groups it reported last are one analysis of that
    raw_path on the final file system, and the JSON document is built from
    them exactly when --json is given. *)
Theorem main_report_is_one_snapshot `{os : OS} (fuel : nat)
    (argv : list string) (script_file sys_version path_log_file : string)
    (st : Paths.state) (raw : string) (entries : list Paths.Entry)
    (grouped : list (string * list Paths.Entry))
    (data : option Paths.json_data) :
  (Paths.main fuel argv script_file sys_version path_log_file st).1
  = inr (Some (raw, entries, grouped, data)) →
  let st' := (Paths.main fuel argv script_file sys_version path_log_file
                st).2 in
  Paths.analyze_path (<["PATH" := raw]> (Paths.st_environ st'))
    (Paths.st_fs st')
  = inr (raw, entries, grouped) ∧
  data = (if bool_decide ("--json" ∈ argv)
          then Some (Paths.make_json raw entries path_log_file) else None).
Proof. apply main_one_snapshot. Qed.

Lemma main_report_is_one_snapshot_witness :
  let st := Scenario.state_of "/usr/bin:/opt/toolX/2.0:/nonexistent" []
              ["a"; "5"; "2"; "q"] in
  let out := Paths.main 9 ["paths.py"; "--fix"; "--json"] "/src/paths.py"
               "3.12" "run.log" st in
  ∃ entries grouped data,
    out.1 = inr (Some ("/usr/bin:/opt/toolX/2.0", entries, grouped, data)) ∧
    Paths.analyze_path
      (<["PATH" := "/usr/bin:/opt/toolX/2.0"]> (Paths.st_environ out.2))
      (Paths.st_fs out.2)
    = inr ("/usr/bin:/opt/toolX/2.0", entries, grouped) ∧
    Paths.broken_entries entries = [].
Proof.
  intros st out.
  assert (∃ entries grouped data,
    out.1 = inr (Some ("/usr/bin:/opt/toolX/2.0", entries, grouped, data)) ∧
    Paths.broken_entries entries = []) as (entries & grouped & data & H & Hb)
    by (do 3 eexists; split; vm_compute; reflexivity).
  exists entries, grouped, data. split; [exact H |]. split; [| exact Hb].
  destruct (main_report_is_one_snapshot (os := Posix.os) 9
              ["paths.py"; "--fix"; "--json"] "/src/paths.py" "3.12"
              "run.log" st _ _ _ _ H) as [Ha _].
  exact Ha.
Defined.
